(** * Scene Fold: scene store, reconciliation and summarization queue

    A shallow embedding of [scene-data.js] (stable identifiers, the scene
    store, the two reconciliation passes), of [summarizeScene] and
    [slashSceneCreate] from [index.js], and of [summarization-queue.js],
    followed by the properties of the specification proved about them.

    JavaScript objects that the code mutates in place (the chat array, the
    [chat_metadata.scene_fold] object, the queue's fields) are threaded
    through the functions as explicit state. *)

From Stdlib Require Import ZArith String Ascii List Bool Lia.
From stdpp Require Import base option list strings pretty gmap sorting.

Open Scope string_scope.
Open Scope list_scope.

(* ===================================================================== *)
(** * Part I. The embedding                                               *)
(* ===================================================================== *)

(** ** JavaScript values used by the code *)

(** [if (s)] on a string: only the empty string is falsy. *)
Definition truthy (s : string) : bool := negb (String.eqb s "").

(** [if (x)] where [x] is a string, [undefined] or [null]. *)
Definition truthy_opt (o : option string) : bool :=
  match o with
  | Some s => truthy s
  | None => false
  end.

(** ** Messages

    Only the fields read or written by the embedded functions are kept.
    [None] stands for an absent ([undefined]) property. *)

Record Extra := mkExtra {
  scene_fold_uuid : option string;
  scene_fold_scenes : option (list string);
  scene_fold_role : option string;
  scene_fold_scene_id : option string;
  extra_type : option string
}.

Record Message := mkMessage {
  name : option string;
  is_user : bool;
  is_system : bool;
  mes : string;
  extra : option Extra
}.

(** The literal [{}] assigned to [message.extra]. *)
Definition emptyExtra : Extra := mkExtra None None None None None.

Definition set_uuid (u : option string) (e : Extra) : Extra :=
  mkExtra u (scene_fold_scenes e) (scene_fold_role e) (scene_fold_scene_id e) (extra_type e).
Definition set_scenes (l : option (list string)) (e : Extra) : Extra :=
  mkExtra (scene_fold_uuid e) l (scene_fold_role e) (scene_fold_scene_id e) (extra_type e).
Definition set_role (r : option string) (e : Extra) : Extra :=
  mkExtra (scene_fold_uuid e) (scene_fold_scenes e) r (scene_fold_scene_id e) (extra_type e).
Definition set_summary_scene_id (s : option string) (e : Extra) : Extra :=
  mkExtra (scene_fold_uuid e) (scene_fold_scenes e) (scene_fold_role e) s (extra_type e).

Definition set_extra (e : option Extra) (m : Message) : Message :=
  mkMessage (name m) (is_user m) (is_system m) (mes m) e.
Definition set_is_system (b : bool) (m : Message) : Message :=
  mkMessage (name m) (is_user m) b (mes m) (extra m).

(** The chat is a JavaScript array of message objects; reading past its
    end (or at a negative index) yields [undefined]. *)
Abbreviation Chat := (list Message).

Definition chat_at (chat : Chat) (i : Z) : option Message :=
  if (i <? 0)%Z then None else chat !! Z.to_nat i.

(** [m?.extra?.scene_fold_uuid] *)
Definition msg_uuid (m : Message) : option string :=
  extra m ≫= scene_fold_uuid.

(** [chat[i]?.extra?.scene_fold_uuid] for an array index [i]. *)
Definition uuid_at (chat : Chat) (i : nat) : option string :=
  chat !! i ≫= msg_uuid.

(** ** Stable identity index *)

(** [ensureMessageUUID(message, uuidv4Fn)]. The generator is a stream
    [uuidv4Fn : nat -> string] read at a counter; the message, the
    identifier and the advanced counter are returned. *)
Definition ensureMessageUUID (message : Message) (uuidv4Fn : nat → string) (n : nat)
  : Message * string * nat :=
  let e := match extra message with
           | Some e => e
           | None => emptyExtra
           end in
  if truthy_opt (scene_fold_uuid e)
  then (set_extra (Some e) message, default "" (scene_fold_uuid e), n)
  else (set_extra (Some (set_uuid (Some (uuidv4Fn n)) e)) message, uuidv4Fn n, S n).

(** The loop of [buildUUIDIndex], started at array index [i]. Later
    positions overwrite earlier ones ([Map.set]). *)
Fixpoint buildUUIDIndex_loop (i : nat) (chat : Chat) (index : gmap string nat)
  : gmap string nat :=
  match chat with
  | [] => index
  | m :: rest =>
      buildUUIDIndex_loop (S i) rest
        (match msg_uuid m with
         | Some uuid => if truthy uuid then <[uuid := i]> index else index
         | None => index
         end)
  end.

Definition buildUUIDIndex (chat : Chat) : gmap string nat :=
  buildUUIDIndex_loop 0 chat ∅.

(** The fallback loop of [findMessageIndexByUUID], started at index [i]. *)
Fixpoint linearScan (i : nat) (chat : Chat) (uuid : string) : Z :=
  match chat with
  | [] => (-1)%Z
  | m :: rest =>
      if decide (msg_uuid m = Some uuid) then Z.of_nat i
      else linearScan (S i) rest uuid
  end.

(** [findMessageIndexByUUID(chat, uuid, uuidIndex)]; [None] is the omitted
    third argument. *)
Definition findMessageIndexByUUID (chat : Chat) (uuid : string)
    (uuidIndex : option (gmap string nat)) : Z :=
  match uuidIndex ≫= (λ index, index !! uuid) with
  | Some idx =>
      if decide (uuid_at chat idx = Some uuid) then Z.of_nat idx
      else linearScan 0 chat uuid
  | None => linearScan 0 chat uuid
  end.

(** ** Scenes and the scene store *)

(** The five status strings the code assigns. *)
Inductive Status : Type :=
  | st_defined | st_queued | st_summarizing | st_completed | st_error.

Global Instance Status_eq_dec : EqDecision Status.
Proof. solve_decision. Defined.

(** A scene object. [scene_id] is the property [id]; [stale] and
    [needsRetry] (the property [_needsRetry]) are absent on a fresh object,
    which reads as [false]. *)
Record Scene := mkScene {
  scene_id : string;
  summaryMessageUUID : option string;
  sourceMessageUUIDs : list string;
  parentSceneId : option string;
  status : Status;
  customPrompt : option string;
  folded : bool;
  lastError : option string;
  createdAt : Z;
  stale : bool;
  needsRetry : bool
}.

Definition set_sources (l : list string) (s : Scene) : Scene :=
  mkScene (scene_id s) (summaryMessageUUID s) l (parentSceneId s) (status s)
          (customPrompt s) (folded s) (lastError s) (createdAt s) (stale s) (needsRetry s).
Definition set_summary (u : option string) (s : Scene) : Scene :=
  mkScene (scene_id s) u (sourceMessageUUIDs s) (parentSceneId s) (status s)
          (customPrompt s) (folded s) (lastError s) (createdAt s) (stale s) (needsRetry s).
Definition set_status (st : Status) (s : Scene) : Scene :=
  mkScene (scene_id s) (summaryMessageUUID s) (sourceMessageUUIDs s) (parentSceneId s) st
          (customPrompt s) (folded s) (lastError s) (createdAt s) (stale s) (needsRetry s).
Definition set_folded (b : bool) (s : Scene) : Scene :=
  mkScene (scene_id s) (summaryMessageUUID s) (sourceMessageUUIDs s) (parentSceneId s) (status s)
          (customPrompt s) b (lastError s) (createdAt s) (stale s) (needsRetry s).
Definition set_lastError (e : option string) (s : Scene) : Scene :=
  mkScene (scene_id s) (summaryMessageUUID s) (sourceMessageUUIDs s) (parentSceneId s) (status s)
          (customPrompt s) (folded s) e (createdAt s) (stale s) (needsRetry s).
Definition set_stale (b : bool) (s : Scene) : Scene :=
  mkScene (scene_id s) (summaryMessageUUID s) (sourceMessageUUIDs s) (parentSceneId s) (status s)
          (customPrompt s) (folded s) (lastError s) (createdAt s) b (needsRetry s).
Definition set_needsRetry (b : bool) (s : Scene) : Scene :=
  mkScene (scene_id s) (summaryMessageUUID s) (sourceMessageUUIDs s) (parentSceneId s) (status s)
          (customPrompt s) (folded s) (lastError s) (createdAt s) (stale s) b.

(** [data.scenes] is a plain object keyed by scene id. It is kept as the
    list of its entries in insertion order, which is the order
    [Object.entries] enumerates string keys in. An object has each key at
    most once: [NoDup (keys o)] is the well-formedness of such a list. *)
Abbreviation Obj A := (list (string * A)).

Definition keys {A} (o : Obj A) : list string := o.*1.

(** [o[k]] *)
Fixpoint obj_get {A} (k : string) (o : Obj A) : option A :=
  match o with
  | [] => None
  | (k', v) :: rest => if decide (k' = k) then Some v else obj_get k rest
  end.

(** [o[k] = v]: overwrite in place, or add as the last property. The
    keys of [data.scenes] are the scene ids, strings of [uuidv4]; a key
    that is the decimal form of an array index, which JavaScript would
    enumerate ahead of the others, is outside the embedding. *)
Fixpoint obj_set {A} (k : string) (v : A) (o : Obj A) : Obj A :=
  match o with
  | [] => [(k, v)]
  | (k', v') :: rest =>
      if decide (k' = k) then (k, v) :: rest else (k', v') :: obj_set k v rest
  end.

(** [delete o[k]] *)
Definition obj_delete {A} (k : string) (o : Obj A) : Obj A :=
  filter (λ p, p.1 ≠ k) o.

(** A mutation of the object stored under [k] (no effect without it). *)
Definition obj_update {A} (k : string) (f : A → A) (o : Obj A) : Obj A :=
  match obj_get k o with
  | Some v => obj_set k (f v) o
  | None => o
  end.

Record Settings := mkSettings { defaultPrompt : string }.

Record SceneFoldMetadata := mkData {
  scenes : Obj Scene;
  settings : Settings
}.

Record ChatMetadata := mkChatMetadata { scene_fold : option SceneFoldMetadata }.

Definition getDefaultSummarizationPrompt : string :=
  "Summarize the following scene from a roleplay conversation. Preserve key plot points, character actions, emotional beats, and any important details. Write the summary in present tense, third person, as a concise narrative paragraph. Do not add commentary or analysis - only summarize what happened.".

(** [getSceneFoldData(chatMetadata)]: the [scene_fold] object, created on
    first use. Every caller below stores the object back, which accounts
    for the assignment [chatMetadata.scene_fold = {...}]. *)
Definition getSceneFoldData (chatMetadata : ChatMetadata) : SceneFoldMetadata :=
  match scene_fold chatMetadata with
  | Some data => data
  | None => mkData [] (mkSettings getDefaultSummarizationPrompt)
  end.

Definition with_scenes (data : SceneFoldMetadata) (o : Obj Scene) : ChatMetadata :=
  mkChatMetadata (Some (mkData o (settings data))).

(** [getScene(chatMetadata, sceneId)] *)
Definition getScene (chatMetadata : ChatMetadata) (sceneId : string) : option Scene :=
  obj_get sceneId (scenes (getSceneFoldData chatMetadata)).

(** [updateScene(chatMetadata, sceneId, updates)]; the partial object
    [updates] is the function that [Object.assign] applies to the scene. *)
Definition updateScene (chatMetadata : ChatMetadata) (sceneId : string)
    (updates : Scene → Scene) : ChatMetadata :=
  let data := getSceneFoldData chatMetadata in
  with_scenes data (obj_update sceneId updates (scenes data)).

(** [msg?.extra?.scene_fold_scenes || []] at array position [messageIndex]. *)
Definition getMessageScenes (chat : Chat) (messageIndex : Z) : list string :=
  match chat_at chat messageIndex with
  | Some msg =>
      match extra msg with
      | Some e => default [] (scene_fold_scenes e)
      | None => []
      end
  | None => []
  end.

(** What one iteration of the loop of [createScene] does to the message
    [chat[i]]: ensure its identifier, add the scene to its tags, set its
    role. Returns the message, its identifier and the generator's counter. *)
Definition tagSource (sceneId : string) (uuidv4Fn : nat → string)
    (m : Message) (n : nat) : Message * string * nat :=
  let '(m1, uuid, n1) := ensureMessageUUID m uuidv4Fn n in
  let e := default emptyExtra (extra m1) in
  let tags := default [] (scene_fold_scenes e) in
  let tags' := if decide (sceneId ∈ tags) then tags else tags ++ [sceneId] in
  (set_extra (Some (set_role (Some "source") (set_scenes (Some tags') e))) m1, uuid, n1).

(** The loop of [createScene]: [fuel] iterations from index [i]. *)
Fixpoint createScene_loop (fuel : nat) (i : Z) (sceneId : string)
    (uuidv4Fn : nat → string) (chat : Chat) (n : nat) (sourceMessageUUIDs : list string)
  : Chat * nat * list string :=
  match fuel with
  | O => (chat, n, sourceMessageUUIDs)
  | S fuel' =>
      match chat_at chat i with
      | None => createScene_loop fuel' (i + 1) sceneId uuidv4Fn chat n sourceMessageUUIDs
      | Some m =>
          let '(m2, uuid, n1) := tagSource sceneId uuidv4Fn m n in
          createScene_loop fuel' (i + 1) sceneId uuidv4Fn
            (<[Z.to_nat i := m2]> chat) n1 (sourceMessageUUIDs ++ [uuid])
      end
  end.

(** [createScene(chatMetadata, chat, startIndex, endIndex, uuidv4Fn,
    customPrompt)]. [now] is the value of [Date.now()]. Returns the scene,
    the metadata, the chat and the generator's counter. *)
Definition createScene (chatMetadata : ChatMetadata) (chat : Chat)
    (startIndex endIndex : Z) (uuidv4Fn : nat → string) (n : nat)
    (customPrompt : option string) (now : Z)
  : Scene * ChatMetadata * Chat * nat :=
  let data := getSceneFoldData chatMetadata in
  let sceneId := uuidv4Fn n in
  let '(chat', n', sourceMessageUUIDs) :=
    createScene_loop (Z.to_nat (endIndex - startIndex + 1)) startIndex sceneId
      uuidv4Fn chat (S n) [] in
  let scene :=
    mkScene sceneId None sourceMessageUUIDs None st_defined
      (if truthy_opt customPrompt then customPrompt else None)
      false None now false false in
  (scene, with_scenes data (obj_set sceneId scene (scenes data)), chat', n').

(** [Set.add] on the insertion-ordered set of [findOverlappingScenes]. *)
Definition set_add (x : string) (s : list string) : list string :=
  if decide (x ∈ s) then s else s ++ [x].

Fixpoint findOverlappingScenes_loop (fuel : nat) (i : Z) (chat : Chat)
    (overlapping : list string) : list string :=
  match fuel with
  | O => overlapping
  | S fuel' =>
      findOverlappingScenes_loop fuel' (i + 1) chat
        (fold_left (λ acc sceneId, set_add sceneId acc) (getMessageScenes chat i) overlapping)
  end.

(** [findOverlappingScenes(chatMetadata, chat, startIndex, endIndex)] *)
Definition findOverlappingScenes (chatMetadata : ChatMetadata) (chat : Chat)
    (startIndex endIndex : Z) : list string :=
  findOverlappingScenes_loop (Z.to_nat (endIndex - startIndex + 1)) startIndex chat [].

(** The result of [slashSceneCreate] from the overlap check on (the
    lines after the [start]/[end] arguments have been resolved): the
    returned string and the state. *)
Definition slashSceneCreate (chatMetadata : ChatMetadata) (chat : Chat)
    (start end_ : Z) (uuidv4Fn : nat → string) (n : nat)
    (prompt : option string) (now : Z)
  : string * ChatMetadata * Chat * nat :=
  let overlaps := findOverlappingScenes chatMetadata chat start end_ in
  if (0 <? length overlaps)%nat
  then ("Error: overlap", chatMetadata, chat, n)
  else
    let '(scene, chatMetadata', chat', n') :=
      createScene chatMetadata chat start end_ uuidv4Fn n prompt now in
    (scene_id scene, chatMetadata', chat', n').

(** ** Duplication reconciliation *)

(** [uuidOccurrences]: a [Map] from identifier to the array of positions
    holding it, kept in insertion order (the order the [for ... of] loop
    over the map visits it). [occ_push] is
    [if (!has(uuid)) set(uuid, []); get(uuid).push(i)]. *)
Fixpoint occ_push (uuid : string) (i : nat) (occ : list (string * list nat))
  : list (string * list nat) :=
  match occ with
  | [] => [(uuid, [i])]
  | (u, l) :: rest =>
      if decide (u = uuid) then (u, l ++ [i]) :: rest
      else (u, l) :: occ_push uuid i rest
  end.

Fixpoint collectOccurrences (i : nat) (chat : Chat) (occ : list (string * list nat))
  : list (string * list nat) :=
  match chat with
  | [] => occ
  | m :: rest =>
      collectOccurrences (S i) rest
        (match msg_uuid m with
         | Some uuid => if truthy uuid then occ_push uuid i occ else occ
         | None => occ
         end)
  end.

(** [l.indexOf(x)], with [None] for [-1]. *)
Fixpoint indexOf (x : string) (l : list string) : option nat :=
  match l with
  | [] => None
  | y :: rest => if decide (y = x) then Some 0 else S <$> indexOf x rest
  end.

(** [splice(origPos + 1, 0, newUUID)] when the original is found, [push]
    otherwise. *)
Definition insertAfterOriginal (originalUUID newUUID : string) (l : list string)
  : list string :=
  match indexOf originalUUID l with
  | Some origPos => take (S origPos) l ++ newUUID :: drop (S origPos) l
  | None => l ++ [newUUID]
  end.

(** The loop over [sceneIds]; an id without a scene is skipped. *)
Definition addDuplicateToScenes (originalUUID newUUID : string)
    (sceneIds : list string) (o : Obj Scene) : Obj Scene :=
  fold_left
    (λ o sceneId,
       obj_update sceneId
         (λ scene, set_sources
                     (insertAfterOriginal originalUUID newUUID (sourceMessageUUIDs scene))
                     scene) o)
    sceneIds o.

(** One iteration of the inner loop, for the duplicate at [dupIdx]. The
    state is the scenes object, the chat, the generator's counter and
    [fixedCount]. [dupIdx] was collected from a message with an [extra]
    object, so the first two cases do not arise. *)
Definition fixDuplicate (originalUUID : string) (uuidv4Fn : nat → string)
    (st : Obj Scene * Chat * nat * nat) (dupIdx : nat)
  : Obj Scene * Chat * nat * nat :=
  let '(o, chat, n, fixedCount) := st in
  match chat !! dupIdx with
  | None => st
  | Some dupMsg =>
      match extra dupMsg with
      | None => st
      | Some e =>
          let newUUID := uuidv4Fn n in
          let dupMsg' := set_extra (Some (set_uuid (Some newUUID) e)) dupMsg in
          let sceneIds := default [] (scene_fold_scenes e) in
          (addDuplicateToScenes originalUUID newUUID sceneIds o,
           <[dupIdx := dupMsg']> chat, S n, S fixedCount)
      end
  end.

(** One iteration of the outer loop, for one entry of the map. *)
Definition fixOccurrences (uuidv4Fn : nat → string)
    (st : Obj Scene * Chat * nat * nat) (entry : string * list nat)
  : Obj Scene * Chat * nat * nat :=
  let '(originalUUID, indices) := entry in
  if (length indices <=? 1)%nat then st
  else fold_left (fixDuplicate originalUUID uuidv4Fn) (drop 1 indices) st.

(** [reconcileDuplicatedMessages(chatMetadata, chat, uuidv4Fn)]: the
    returned count, then the state. *)
Definition reconcileDuplicatedMessages (chatMetadata : ChatMetadata) (chat : Chat)
    (uuidv4Fn : nat → string) (n : nat) : nat * ChatMetadata * Chat * nat :=
  let data := getSceneFoldData chatMetadata in
  let uuidOccurrences := collectOccurrences 0 chat [] in
  let '(o, chat', n', fixedCount) :=
    fold_left (fixOccurrences uuidv4Fn) uuidOccurrences (scenes data, chat, n, 0%nat) in
  (fixedCount, with_scenes data o, chat', n').

(** ** Deletion reconciliation *)

Record ReconcileResult := mkResult {
  modifiedScenes : list string;
  deletedScenes : list string;
  summaryLost : list string
}.

(** A write to the message at a position returned by
    [findMessageIndexByUUID] (nothing is written for [-1]). *)
Definition chat_modify (idx : Z) (f : Message → Message) (chat : Chat) : Chat :=
  if (idx <? 0)%Z then chat else alter f (Z.to_nat idx) chat.

(** [delete m.extra.scene_fold_scene_id; delete m.extra.scene_fold_role] *)
Definition clearSummaryTags (m : Message) : Message :=
  match extra m with
  | Some e => set_extra (Some (set_role None (set_summary_scene_id None e))) m
  | None => m
  end.

(** The loop that clears [is_system] on the sources that still resolve. *)
Definition unhideSources (uuidIndex : gmap string nat) (uuids : list string)
    (chat : Chat) : Chat :=
  fold_left
    (λ chat uuid,
       let idx := findMessageIndexByUUID chat uuid (Some uuidIndex) in
       if decide (idx ≠ (-1)%Z) then chat_modify idx (set_is_system false) chat else chat)
    uuids chat.

(** The reset applied to a scene whose summary message is gone. *)
Definition resetLostSummary (scene : Scene) : Scene :=
  set_folded false (set_status st_defined (set_summary None scene)).

(** The body of the loop over [Object.entries(data.scenes)]. [scene] is
    the object enumerated for [sceneId]; it is the object held by the
    store under that key, and each write to it is a write to the store. *)
Definition reconcileScene (uuidIndex : gmap string nat)
    (st : Obj Scene * Chat * ReconcileResult) (entry : string * Scene)
  : Obj Scene * Chat * ReconcileResult :=
  let '(o, chat, result) := st in
  let '(sceneId, scene) := entry in
  let validSources :=
    filter (λ uuid, findMessageIndexByUUID chat uuid (Some uuidIndex) ≠ (-1)%Z)
           (sourceMessageUUIDs scene) in
  let changed := negb (length validSources =? length (sourceMessageUUIDs scene))%nat in
  let scene1 := if changed then set_sources validSources scene else scene in
  let o1 := if changed then obj_update sceneId (set_sources validSources) o else o in
  if (length validSources =? 0)%nat then
    let chat1 :=
      match summaryMessageUUID scene1 with
      | Some summaryUUID =>
          if truthy summaryUUID then
            let summaryIdx := findMessageIndexByUUID chat summaryUUID (Some uuidIndex) in
            if decide (summaryIdx ≠ (-1)%Z)
            then chat_modify summaryIdx clearSummaryTags chat
            else chat
          else chat
      | None => chat
      end in
    (obj_delete sceneId o1, chat1,
     mkResult (modifiedScenes result) (deletedScenes result ++ [sceneId]) (summaryLost result))
  else
    let lost :=
      match summaryMessageUUID scene1 with
      | Some summaryUUID =>
          truthy summaryUUID &&
          bool_decide (findMessageIndexByUUID chat summaryUUID (Some uuidIndex) = (-1)%Z)
      | None => false
      end in
    let o2 := if lost then obj_update sceneId resetLostSummary o1 else o1 in
    let chat2 := if lost then unhideSources uuidIndex (sourceMessageUUIDs scene1) chat else chat in
    let summaryLost' := if lost then summaryLost result ++ [sceneId] else summaryLost result in
    let modified := changed || lost in
    let modifiedScenes' :=
      if modified && negb (bool_decide (sceneId ∈ deletedScenes result))
      then modifiedScenes result ++ [sceneId]
      else modifiedScenes result in
    (o2, chat2, mkResult modifiedScenes' (deletedScenes result) summaryLost').

(** [reconcileScenesAfterDeletion(chatMetadata, chat)]: the result object,
    then the state. *)
Definition reconcileScenesAfterDeletion (chatMetadata : ChatMetadata) (chat : Chat)
  : ReconcileResult * ChatMetadata * Chat :=
  let data := getSceneFoldData chatMetadata in
  let uuidIndex := buildUUIDIndex chat in
  let '(o, chat', result) :=
    fold_left (reconcileScene uuidIndex) (scenes data)
      (scenes data, chat, mkResult [] [] []) in
  (result, with_scenes data o, chat').

(** ** Strings, as the error handling of [summarizeScene] reads them

    A string is the sequence of bytes of its UTF-8 encoding. [trim]
    strips the white space of ECMAScript in that encoding. [toLowerCase],
    the two regular expressions, [length] and [slice] are embedded for
    ASCII text, on which bytes and UTF-16 code units coincide. *)

Definition lower_ascii (c : ascii) : ascii :=
  let n := nat_of_ascii c in
  if (65 <=? n)%nat && (n <=? 90)%nat then ascii_of_nat (n + 32) else c.

(** [s.toLowerCase()] *)
Fixpoint toLowerCase (s : string) : string :=
  match s with
  | EmptyString => EmptyString
  | String c rest => String (lower_ascii c) (toLowerCase rest)
  end.

(** [s.startsWith(p)] *)
Fixpoint startsWith (p s : string) : bool :=
  match p, s with
  | EmptyString, _ => true
  | String a p', String b s' => Ascii.eqb a b && startsWith p' s'
  | String _ _, EmptyString => false
  end.

(** [s.includes(p)]: the regular expression [/p/] for a literal [p]. *)
Fixpoint includes (p s : string) : bool :=
  match s with
  | EmptyString => startsWith p EmptyString
  | String _ s' => startsWith p s || includes p s'
  end.

(** [s.slice(n)] for [0 <= n]. *)
Fixpoint dropString (n : nat) (s : string) : string :=
  match n, s with
  | O, _ => s
  | S n', String _ s' => dropString n' s'
  | S _, EmptyString => EmptyString
  end.

Definition headChar (s : string) : option ascii :=
  match s with
  | EmptyString => None
  | String c _ => Some c
  end.

Fixpoint lastChar (s : string) : option ascii :=
  match s with
  | EmptyString => None
  | String c EmptyString => Some c
  | String _ rest => lastChar rest
  end.

(** The characters [.] does not match. *)
Definition isLineTerminator (c : ascii) : bool :=
  (nat_of_ascii c =? 10)%nat || (nat_of_ascii c =? 13)%nat.

(** [/content.?filter/] *)
Definition contentFilterHere (s : string) : bool :=
  startsWith "content" s &&
  (let rest := dropString 7 s in
   startsWith "filter" rest ||
   match rest with
   | String c rest' => negb (isLineTerminator c) && startsWith "filter" rest'
   | EmptyString => false
   end).

Fixpoint contentFilter (s : string) : bool :=
  match s with
  | EmptyString => false
  | String _ s' => contentFilterHere s || contentFilter s'
  end.

(** [/prohibit|content.?filter|refus|safety|moderat|blocked|policy|unauthorized|forbidden|400|401|403|429/.test(errMsg)] *)
Definition nonRetryablePattern (errMsg : string) : bool :=
  includes "prohibit" errMsg || contentFilter errMsg || includes "refus" errMsg
  || includes "safety" errMsg || includes "moderat" errMsg || includes "blocked" errMsg
  || includes "policy" errMsg || includes "unauthorized" errMsg
  || includes "forbidden" errMsg || includes "400" errMsg || includes "401" errMsg
  || includes "403" errMsg || includes "429" errMsg.

(** [\w] *)
Definition isWordChar (c : ascii) : bool :=
  let n := nat_of_ascii c in
  ((48 <=? n) && (n <=? 57) || (65 <=? n) && (n <=? 90)
   || (97 <=? n) && (n <=? 122) || (n =? 95))%nat.

(** [\b] between two neighbouring characters (a missing one is the edge
    of the string). *)
Definition wordBoundary (before after : option ascii) : bool :=
  xorb (from_option isWordChar false before) (from_option isWordChar false after).

Definition refusalPhrases : list string :=
  ["i cannot"; "i can't"; "i'm unable"; "i am unable"; "not able to";
   "content policy"; "violat"; "against my"; "guidelines"].

(** One alternative of the refusal expression matched at the head of [s],
    [prev] being the character before it. *)
Definition refusalHere (prev : option ascii) (s : string) : bool :=
  existsb
    (λ phrase,
       startsWith phrase s
       && wordBoundary prev (headChar s)
       && wordBoundary (lastChar phrase) (headChar (dropString (String.length phrase) s)))
    refusalPhrases.

Fixpoint refusalScan (prev : option ascii) (s : string) : bool :=
  match s with
  | EmptyString => false
  | String c s' => refusalHere prev s || refusalScan (Some c) s'
  end.

(** [/\b(i cannot|i can't|i'm unable|i am unable|not able to|content policy|violat|against my|guidelines)\b/i.test(s)] *)
Definition refusalPattern (s : string) : bool := refusalScan None (toLowerCase s).

(** The string of the bytes given by their numbers. *)
Definition utf8 (bytes : list nat) : string :=
  foldr (λ n s, String (ascii_of_nat n) s) EmptyString bytes.

(** What [String.prototype.trim] strips: the code points of WhiteSpace
    (TAB, VT, FF, U+FEFF and the space separators U+0020, U+00A0, U+1680,
    U+2000 to U+200A, U+202F, U+205F, U+3000) and of LineTerminator (LF,
    CR, U+2028, U+2029), each as its UTF-8 encoding. *)
Definition whiteSpace : list string :=
  utf8 <$> [[9]; [10]; [11]; [12]; [13]; [32];
            [194; 160];
            [225; 154; 128];
            [226; 128; 128]; [226; 128; 129]; [226; 128; 130]; [226; 128; 131];
            [226; 128; 132]; [226; 128; 133]; [226; 128; 134]; [226; 128; 135];
            [226; 128; 136]; [226; 128; 137]; [226; 128; 138];
            [226; 128; 168]; [226; 128; 169];
            [226; 128; 175];
            [226; 129; 159];
            [227; 128; 128];
            [239; 187; 191]].

(** [code] is the encoding of one white space code point. *)
Definition isSpace (code : string) : bool := existsb (String.eqb code) whiteSpace.

(** [s.trimStart()]. An encoding has one to three bytes here, and no
    encoding is the beginning of another. *)
Fixpoint trimStart (s : string) : string :=
  match s with
  | EmptyString => EmptyString
  | String a rest1 =>
      if isSpace (String a EmptyString) then trimStart rest1
      else
        match rest1 with
        | EmptyString => s
        | String b rest2 =>
            if isSpace (String a (String b EmptyString)) then trimStart rest2
            else
              match rest2 with
              | EmptyString => s
              | String c rest3 =>
                  if isSpace (String a (String b (String c EmptyString)))
                  then trimStart rest3
                  else s
              end
        end
  end.

(** [s.trimEnd()], from the end of the string: once what follows the
    byte [a] has been trimmed, white space is left at the end only if
    [a] and what is kept are together one white space code point. *)
Fixpoint trimEnd (s : string) : string :=
  match s with
  | EmptyString => EmptyString
  | String a rest =>
      let kept := String a (trimEnd rest) in
      if isSpace kept then EmptyString else kept
  end.

(** [s.trim()] *)
Definition trim (s : string) : string := trimEnd (trimStart s).

(** A double quote, as a one-character string. *)
Definition dquote : string := String (ascii_of_nat 34) EmptyString.

(** ** Errors *)

Record JsError := mkError { err_name : string; err_message : string }.

(** [new DOMException('Aborted', 'AbortError')] *)
Definition AbortError : JsError := mkError "AbortError" "Aborted".

(** [new Error(message)] *)
Definition newError (message : string) : JsError := mkError "Error" message.

(** [String(error)] *)
Definition errorToString (e : JsError) : string :=
  if String.eqb (err_name e) "" then err_message e
  else if String.eqb (err_message e) "" then err_name e
  else err_name e ++ ": " ++ err_message e.

(** [error.message || String(error)] *)
Definition errorText (e : JsError) : string :=
  if truthy (err_message e) then err_message e else errorToString e.

Definition isAbortError (e : JsError) : bool := String.eqb (err_name e) "AbortError".

(** ** The summarization worker

    [summarizeScene] and [prepareForRetry] are [async]: they run until an
    [await] on an external call ([generateRaw], [saveChat]) and resume
    when that call settles. A [Point] records where a worker is suspended
    together with the local variables it will read again; the code between
    two suspension points is a function on the state.

    Toasts, console output, DOM rendering and the debounced metadata save
    have no effect on the state kept here and are left out. The prompt is
    not built: the answer of [generateRaw] is an input of the model. *)

(** What the context supplies besides the chat and its metadata:
    [uuidv4], [settings.maxRetries] ([None] for a missing setting) and
    whether [generateRaw] is a function. *)
Record Env := mkEnv {
  uuidv4 : nat → string;
  maxRetries : option Z;
  hasGenerateRaw : bool
}.

Inductive Point : Type :=
  | AwaitRetrySave
      (* prepareForRetry: await saveChat() *)
  | AwaitGenerate (attempt maxAttempts : Z) (sourceIndices : list Z)
      (* summarizeScene: result = await generateRaw({ prompt }) *)
  | AwaitSaveChat
      (* summarizeScene: await saveChat() *)
  | Settled (error : option JsError).
      (* the worker has returned or thrown; _processNext resumes next *)

(** How a stretch of synchronous code ends. *)
Inductive Outcome : Type :=
  | Suspended (p : Point)
  | Returned
  | Threw (e : JsError).

(** The chat metadata, the chat and the counter of [uuidv4]. *)
Abbreviation Ctx := (ChatMetadata * (list Message) * nat)%type.

(** The [catch (error)] block of [summarizeScene]. *)
Definition summarizeScene_catch (ctx : Ctx) (sceneId : string) (error : JsError)
  : Ctx * Outcome :=
  let '(chatMetadata, chat, n) := ctx in
  if isAbortError error then
    (updateScene chatMetadata sceneId
       (λ s, set_lastError None (set_status st_defined s)), chat, n, Threw error)
  else
    (updateScene chatMetadata sceneId
       (λ s, set_lastError (Some (errorText error)) (set_status st_error s)),
     chat, n, Returned).

(** [`LLM returned blank summary after ${maxAttempts} attempt${...}`] *)
Definition blankSummaryMessage (maxAttempts : Z) : string :=
  "LLM returned blank summary after " ++ pretty maxAttempts ++ " attempt"
  ++ (if decide (maxAttempts = 1%Z) then "" else "s").

(** The head of the retry loop at [attempt]: suspend on [generateRaw],
    or throw (cancellation; or the loop is over with no summary). *)
Definition enterAttempt (aborted : bool) (attempt maxAttempts : Z)
    (sourceIndices : list Z) : Point + JsError :=
  if (attempt <=? maxAttempts)%Z then
    if aborted then inr AbortError
    else inl (AwaitGenerate attempt maxAttempts sourceIndices)
  else inr (newError (blankSummaryMessage maxAttempts)).

Definition afterAttempt (ctx : Ctx) (sceneId : string) (r : Point + JsError)
  : Ctx * Outcome :=
  match r with
  | inl p => (ctx, Suspended p)
  | inr e => summarizeScene_catch ctx sceneId e
  end.

(** The positions of the sources that resolve (the loop that fills
    [sourceTexts] and [sourceIndices]). *)
Definition collectSourceIndices (chat : list Message) (uuids : list string) : list Z :=
  filter (λ idx, idx ≠ (-1)%Z)
         ((λ uuid, findMessageIndexByUUID chat uuid (Some (buildUUIDIndex chat))) <$> uuids).

(** [summarizeScene] from its entry to its first suspension. [aborted]
    is [signal.aborted]. *)
Definition summarizeScene_start (env : Env) (ctx : Ctx) (sceneId : string)
    (aborted : bool) : Ctx * Outcome :=
  let '(chatMetadata, chat, n) := ctx in
  if negb (hasGenerateRaw env) then (ctx, Returned)
  else
    match getScene chatMetadata sceneId with
    | None => (ctx, Returned)
    | Some scene =>
        if negb (bool_decide (status scene = st_defined)
                 || bool_decide (status scene = st_error)
                 || bool_decide (status scene = st_queued))
        then (ctx, Returned)
        else
          let ctx1 :=
            (updateScene chatMetadata sceneId
               (λ s, set_lastError None (set_status st_summarizing s)), chat, n) in
          if aborted then summarizeScene_catch ctx1 sceneId AbortError
          else
            let sourceIndices := collectSourceIndices chat (sourceMessageUUIDs scene) in
            if (length sourceIndices =? 0)%nat then
              summarizeScene_catch ctx1 sceneId
                (newError "No source messages found for this scene — UUIDs may be stale")
            else
              let maxAttempts := (1 + default 2 (maxRetries env))%Z in
              afterAttempt ctx1 sceneId (enterAttempt aborted 1 maxAttempts sourceIndices)
    end.

(** [Math.min(...sourceIndices)], as the index [splice] inserts at (past
    the end for the empty list). *)
Definition firstSourceIdx (chat : list Message) (sourceIndices : list Z) : nat :=
  match sourceIndices with
  | [] => length chat
  | idx :: rest => Z.to_nat (fold_left Z.min rest idx)
  end.

(** The loop that marks the sources as hidden from prompts. *)
Definition hideSources (uuids : list string) (chat : list Message) : list Message :=
  fold_left
    (λ chat uuid,
       let idx := findMessageIndexByUUID chat uuid None in
       if decide (idx = (-1)%Z) then chat else chat_modify idx (set_is_system true) chat)
    uuids chat.

(** [summarizeScene] from a non-blank summary to [await saveChat()]. The
    sources are read from the scene object the function holds, which is
    the one in the store. *)
Definition summarizeScene_complete (env : Env) (ctx : Ctx) (sceneId : string)
    (sourceIndices : list Z) (summary : string) : Ctx * Outcome :=
  let '(chatMetadata, chat, n) := ctx in
  let summaryUUID := uuidv4 env n in
  let summaryMessage :=
    mkMessage (Some "Scene Summary") false false (trim summary)
      (Some (mkExtra (Some summaryUUID) None (Some "summary") (Some sceneId)
               (Some "narrator"))) in
  let k := firstSourceIdx chat sourceIndices in
  let chat1 := take k chat ++ summaryMessage :: drop k chat in
  let sources := default [] (sourceMessageUUIDs <$> getScene chatMetadata sceneId) in
  let chat2 := hideSources sources chat1 in
  (updateScene chatMetadata sceneId
     (λ s, set_summary (Some summaryUUID) (set_folded true (set_status st_completed s))),
   chat2, S n, Suspended AwaitSaveChat).

(** [`LLM refused to summarize (possible content filter): "${trimmed.slice(0, 120)}..."`] *)
Definition refusalMessage (trimmed : string) : string :=
  "LLM refused to summarize (possible content filter): " ++ dquote
  ++ substring 0 120 trimmed ++ "..." ++ dquote.

(** [summarizeScene] resumed with the value of [generateRaw]. *)
Definition summarizeScene_resolved (env : Env) (ctx : Ctx) (sceneId : string)
    (aborted : bool) (attempt maxAttempts : Z) (sourceIndices : list Z)
    (result : option string) : Ctx * Outcome :=
  if aborted then summarizeScene_catch ctx sceneId AbortError
  else
    let trimmed := trim (default "" result) in
    if truthy_opt result && (0 <? String.length trimmed)%nat then
      if (String.length trimmed <? 200)%nat && refusalPattern trimmed then
        summarizeScene_catch ctx sceneId (newError (refusalMessage trimmed))
      else summarizeScene_complete env ctx sceneId sourceIndices trimmed
    else
      afterAttempt ctx sceneId
        (enterAttempt aborted (attempt + 1) maxAttempts sourceIndices).

(** [summarizeScene] resumed with the error [generateRaw] threw. *)
Definition summarizeScene_rejected (ctx : Ctx) (sceneId : string)
    (aborted : bool) (attempt maxAttempts : Z) (sourceIndices : list Z)
    (genError : JsError) : Ctx * Outcome :=
  if aborted then summarizeScene_catch ctx sceneId AbortError
  else
    let errMsg := toLowerCase (errorText genError) in
    let nonRetryable := nonRetryablePattern errMsg in
    if nonRetryable || (maxAttempts <=? attempt)%Z then
      summarizeScene_catch ctx sceneId genError
    else
      afterAttempt ctx sceneId
        (enterAttempt aborted (attempt + 1) maxAttempts sourceIndices).

(** The loop of [prepareForRetry] that clears [is_system]. *)
Definition showSources (uuids : list string) (chat : list Message) : list Message :=
  fold_left
    (λ chat uuid,
       let idx := findMessageIndexByUUID chat uuid None in
       if decide (idx = (-1)%Z) then chat else chat_modify idx (set_is_system false) chat)
    uuids chat.

(** [prepareForRetry] up to [await saveChat()]. *)
Definition prepareForRetry (ctx : Ctx) (sceneId : string) : Ctx * Outcome :=
  let '(chatMetadata, chat, n) := ctx in
  match getScene chatMetadata sceneId with
  | None => (ctx, Returned)
  | Some scene =>
      let chat1 :=
        match summaryMessageUUID scene with
        | Some summaryUUID =>
            if truthy summaryUUID then
              let summaryIdx := findMessageIndexByUUID chat summaryUUID None in
              if decide (summaryIdx = (-1)%Z) then chat
              else delete (Z.to_nat summaryIdx) chat
            else chat
        | None => chat
        end in
      let chat2 := showSources (sourceMessageUUIDs scene) chat1 in
      (updateScene chatMetadata sceneId
         (λ s, set_stale false (set_lastError None (set_summary None
                 (set_folded false (set_status st_defined s))))),
       chat2, n, Suspended AwaitRetrySave)
  end.

(** The worker given to the queue, up to its first suspension. *)
Definition worker (env : Env) (ctx : Ctx) (sceneId : string) (aborted : bool)
  : Ctx * Outcome :=
  let '(chatMetadata, chat, n) := ctx in
  match getScene chatMetadata sceneId with
  | Some scene =>
      if needsRetry scene then
        let ctx0 := (updateScene chatMetadata sceneId (set_needsRetry false), chat, n) in
        match prepareForRetry ctx0 sceneId with
        | (ctx1, Returned) => summarizeScene_start env ctx1 sceneId aborted
        | r => r
        end
      else summarizeScene_start env ctx sceneId aborted
  | None => summarizeScene_start env ctx sceneId aborted
  end.

(** The worker resumed at [p] by the settling of the call it awaits:
    [answer] is [inl result] for a value and [inr error] for a rejection.
    [None] when [p] awaits nothing or the answer is not of its call's kind
    ([saveChat] resolves with no value, written [inl None]). *)
Definition resumeWorker (env : Env) (ctx : Ctx) (sceneId : string) (aborted : bool)
    (p : Point) (answer : option string + JsError) : option (Ctx * Outcome) :=
  match p, answer with
  | AwaitRetrySave, inl None => Some (summarizeScene_start env ctx sceneId aborted)
  | AwaitRetrySave, inr e => Some (ctx, Threw e)
  | AwaitGenerate attempt maxAttempts sourceIndices, inl result =>
      Some (summarizeScene_resolved env ctx sceneId aborted attempt maxAttempts
              sourceIndices result)
  | AwaitGenerate attempt maxAttempts sourceIndices, inr e =>
      Some (summarizeScene_rejected ctx sceneId aborted attempt maxAttempts
              sourceIndices e)
  | AwaitSaveChat, inl None => Some (ctx, Returned)
  | AwaitSaveChat, inr e => Some (summarizeScene_catch ctx sceneId e)
  | _, _ => None
  end.

Definition pointOf (o : Outcome) : Point :=
  match o with
  | Suspended p => p
  | Returned => Settled None
  | Threw e => Settled (Some e)
  end.

(** ** The summarization queue *)

(** The fields of a [SummarizationQueue]. [_activeAbort] refers to an
    [AbortController] by its position in the list of controllers of the
    [World] below. *)
Record SummarizationQueue := mkQueue {
  _pending : list string;
  _activeId : option string;
  _activeAbort : option nat;
  _processing : bool;
  _batchTotal : nat;
  _batchDone : nat
}.

(** A call of the worker that has not been resumed by [_processNext] yet:
    its scene, its [AbortController], and where it stands. *)
Record Task := mkTask {
  task_sceneId : string;
  task_signal : nat;
  task_point : Point
}.

(** Everything the queue and its worker read and write: the context
    ([SillyTavern.getContext()]), the [aborted] flag of every
    [AbortController] created so far, the queue object, the worker calls
    in flight, and the number of [setTimeout] callbacks not yet fired. *)
Record World := mkWorld {
  w_chatMetadata : ChatMetadata;
  w_chat : list Message;
  w_uuidCounter : nat;
  w_controllers : list bool;
  w_queue : SummarizationQueue;
  w_tasks : list Task;
  w_timers : nat
}.

Definition w_ctx (w : World) : Ctx := (w_chatMetadata w, w_chat w, w_uuidCounter w).

Definition with_ctx (ctx : Ctx) (w : World) : World :=
  mkWorld ctx.1.1 ctx.1.2 ctx.2 (w_controllers w) (w_queue w) (w_tasks w) (w_timers w).
Definition with_metadata (cm : ChatMetadata) (w : World) : World :=
  mkWorld cm (w_chat w) (w_uuidCounter w) (w_controllers w) (w_queue w) (w_tasks w)
          (w_timers w).
Definition with_controllers (cs : list bool) (w : World) : World :=
  mkWorld (w_chatMetadata w) (w_chat w) (w_uuidCounter w) cs (w_queue w) (w_tasks w)
          (w_timers w).
Definition with_queue (q : SummarizationQueue) (w : World) : World :=
  mkWorld (w_chatMetadata w) (w_chat w) (w_uuidCounter w) (w_controllers w) q (w_tasks w)
          (w_timers w).
Definition with_tasks (ts : list Task) (w : World) : World :=
  mkWorld (w_chatMetadata w) (w_chat w) (w_uuidCounter w) (w_controllers w) (w_queue w) ts
          (w_timers w).
Definition with_timers (k : nat) (w : World) : World :=
  mkWorld (w_chatMetadata w) (w_chat w) (w_uuidCounter w) (w_controllers w) (w_queue w)
          (w_tasks w) k.

(** [signal.aborted] of the controller [c]. *)
Definition aborted (w : World) (c : nat) : bool := default false (w_controllers w !! c).

(** [this._activeAbort.abort()], when there is an active controller. *)
Definition abortActive (w : World) : World :=
  match _activeAbort (w_queue w) with
  | Some c => with_controllers (<[c := true]> (w_controllers w)) w
  | None => w
  end.

(** [if (scene && scene.status === 'queued') updateScene(..., { status: 'defined' })] *)
Definition revertQueued (cm : ChatMetadata) (sceneId : string) : ChatMetadata :=
  match getScene cm sceneId with
  | Some scene =>
      if bool_decide (status scene = st_queued)
      then updateScene cm sceneId (set_status st_defined) else cm
  | None => cm
  end.

(** [_processNext()] up to [await this._worker(...)]: the worker it
    starts runs to its first suspension within the same call. *)
Definition _processNext (env : Env) (w : World) : World :=
  let q := w_queue w in
  match _pending q with
  | [] => with_queue (mkQueue (_pending q) None None false 0 0) w
  | sceneId :: rest =>
      let c := length (w_controllers w) in
      let w1 :=
        with_controllers (w_controllers w ++ [false])
          (with_queue (mkQueue rest (Some sceneId) (Some c) true
                         (_batchTotal q) (_batchDone q)) w) in
      let '(ctx, outcome) := worker env (w_ctx w1) sceneId false in
      with_tasks (w_tasks w1 ++ [mkTask sceneId c (pointOf outcome)]) (with_ctx ctx w1)
  end.

(** The [catch (err)] block around [await this._worker(...)]; [None]
    when the worker returned. *)
Definition _processNext_catch (cm : ChatMetadata) (sceneId : string)
    (error : option JsError) : ChatMetadata :=
  match error with
  | Some err =>
      if isAbortError err then
        match getScene cm sceneId with
        | Some scene =>
            if bool_decide (status scene = st_summarizing)
            then updateScene cm sceneId
                   (λ s, set_lastError None (set_status st_defined s))
            else cm
        | None => cm
        end
      else cm
  | None => cm
  end.

(** [_processNext()] after [await this._worker(...)], for the call
    [task] whose worker returned ([None]) or threw. *)
Definition _processNext_resume (w : World) (task : Task) (error : option JsError)
  : World :=
  let sceneId := task_sceneId task in
  let cm := _processNext_catch (w_chatMetadata w) sceneId error in
  let q := w_queue w in
  with_timers (S (w_timers w))
    (with_queue (mkQueue (_pending q) None None (_processing q)
                   (_batchTotal q) (S (_batchDone q)))
       (with_metadata cm w)).

(** [add(sceneId)] *)
Definition add (env : Env) (w : World) (sceneId : string) : World :=
  let q := w_queue w in
  if bool_decide (sceneId ∈ _pending q) || bool_decide (_activeId q = Some sceneId)
  then w
  else
    let w1 :=
      with_metadata (updateScene (w_chatMetadata w) sceneId (set_status st_queued))
        (with_queue (mkQueue (_pending q ++ [sceneId]) (_activeId q) (_activeAbort q)
                       (_processing q) (S (_batchTotal q)) (_batchDone q)) w) in
    if negb (_processing q) then _processNext env w1 else w1.

(** [addAll(sceneIds)] *)
Definition addAll (env : Env) (w : World) (sceneIds : list string) : World :=
  let q := w_queue w in
  let w1 :=
    with_queue (mkQueue (_pending q) (_activeId q) (_activeAbort q) (_processing q)
                  (length (_pending q) + (if truthy_opt (_activeId q) then 1 else 0)) 0) w in
  fold_left (add env) sceneIds w1.

(** [this._pending.splice(idx, 1)] for [idx = indexOf(sceneId)]. *)
Fixpoint removeFirst (x : string) (l : list string) : list string :=
  match l with
  | [] => []
  | y :: rest => if decide (y = x) then rest else y :: removeFirst x rest
  end.

(** [cancel(sceneId)] *)
Definition cancel (w : World) (sceneId : string) : World :=
  let q := w_queue w in
  if bool_decide (sceneId ∈ _pending q) then
    with_metadata (revertQueued (w_chatMetadata w) sceneId)
      (with_queue (mkQueue (removeFirst sceneId (_pending q)) (_activeId q)
                     (_activeAbort q) (_processing q) (_batchTotal q)
                     (S (_batchDone q))) w)
  else if bool_decide (_activeId q = Some sceneId) then abortActive w
  else w.

(** [cancelAll()] *)
Definition cancelAll (w : World) : World :=
  let w1 := abortActive w in
  let q := w_queue w1 in
  with_metadata (fold_left revertQueued (_pending q) (w_chatMetadata w1))
    (with_queue (mkQueue [] (_activeId q) (_activeAbort q) (_processing q) 0 0) w1).

(** ** Events

    JavaScript runs one task at a time: a call into the queue from a
    handler, the settling of an awaited external call, or a timer. After
    the synchronous code of the task, the promise reactions it enabled run
    ([drain]): every worker call that has settled lets its [_processNext]
    continue. *)

Definition drainTask (st : World * list Task) (task : Task) : World * list Task :=
  let '(w, kept) := st in
  match task_point task with
  | Settled error => (_processNext_resume w task error, kept)
  | _ => (w, kept ++ [task])
  end.

Definition drain (w : World) : World :=
  let '(w', kept) := fold_left drainTask (w_tasks w) (w, []) in
  with_tasks kept w'.

Inductive Event : Type :=
  | EvAdd (sceneId : string)
  | EvAddAll (sceneIds : list string)
  | EvCancel (sceneId : string)
  | EvCancelAll
  | EvSettle (task : nat) (answer : option string + JsError)
      (* the call awaited by the worker call number [task] settles *)
  | EvTimer.
      (* a setTimeout(() => this._processNext(), 100) fires *)

(** The worker call at position [i] of the list resumed with [answer]. *)
Definition settle (env : Env) (w : World) (i : nat) (answer : option string + JsError)
  : option World :=
  match w_tasks w !! i with
  | Some task =>
      match resumeWorker env (w_ctx w) (task_sceneId task)
              (aborted w (task_signal task)) (task_point task) answer with
      | Some (ctx, outcome) =>
          Some (with_tasks
                  (<[i := mkTask (task_sceneId task) (task_signal task) (pointOf outcome)]>
                     (w_tasks w))
                  (with_ctx ctx w))
      | None => None
      end
  | None => None
  end.

(** One task of the event loop; [None] when the event cannot occur in
    [w]. *)
Definition step (env : Env) (w : World) (ev : Event) : option World :=
  match ev with
  | EvAdd sceneId => Some (drain (add env w sceneId))
  | EvAddAll sceneIds => Some (drain (addAll env w sceneIds))
  | EvCancel sceneId => Some (drain (cancel w sceneId))
  | EvCancelAll => Some (drain (cancelAll w))
  | EvSettle i answer => drain <$> settle env w i answer
  | EvTimer =>
      match w_timers w with
      | O => None
      | S k => Some (drain (_processNext env (with_timers k w)))
      end
  end.

(** A run of events. *)
Fixpoint run (env : Env) (w : World) (evs : list Event) : option World :=
  match evs with
  | [] => Some w
  | ev :: rest =>
      match step env w ev with
      | Some w' => run env w' rest
      | None => None
      end
  end.

(** [new SummarizationQueue({ worker, onUpdate })] *)
Definition newQueue : SummarizationQueue := mkQueue [] None None false 0 0.

(** A freshly loaded chat with its queue. *)
Definition initialWorld (cm : ChatMetadata) (chat : list Message) (n : nat) : World :=
  mkWorld cm chat n [] newQueue [] 0.

(** [get progress()] *)
Record Progress := mkProgress {
  current : nat;
  total : nat;
  activeId : option string;
  pendingCount : nat
}.

Definition progress (q : SummarizationQueue) : Progress :=
  mkProgress (_batchDone q + 1) (_batchTotal q) (_activeId q) (length (_pending q)).

(** ** Further functions of the data model *)

(** What [deleteScene] does to a source message: the scene leaves its
    tags, and a message left with no tag loses the tag list and its role.
    An array, even an empty one, is truthy. *)
Definition untagMessage (sceneId : string) (m : Message) : Message :=
  match extra m with
  | Some e =>
      match scene_fold_scenes e with
      | Some tags =>
          let tags' := filter (λ id, id ≠ sceneId) tags in
          if (length tags' =? 0)%nat
          then set_extra (Some (set_role None (set_scenes None e))) m
          else set_extra (Some (set_scenes (Some tags') e)) m
      | None => m
      end
  | None => m
  end.

(** The loop of [deleteScene] over the sources of the scene. *)
Definition untagSources (sceneId : string) (uuids : list string) (chat : Chat) : Chat :=
  fold_left
    (λ chat uuid,
       let idx := findMessageIndexByUUID chat uuid None in
       if decide (idx = (-1)%Z) then chat else chat_modify idx (untagMessage sceneId) chat)
    uuids chat.

(** [deleteScene(chatMetadata, chat, sceneId)] *)
Definition deleteScene (chatMetadata : ChatMetadata) (chat : Chat) (sceneId : string)
  : ChatMetadata * Chat :=
  let data := getSceneFoldData chatMetadata in
  match obj_get sceneId (scenes data) with
  | None => (with_scenes data (scenes data), chat)
  | Some scene =>
      (with_scenes data (obj_delete sceneId (scenes data)),
       untagSources sceneId (sourceMessageUUIDs scene) chat)
  end.

(** [Object.values(o)] *)
Definition values {A} (o : Obj A) : list A := o.*2.

(** The fallback loop of [findMessageIndexByUUID] when the identifier
    passed is [undefined]: [=== undefined] holds of a message without
    identifier. *)
Fixpoint linearScanUndefined (i : nat) (chat : Chat) : Z :=
  match chat with
  | [] => (-1)%Z
  | m :: rest =>
      if decide (msg_uuid m = None) then Z.of_nat i
      else linearScanUndefined (S i) rest
  end.

(** [findMessageIndexByUUID(chat, scene.sourceMessageUUIDs[0])]: the
    first element of an empty array is [undefined]. *)
Definition firstSourcePosition (chat : Chat) (scene : Scene) : Z :=
  match sourceMessageUUIDs scene with
  | uuid :: _ => findMessageIndexByUUID chat uuid None
  | [] => linearScanUndefined 0 chat
  end.

(** [Array.prototype.sort] is stable, and the comparator of
    [getScenesInOrder] compares two keys: the result is the stable sort
    by key, written as an insertion sort. [insertByKey] puts [x] in front
    of the first element whose key is not smaller. *)
Fixpoint insertByKey {A} (key : A → Z) (x : A) (l : list A) : list A :=
  match l with
  | [] => [x]
  | y :: rest =>
      if (key x <=? key y)%Z then x :: y :: rest
      else y :: insertByKey key x rest
  end.

Definition sortByKey {A} (key : A → Z) (l : list A) : list A :=
  foldr (insertByKey key) [] l.

(** [getScenesInOrder(chatMetadata, chat)] *)
Definition getScenesInOrder (chatMetadata : ChatMetadata) (chat : Chat) : list Scene :=
  let data := getSceneFoldData chatMetadata in
  sortByKey (firstSourcePosition chat) (values (scenes data)).

(** [if (idx > maxIndex) maxIndex = idx] *)
Definition raiseTo (maxIndex idx : Z) : Z :=
  if (maxIndex <? idx)%Z then idx else maxIndex.

(** The body of the loop of [getAutoStartIndex] over the scenes. *)
Definition lastSceneMessage (chat : Chat) (maxIndex : Z) (scene : Scene) : Z :=
  let maxIndex1 :=
    fold_left (λ mx uuid, raiseTo mx (findMessageIndexByUUID chat uuid None))
              (sourceMessageUUIDs scene) maxIndex in
  match summaryMessageUUID scene with
  | Some summaryUUID =>
      if truthy summaryUUID
      then raiseTo maxIndex1 (findMessageIndexByUUID chat summaryUUID None)
      else maxIndex1
  | None => maxIndex1
  end.

(** [getAutoStartIndex(chatMetadata, chat)] *)
Definition getAutoStartIndex (chatMetadata : ChatMetadata) (chat : Chat) : Z :=
  let data := getSceneFoldData chatMetadata in
  let allScenes := values (scenes data) in
  if (length allScenes =? 0)%nat then 0%Z
  else
    let maxIndex := fold_left (lastSceneMessage chat) allScenes (-1)%Z in
    if (0 <=? maxIndex)%Z then (maxIndex + 1)%Z else 0%Z.

(** ** Handlers of host events and commands *)

(** The loop of [onChatChanged] over [Object.values(data.scenes)]: a
    scene found [summarizing] or [queued] after a chat load is put in
    [error], keeping an error text it already has. *)
Definition resetStuck (scene : Scene) : Scene :=
  if bool_decide (status scene = st_summarizing) || bool_decide (status scene = st_queued)
  then
    set_lastError
      (if truthy_opt (lastError scene) then lastError scene
       else Some "Interrupted — scene was still in progress when chat reloaded")
      (set_status st_error scene)
  else scene.

(** [onChatChanged], the part that writes the metadata; it reads
    [chatMetadata.scene_fold] without creating it. *)
Definition resetStuckScenes (chatMetadata : ChatMetadata) : ChatMetadata :=
  match scene_fold chatMetadata with
  | Some data => mkChatMetadata (Some (mkData (prod_map id resetStuck <$> scenes data)
                                              (settings data)))
  | None => chatMetadata
  end.

(** The body of the loop of [onMessageSwiped]. *)
Definition markStale (scene : Scene) : Scene :=
  if bool_decide (status scene = st_completed) && negb (stale scene)
  then set_stale true scene else scene.

(** [onMessageSwiped(mesId)], on the metadata; [enabled] is
    [settings.enabled]. *)
Definition onMessageSwiped (enabled : bool) (chatMetadata : ChatMetadata) (chat : Chat)
    (mesId : Z) : ChatMetadata :=
  if negb enabled then chatMetadata
  else
    match chat_at chat mesId with
    | Some msg =>
        match extra msg with
        | Some e =>
            match scene_fold_scenes e with
            | Some sceneIds =>
                let data := getSceneFoldData chatMetadata in
                with_scenes data
                  (fold_left (λ o sceneId, obj_update sceneId markStale o) sceneIds
                     (scenes data))
            | None => chatMetadata
            end
        | None => chatMetadata
        end
    | None => chatMetadata
    end.

(** [toggleFold(context, sceneId)], on the metadata. *)
Definition toggleFold (chatMetadata : ChatMetadata) (sceneId : string) : ChatMetadata :=
  let data := getSceneFoldData chatMetadata in
  match obj_get sceneId (scenes data) with
  | Some scene =>
      if bool_decide (status scene = st_completed)
      then with_scenes data
             (obj_update sceneId (λ s, set_folded (negb (folded s)) s) (scenes data))
      else with_scenes data (scenes data)
  | None => with_scenes data (scenes data)
  end.

(** The loop of [slashSceneExpand] for the argument [all] ([folded] is
    [false]) and of [slashSceneCollapse] ([folded] is [true]): every
    completed scene in the other state is switched and counted. *)
Definition setFoldAll (target : bool) (chatMetadata : ChatMetadata) : nat * ChatMetadata :=
  let data := getSceneFoldData chatMetadata in
  let hit (scene : Scene) :=
    bool_decide (status scene = st_completed) && negb (eqb (folded scene) target) in
  (length (filter (λ p, hit p.2 = true) (scenes data)),
   with_scenes data
     (prod_map id (λ scene, if hit scene then set_folded target scene else scene)
        <$> scenes data)).

(** [has(sceneId)] *)
Definition has (q : SummarizationQueue) (sceneId : string) : bool :=
  bool_decide (sceneId ∈ _pending q) || bool_decide (_activeId q = Some sceneId).

(** ** Selection mode

    The module variables of the selection mode. A message index is the
    [mesid] of a message element, an integer. *)
Record Selection := mkSelection {
  selectionModeActive : bool;
  selectionStart : option Z;
  selectionEnd : option Z;
  autoStartIndex : option Z;
  autoStartOverridden : bool
}.

(** [if (start !== null && end !== null && start > end) [start, end] = [end, start]] *)
Definition normalizeSelection (s : Selection) : Selection :=
  match selectionStart s, selectionEnd s with
  | Some a, Some b =>
      if (b <? a)%Z
      then mkSelection (selectionModeActive s) (Some b) (Some a)
             (autoStartIndex s) (autoStartOverridden s)
      else s
  | _, _ => s
  end.

(** [handleMessageClick(messageId, shiftKey, context)] *)
Definition handleMessageClick (s : Selection) (messageId : Z) (shiftKey : bool)
  : Selection :=
  if negb (selectionModeActive s) then s
  else
    let s1 :=
      if bool_decide (selectionStart s = None) || shiftKey then
        if bool_decide (selectionStart s ≠ None) && bool_decide (selectionEnd s ≠ None)
           && shiftKey
        then mkSelection (selectionModeActive s) (selectionStart s) (Some messageId)
               (autoStartIndex s) (autoStartOverridden s)
        else mkSelection (selectionModeActive s) (Some messageId) (Some messageId)
               (autoStartIndex s) true
      else mkSelection (selectionModeActive s) (selectionStart s) (Some messageId)
             (autoStartIndex s) (autoStartOverridden s) in
    normalizeSelection s1.

(** [exitSelectionMode()] *)
Definition exitSelectionMode : Selection := mkSelection false None None None false.

(** [enterSelectionMode(context, settings)]; [smartAutoStart] is the
    setting of that name. *)
Definition enterSelectionMode (s : Selection) (smartAutoStart : bool)
    (chatMetadata : ChatMetadata) (chat : Chat) : Selection :=
  if smartAutoStart then
    let a := getAutoStartIndex chatMetadata chat in
    mkSelection (selectionModeActive s) (Some a) (Some (Z.of_nat (length chat) - 1)%Z)
      (Some a) false
  else mkSelection (selectionModeActive s) None None None false.

(** [toggleSelectionMode(context, settings)] *)
Definition toggleSelectionMode (s : Selection) (smartAutoStart : bool)
    (chatMetadata : ChatMetadata) (chat : Chat) : Selection :=
  let active := negb (selectionModeActive s) in
  if active then
    enterSelectionMode
      (mkSelection active (selectionStart s) (selectionEnd s) (autoStartIndex s)
         (autoStartOverridden s))
      smartAutoStart chatMetadata chat
  else exitSelectionMode.

(* ===================================================================== *)
(** * Part II. Properties                                                 *)
(* ===================================================================== *)

(** ** Resolution of identifiers *)

Section Resolution.
Implicit Types (chat : Chat) (uuid : string) (index : gmap string nat).

Lemma linearScan_bounds chat uuid i :
linearScan i chat uuid = (-1)%Z ∨
(Z.of_nat i ≤ linearScan i chat uuid < Z.of_nat (i + length chat))%Z.
Proof.
revert i. induction chat as [|m rest IH]; intros i; simpl; [by left|].
case_decide; [right; lia|].
destruct (IH (S i)) as [->|?]; [by left|right; lia].
Qed.

(** The scan returns [-1] exactly when no message holds the identifier. *)
Lemma linearScan_none chat uuid i :
linearScan i chat uuid = (-1)%Z ↔ ∀ k, uuid_at chat k ≠ Some uuid.
Proof.
revert i. induction chat as [|m rest IH]; intros i; simpl.
- split; [|done]. intros _ k. unfold uuid_at. by rewrite lookup_nil.
- case_decide as Hm.
  + split; [lia|]. intros H. by specialize (H 0%nat).
  + rewrite IH. split.
    * intros H [|k]; [done|]. apply (H k).
    * intros H k. apply (H (S k)).
Qed.

(** Otherwise it returns the first position holding it. *)
Lemma linearScan_first chat uuid i k :
uuid_at chat k = Some uuid →
(∀ j, (j < k)%nat → uuid_at chat j ≠ Some uuid) →
linearScan i chat uuid = Z.of_nat (i + k).
Proof.
revert i k. induction chat as [|m rest IH]; intros i k Hk Hlt.
- unfold uuid_at in Hk. by rewrite lookup_nil in Hk.
- simpl. case_decide as Hm.
  + destruct k as [|k]; [f_equal; lia|].
    exfalso. by apply (Hlt 0%nat); [lia|].
  + destruct k as [|k]; [done|].
    rewrite (IH (S i) k); [f_equal; lia|done|].
    intros j Hj. apply (Hlt (S j)). lia.
Qed.

Lemma linearScan_found chat uuid i :
linearScan i chat uuid ≠ (-1)%Z →
∃ k, linearScan i chat uuid = Z.of_nat (i + k) ∧ uuid_at chat k = Some uuid
     ∧ ∀ j, (j < k)%nat → uuid_at chat j ≠ Some uuid.
Proof.
revert i. induction chat as [|m rest IH]; intros i; simpl; [done|].
case_decide as Hm.
- intros _. exists 0%nat. split_and!; [f_equal; lia|done|lia].
- intros H. destruct (IH (S i) H) as (k & Hk & Hu & Hlt).
  exists (S k). split_and!; [rewrite Hk; f_equal; lia|done|].
  intros [|j] Hj; [done|]. apply Hlt. lia.
Qed.

(** Every entry of the index built from [chat] points at a message that
  holds the key. *)
Lemma buildUUIDIndex_loop_lookup chat index i uuid idx :
buildUUIDIndex_loop i chat index !! uuid = Some idx →
index !! uuid = Some idx ∨
∃ k, idx = (i + k)%nat ∧ uuid_at chat k = Some uuid.
Proof.
revert i index. induction chat as [|m rest IH]; intros i index; simpl; [by left|].
intros H. apply IH in H as [H|(k & -> & Hk)].
- destruct (msg_uuid m) as [u|] eqn:Hu; [|by left].
  destruct (truthy u); [|by left].
  destruct (decide (u = uuid)) as [->|Hne].
  + rewrite lookup_insert_eq in H. injection H as <-.
    right. exists 0%nat. split; [lia|done].
  + rewrite lookup_insert_ne in H; [|done]. by left.
- right. exists (S k). split; [lia|done].
Qed.

Lemma buildUUIDIndex_lookup chat uuid idx :
buildUUIDIndex chat !! uuid = Some idx → uuid_at chat idx = Some uuid.
Proof.
intros H. apply buildUUIDIndex_loop_lookup in H as [H|(k & -> & Hk)]; [|done].
by rewrite lookup_empty in H.
Qed.

(** Whatever the cache, an identifier is found exactly when some
  message holds it. *)
Lemma findMessageIndexByUUID_none chat uuid uuidIndex :
findMessageIndexByUUID chat uuid uuidIndex = (-1)%Z ↔
∀ k, uuid_at chat k ≠ Some uuid.
Proof.
unfold findMessageIndexByUUID.
destruct (uuidIndex ≫= _) as [idx|]; [|apply linearScan_none].
case_decide as Hv; [|apply linearScan_none].
split; [lia|]. intros H. by specialize (H idx).
Qed.

(** A returned position holds the identifier. *)
Lemma findMessageIndexByUUID_found chat uuid uuidIndex :
findMessageIndexByUUID chat uuid uuidIndex ≠ (-1)%Z →
∃ k, findMessageIndexByUUID chat uuid uuidIndex = Z.of_nat k
     ∧ uuid_at chat k = Some uuid.
Proof.
unfold findMessageIndexByUUID.
destruct (uuidIndex ≫= _) as [idx|].
- case_decide as Hv; [by exists idx|].
  intros H. apply linearScan_found in H as (k & ? & ? & _). by exists k.
- intros H. apply linearScan_found in H as (k & ? & ? & _). by exists k.
Qed.
End Resolution.

(** ** C7: resolution through the index and by the scan *)

(** A chat in which a cloned message still carries the identifier of its
    source. *)
Definition plainMessage (uuid : string) : Message :=
  mkMessage None false false "" (Some (mkExtra (Some uuid) None None None None)).

Definition clonedChat : Chat := [plainMessage "a"; plainMessage "a"].

(** C7, as stated, fails: on a chat where two messages share an
    identifier the index holds the last position and the scan returns the
    first. *)
Lemma C7_cached_differs_on_duplicate :
  findMessageIndexByUUID clonedChat "a" (Some (buildUUIDIndex clonedChat)) = 1%Z ∧
  findMessageIndexByUUID clonedChat "a" None = 0%Z ∧
  ¬ (∀ (chat : Chat) (uuid : string),
       findMessageIndexByUUID chat uuid (Some (buildUUIDIndex chat))
       = findMessageIndexByUUID chat uuid None).
Proof.
  assert (H1 : findMessageIndexByUUID clonedChat "a" (Some (buildUUIDIndex clonedChat)) = 1%Z)
    by (vm_compute; reflexivity).
  assert (H0 : findMessageIndexByUUID clonedChat "a" None = 0%Z)
    by (vm_compute; reflexivity).
  split_and!; [done|done|].
  intros H. specialize (H clonedChat "a"). rewrite H1, H0 in H. discriminate.
Qed.

(** C7 (amended): when at most one message of the chat holds the
    identifier, resolving it through the index built by [buildUUIDIndex]
    returns the same position as the full scan. *)
Theorem C7_cached_agrees_when_unique (chat : Chat) (uuid : string) :
  (∀ i j, uuid_at chat i = Some uuid → uuid_at chat j = Some uuid → i = j) →
  findMessageIndexByUUID chat uuid (Some (buildUUIDIndex chat))
  = findMessageIndexByUUID chat uuid None.
Proof.
  intros Huniq. unfold findMessageIndexByUUID. simpl.
  destruct (buildUUIDIndex chat !! uuid) as [idx|] eqn:Hidx; [|done].
  pose proof (buildUUIDIndex_lookup _ _ _ Hidx) as Hat.
  rewrite decide_True by done.
  symmetry. rewrite (linearScan_first chat uuid 0 idx Hat); [done|].
  intros j Hj Hj'. specialize (Huniq _ _ Hj' Hat). lia.
Qed.

Lemma C7_cached_agrees_when_unique_witness :
  findMessageIndexByUUID [plainMessage "a"; plainMessage "b"] "b"
    (Some (buildUUIDIndex [plainMessage "a"; plainMessage "b"]))
  = findMessageIndexByUUID [plainMessage "a"; plainMessage "b"] "b" None.
Proof.
  apply (C7_cached_agrees_when_unique [plainMessage "a"; plainMessage "b"] "b").
  intros [|[|[|i]]] [|[|[|j]]]; vm_compute; congruence.
Defined.

(** ** Deletion reconciliation: what one pass does to each scene *)

(** The identifiers held by the messages of a chat, position by position.
    Deletion reconciliation never changes them. *)
Definition uuids (chat : Chat) : list (option string) := msg_uuid <$> chat.

(** The sources of a scene that resolve in [chat]. *)
Definition validSourcesOf (chat : Chat) (scene : Scene) : list string :=
  filter (λ uuid, findMessageIndexByUUID chat uuid None ≠ (-1)%Z)
         (sourceMessageUUIDs scene).

(** The scene has a summary identifier that does not resolve in [chat]. *)
Definition summaryGone (chat : Chat) (scene : Scene) : bool :=
  match summaryMessageUUID scene with
  | Some summaryUUID =>
      truthy summaryUUID &&
      bool_decide (findMessageIndexByUUID chat summaryUUID None = (-1)%Z)
  | None => false
  end.

Definition sourcesTrimmed (chat : Chat) (scene : Scene) : bool :=
  negb (length (validSourcesOf chat scene) =? length (sourceMessageUUIDs scene))%nat.

Definition isDeleted (chat : Chat) (entry : string * Scene) : bool :=
  (length (validSourcesOf chat entry.2) =? 0)%nat.

Definition isSummaryLost (chat : Chat) (entry : string * Scene) : bool :=
  negb (isDeleted chat entry) && summaryGone chat entry.2.

Definition isModified (chat : Chat) (entry : string * Scene) : bool :=
  negb (isDeleted chat entry) && (sourcesTrimmed chat entry.2 || summaryGone chat entry.2).

(** What a pass leaves of one scene: nothing, or the scene with its
    sources trimmed and, if its summary is gone, reset. *)
Definition sceneOutcome (chat : Chat) (scene : Scene) : option Scene :=
  if (length (validSourcesOf chat scene) =? 0)%nat then None
  else
    let scene1 := if sourcesTrimmed chat scene
                  then set_sources (validSourcesOf chat scene) scene else scene in
    Some (if summaryGone chat scene then resetLostSummary scene1 else scene1).

Definition reconciledEntry (chat : Chat) (entry : string * Scene)
  : option (string * Scene) :=
  (λ scene, (entry.1, scene)) <$> sceneOutcome chat entry.2.

Section ObjLemmas.
Context {A : Type}.
Implicit Types (o pre rest : Obj A) (k : string).

Lemma obj_get_app_notin k pre o :
k ∉ keys pre → obj_get k (pre ++ o) = obj_get k o.
Proof.
induction pre as [|[k' v'] pre IH]; simpl; [done|].
intros [Hne Hnot]%not_elem_of_cons. rewrite decide_False by done. by apply IH.
Qed.

Lemma obj_get_head k (v : A) o : obj_get k ((k, v) :: o) = Some v.
Proof. simpl. by rewrite decide_True. Qed.

Lemma obj_set_app_notin k (v : A) pre o :
k ∉ keys pre → obj_set k v (pre ++ o) = pre ++ obj_set k v o.
Proof.
induction pre as [|[k' v'] pre IH]; simpl; [done|].
intros [Hne Hnot]%not_elem_of_cons. rewrite decide_False by done.
by rewrite IH.
Qed.

Lemma obj_update_middle k (f : A → A) (v : A) pre rest :
k ∉ keys pre →
obj_update k f (pre ++ (k, v) :: rest) = pre ++ (k, f v) :: rest.
Proof.
intros Hnot. unfold obj_update.
rewrite obj_get_app_notin, obj_get_head by done.
rewrite obj_set_app_notin by done. simpl. by rewrite decide_True.
Qed.

Lemma obj_delete_notin k o : k ∉ keys o → obj_delete k o = o.
Proof.
induction o as [|[k' v'] o IH]; [done|].
intros [Hne Hnot]%not_elem_of_cons. simpl in Hne. unfold obj_delete.
rewrite filter_cons_True by (simpl; congruence). f_equal. by apply IH.
Qed.

Lemma obj_delete_middle k (v : A) pre rest :
k ∉ keys pre → k ∉ keys rest →
obj_delete k (pre ++ (k, v) :: rest) = pre ++ rest.
Proof.
intros Hpre Hrest. unfold obj_delete.
rewrite filter_app, filter_cons_False by (simpl; tauto).
fold (obj_delete k pre). fold (obj_delete k rest).
by rewrite !obj_delete_notin.
Qed.

Lemma obj_get_Some_elem k (v : A) o : obj_get k o = Some v → (k, v) ∈ o.
Proof.
induction o as [|[k' v'] o IH]; simpl; [done|].
case_decide as Hk.
- intros [= ->]. subst. apply list_elem_of_here.
- intros H. apply list_elem_of_further. by apply IH.
Qed.

Lemma obj_get_elem k (v : A) o : NoDup (keys o) → (k, v) ∈ o → obj_get k o = Some v.
Proof.
induction o as [|[k' v'] o IH]; simpl.
- intros _ H. by apply not_elem_of_nil in H.
- intros [Hnot Hnd]%NoDup_cons [[= -> ->]|Hin]%elem_of_cons.
  + by rewrite decide_True.
  + rewrite decide_False; [by apply IH|].
    intros ->. apply Hnot. apply list_elem_of_fmap. by exists (k, v).
Qed.

Lemma obj_get_None k o : obj_get k o = None ↔ k ∉ keys o.
Proof.
induction o as [|[k' v'] o IH]; simpl.
- split; [intros _; apply not_elem_of_nil|done].
- case_decide as Hk.
  + subst. split; [done|]. intros H. exfalso. apply H, list_elem_of_here.
  + rewrite IH, not_elem_of_cons. simpl. split; [intros; split; [congruence|done]|tauto].
Qed.
End ObjLemmas.

Section UuidsPreserved.
Implicit Types (chat : Chat) (uuid : string).

Lemma uuid_at_uuids chat k : uuid_at chat k = uuids chat !! k ≫= id.
Proof.
unfold uuid_at, uuids. rewrite list_lookup_fmap.
by destruct (chat !! k).
Qed.

Lemma uuid_at_ext chat1 chat2 k :
uuids chat1 = uuids chat2 → uuid_at chat1 k = uuid_at chat2 k.
Proof. intros H. by rewrite !uuid_at_uuids, H. Qed.

(** Whether an identifier resolves depends only on the identifiers the
  messages hold, not on the cache consulted. *)
Lemma resolves_ext chat1 chat2 uuid ix1 ix2 :
uuids chat1 = uuids chat2 →
findMessageIndexByUUID chat1 uuid ix1 = (-1)%Z ↔
findMessageIndexByUUID chat2 uuid ix2 = (-1)%Z.
Proof.
intros H. rewrite !findMessageIndexByUUID_none.
split; intros Hn k; [rewrite <- (uuid_at_ext _ _ k H)|rewrite (uuid_at_ext _ _ k H)];
  apply Hn.
Qed.

Lemma validSources_ext chat chat0 ix (l : list string) :
uuids chat = uuids chat0 →
filter (λ uuid, findMessageIndexByUUID chat uuid (Some ix) ≠ (-1)%Z) l
= filter (λ uuid, findMessageIndexByUUID chat0 uuid None ≠ (-1)%Z) l.
Proof.
intros H. apply list_filter_iff. intros u.
by rewrite (resolves_ext chat chat0 u (Some ix) None H).
Qed.

Lemma uuids_chat_modify idx f chat :
(∀ m, msg_uuid (f m) = msg_uuid m) →
uuids (chat_modify idx f chat) = uuids chat.
Proof.
intros Hf. unfold chat_modify, uuids. destruct (idx <? 0)%Z; [done|].
rewrite (list_fmap_alter msg_uuid f id) by (apply Forall_forall; intros; apply Hf).
by apply list_alter_id.
Qed.

Lemma msg_uuid_clearSummaryTags m : msg_uuid (clearSummaryTags m) = msg_uuid m.
Proof.
unfold clearSummaryTags, msg_uuid.
destruct (extra m) as [e|] eqn:He; simpl; [done|by rewrite He].
Qed.

Lemma uuids_unhideSources ix l chat :
uuids (unhideSources ix l chat) = uuids chat.
Proof.
unfold unhideSources. revert chat.
induction l as [|u l IH]; intros chat; simpl; [done|].
rewrite IH. case_decide; [|done]. by apply uuids_chat_modify.
Qed.

Lemma filter_length_eq {A} (P : A → Prop) `{∀ x, Decision (P x)} (l : list A) :
length (filter P l) = length l → filter P l = l.
Proof.
induction l as [|x l IH]; [done|].
rewrite filter_cons. case_decide; simpl.
- intros [= Hl]. f_equal. by apply IH.
- intros Hl. pose proof (length_filter P l). lia.
Qed.
End UuidsPreserved.

Section ReconcileStep.
Variables (chat0 : Chat) (ix : gmap string nat).

Lemma summaryMessageUUID_trim b l scene :
summaryMessageUUID (if b : bool then set_sources l scene else scene)
= summaryMessageUUID scene.
Proof. by destruct b. Qed.

Lemma sourceMessageUUIDs_trim chat scene :
sourceMessageUUIDs
  (if sourcesTrimmed chat scene
   then set_sources (validSourcesOf chat scene) scene else scene)
= validSourcesOf chat scene.
Proof.
unfold sourcesTrimmed.
destruct (length _ =? length _)%nat eqn:Hlen; simpl; [|done].
apply Nat.eqb_eq in Hlen. symmetry. by apply filter_length_eq.
Qed.

Lemma lost_ext chat scene :
uuids chat = uuids chat0 →
match summaryMessageUUID scene with
| Some summaryUUID =>
    truthy summaryUUID &&
    bool_decide (findMessageIndexByUUID chat summaryUUID (Some ix) = (-1)%Z)
| None => false
end = summaryGone chat0 scene.
Proof.
intros H. unfold summaryGone. destruct (summaryMessageUUID scene) as [u|]; [|done].
f_equal. apply bool_decide_ext. by apply resolves_ext.
Qed.

(** One iteration of the loop, on a store whose entry for [k] has not
  been visited yet. *)
Lemma reconcileScene_spec pre rest k scene chat res :
k ∉ keys pre → k ∉ keys rest → k ∉ deletedScenes res →
uuids chat = uuids chat0 →
∃ chat',
  reconcileScene ix (pre ++ (k, scene) :: rest, chat, res) (k, scene)
  = (pre ++ option_list (reconciledEntry chat0 (k, scene)) ++ rest, chat',
     mkResult
       (modifiedScenes res ++ (if isModified chat0 (k, scene) then [k] else []))
       (deletedScenes res ++ (if isDeleted chat0 (k, scene) then [k] else []))
       (summaryLost res ++ (if isSummaryLost chat0 (k, scene) then [k] else [])))
  ∧ uuids chat' = uuids chat0
  ∧ (isDeleted chat0 (k, scene) = false → summaryGone chat0 scene = false →
     chat' = chat).
Proof.
intros Hpre Hrest Hdel Hu.
unfold reconcileScene.
rewrite (validSources_ext chat chat0 ix _ Hu).
fold (validSourcesOf chat0 scene). fold (sourcesTrimmed chat0 scene).
rewrite summaryMessageUUID_trim, (lost_ext chat scene Hu).
rewrite sourceMessageUUIDs_trim.
unfold reconciledEntry, sceneOutcome, isModified, isSummaryLost, isDeleted. simpl.
assert (Ho1 :
  (if sourcesTrimmed chat0 scene
   then obj_update k (set_sources (validSourcesOf chat0 scene))
          (pre ++ (k, scene) :: rest)
   else pre ++ (k, scene) :: rest)
  = pre ++ (k, if sourcesTrimmed chat0 scene
               then set_sources (validSourcesOf chat0 scene) scene else scene)
        :: rest).
{ destruct (sourcesTrimmed chat0 scene); [|done]. by apply obj_update_middle. }
rewrite Ho1. clear Ho1.
destruct (length (validSourcesOf chat0 scene) =? 0)%nat eqn:Hempty; simpl.
- rewrite obj_delete_middle by done. rewrite !app_nil_r.
  eexists. split; [reflexivity|]. split; [|done].
  destruct (summaryMessageUUID scene) as [u|]; [|done].
  destruct (truthy u); [|done]. case_decide; [|done].
  apply (eq_trans (uuids_chat_modify _ _ _ msg_uuid_clearSummaryTags) Hu).
- rewrite bool_decide_eq_false_2 by done. rewrite andb_true_r.
  destruct (summaryGone chat0 scene) eqn:Hgone; simpl.
  + rewrite obj_update_middle by done. rewrite orb_true_r, !app_nil_r.
    eexists. split; [reflexivity|]. split; [|done].
    by rewrite uuids_unhideSources.
  + rewrite orb_false_r, !app_nil_r.
    exists chat. split; [|by split].
    destruct (sourcesTrimmed chat0 scene); simpl; [done|by rewrite app_nil_r].
Qed.
End ReconcileStep.

(** The keys of the entries of a store that satisfy a test, in store order. *)
Definition keysWhere (p : string * Scene → bool) (o : Obj Scene) : list string :=
  (filter (λ e, p e) o).*1.

Section ReconcilePass.
Variables (chat0 : Chat) (ix : gmap string nat).

Lemma keysWhere_cons p e o :
keysWhere p (e :: o) = (if p e then [e.1] else []) ++ keysWhere p o.
Proof.
unfold keysWhere. rewrite filter_cons. by destruct (p e).
Qed.

Lemma elem_of_keysWhere p o k :
k ∈ keysWhere p o ↔ ∃ scene, (k, scene) ∈ o ∧ p (k, scene) = true.
Proof.
unfold keysWhere. rewrite list_elem_of_fmap. split.
- intros ([k' scene] & -> & [Hp Hin]%list_elem_of_filter).
  exists scene. split; [done|]. by apply Is_true_eq_true.
- intros (scene & Hin & Hp). exists (k, scene). split; [done|].
  apply list_elem_of_filter. split; [by apply Is_true_eq_left|done].
Qed.

Lemma keys_reconciled o : keys (omap (reconciledEntry chat0) o) ⊆ keys o.
Proof.
intros k ([k' scene'] & -> & (e & He & Hr)%list_elem_of_omap)%list_elem_of_fmap.
unfold reconciledEntry in Hr. destruct (sceneOutcome chat0 e.2); [|done].
injection Hr as <- <-. apply list_elem_of_fmap. by exists e.
Qed.

(** The whole loop, started on a store whose entries [rest] are still to
  be visited. *)
Lemma reconcile_fold rest : ∀ pre chat res,
NoDup (keys (pre ++ rest)) →
(∀ k, k ∈ keys rest → k ∉ deletedScenes res) →
uuids chat = uuids chat0 →
∃ chat',
  fold_left (reconcileScene ix) rest (pre ++ rest, chat, res)
  = (pre ++ omap (reconciledEntry chat0) rest, chat',
     mkResult (modifiedScenes res ++ keysWhere (isModified chat0) rest)
              (deletedScenes res ++ keysWhere (isDeleted chat0) rest)
              (summaryLost res ++ keysWhere (isSummaryLost chat0) rest))
  ∧ uuids chat' = uuids chat0
  ∧ ((∀ e, e ∈ rest → isDeleted chat0 e = false ∧ summaryGone chat0 e.2 = false) →
     chat' = chat).
Proof.
induction rest as [|[k scene] rest IH]; intros pre chat res Hnd Hdel Hu.
- exists chat. simpl. unfold keysWhere. simpl. rewrite !app_nil_r.
  by destruct res.
- unfold keys in Hnd. rewrite fmap_app, fmap_cons in Hnd.
  apply NoDup_app in Hnd as (Hnd_pre & Hdisj & [Hk_rest Hnd_rest]%NoDup_cons).
  assert (Hk_pre : k ∉ keys pre).
  { intros Hin. apply (Hdisj _ Hin). apply list_elem_of_here. }
  assert (Hk_del : k ∉ deletedScenes res).
  { apply Hdel. apply list_elem_of_here. }
  destruct (reconcileScene_spec chat0 ix pre rest k scene chat res
              Hk_pre Hk_rest Hk_del Hu) as (chat1 & Hstep & Hu1 & Hsame1).
  rewrite !keysWhere_cons.
  change (fold_left (reconcileScene ix) ((k, scene) :: rest)
            (pre ++ (k, scene) :: rest, chat, res))
    with (fold_left (reconcileScene ix) rest
            (reconcileScene ix (pre ++ (k, scene) :: rest, chat, res) (k, scene))).
  rewrite Hstep. clear Hstep.
  rewrite app_assoc.
  set (done_ := pre ++ option_list (reconciledEntry chat0 (k, scene))).
  assert (Hkeys_done : keys done_ ⊆ keys pre ++ [k]).
  { intros x. subst done_. unfold keys. rewrite fmap_app, !elem_of_app.
    intros [?|Hx]; [by left|right].
    unfold reconciledEntry in Hx. destruct (sceneOutcome chat0 (k, scene).2);
      simpl in Hx; [|by apply elem_of_nil in Hx].
    by apply list_elem_of_singleton in Hx as ->; apply list_elem_of_here. }
  destruct (IH done_ chat1
    (mkResult
       (modifiedScenes res ++ (if isModified chat0 (k, scene) then [k] else []))
       (deletedScenes res ++ (if isDeleted chat0 (k, scene) then [k] else []))
       (summaryLost res ++ (if isSummaryLost chat0 (k, scene) then [k] else []))))
    as (chat2 & Hfold & Hu2 & Hsame2); [| |exact Hu1|].
  + unfold keys. rewrite fmap_app. apply NoDup_app. split_and!; [|..|done].
    * subst done_. rewrite fmap_app. apply NoDup_app. split_and!; [done|..].
      -- intros x Hx Hx'. unfold reconciledEntry in Hx'.
         destruct (sceneOutcome chat0 (k, scene).2); simpl in Hx';
           [|by apply elem_of_nil in Hx'].
         apply list_elem_of_singleton in Hx' as ->. by apply Hk_pre.
      -- unfold reconciledEntry. destruct (sceneOutcome chat0 (k, scene).2); simpl;
           [apply NoDup_singleton|apply NoDup_nil_2].
    * intros x Hx Hx'. apply Hkeys_done in Hx.
      apply elem_of_app in Hx as [Hx|Hx%list_elem_of_singleton].
      -- apply (Hdisj _ Hx). by apply list_elem_of_further.
      -- subst x. by apply Hk_rest.
  + intros x Hx. simpl. rewrite not_elem_of_app. split.
    * apply Hdel. by apply list_elem_of_further.
    * destruct (isDeleted chat0 (k, scene)); [|apply not_elem_of_nil].
      intros ->%list_elem_of_singleton. by apply Hk_rest.
  + exists chat2. rewrite Hfold. simpl.
    split; [|split; [done|]].
    * subst done_. simpl.
      destruct (reconciledEntry chat0 (k, scene)); simpl;
        by rewrite <- !app_assoc.
    * intros Hst. rewrite Hsame2.
      -- apply Hsame1; apply (Hst (k, scene)), list_elem_of_here.
      -- intros e He. apply Hst. by apply list_elem_of_further.
Qed.

End ReconcilePass.

(** One pass, on a well-formed store. *)
Lemma reconcileScenesAfterDeletion_spec (cm : ChatMetadata) (chat0 : Chat) :
  NoDup (keys (scenes (getSceneFoldData cm))) →
  ∃ chat',
    reconcileScenesAfterDeletion cm chat0
    = (mkResult (keysWhere (isModified chat0) (scenes (getSceneFoldData cm)))
                (keysWhere (isDeleted chat0) (scenes (getSceneFoldData cm)))
                (keysWhere (isSummaryLost chat0) (scenes (getSceneFoldData cm))),
       with_scenes (getSceneFoldData cm)
         (omap (reconciledEntry chat0) (scenes (getSceneFoldData cm))),
       chat')
    ∧ uuids chat' = uuids chat0
    ∧ ((∀ e, e ∈ scenes (getSceneFoldData cm) →
          isDeleted chat0 e = false ∧ summaryGone chat0 e.2 = false) →
       chat' = chat0).
Proof.
  intros Hnd. unfold reconcileScenesAfterDeletion.
  destruct (reconcile_fold chat0 (buildUUIDIndex chat0)
              (scenes (getSceneFoldData cm)) [] chat0 (mkResult [] [] []))
    as (chat' & Hfold & Hu & Hsame); [done| |done|].
  { intros k _. apply not_elem_of_nil. }
  simpl in Hfold. rewrite Hfold.
  exists chat'. by split.
Qed.

Section AfterOnePass.
Implicit Types (chat : Chat) (o : Obj Scene).

Lemma keys_functional {A} (o' : Obj A) k (a b : A) :
NoDup (keys o') → (k, a) ∈ o' → (k, b) ∈ o' → a = b.
Proof.
intros Hnd Ha Hb.
apply (obj_get_elem _ _ _ Hnd) in Ha. apply (obj_get_elem _ _ _ Hnd) in Hb.
congruence.
Qed.

Lemma sourceMessageUUIDs_reset scene :
sourceMessageUUIDs (resetLostSummary scene) = sourceMessageUUIDs scene.
Proof. done. Qed.

(** A scene that survives a pass holds exactly its resolving sources,
  and at least one. *)
Lemma sceneOutcome_sources chat scene scene' :
sceneOutcome chat scene = Some scene' →
sourceMessageUUIDs scene' = validSourcesOf chat scene
∧ validSourcesOf chat scene ≠ [].
Proof.
unfold sceneOutcome.
destruct (length (validSourcesOf chat scene) =? 0)%nat eqn:Hlen; [done|].
intros [= <-]. split.
- destruct (summaryGone chat scene);
    [rewrite sourceMessageUUIDs_reset|]; apply sourceMessageUUIDs_trim.
- intros Hnil. rewrite Hnil in Hlen. done.
Qed.

(** ... and no summary identifier that fails to resolve. *)
Lemma sceneOutcome_summary chat chat' scene scene' :
uuids chat' = uuids chat →
sceneOutcome chat scene = Some scene' →
summaryGone chat' scene' = false.
Proof.
intros Hu. unfold sceneOutcome.
destruct (length (validSourcesOf chat scene) =? 0)%nat; [done|].
intros [= <-]. destruct (summaryGone chat scene) eqn:Hgone; [done|].
unfold summaryGone in *. rewrite summaryMessageUUID_trim.
destruct (summaryMessageUUID scene) as [u|]; [|done].
rewrite <- Hgone. f_equal. apply bool_decide_ext. by apply resolves_ext.
Qed.

Lemma validSourcesOf_ext chat chat' scene :
uuids chat' = uuids chat → validSourcesOf chat' scene = validSourcesOf chat scene.
Proof.
intros Hu. unfold validSourcesOf. apply list_filter_iff. intros u.
by rewrite (resolves_ext chat' chat u None None Hu).
Qed.

Lemma validSourcesOf_idem chat scene scene' :
sourceMessageUUIDs scene' = validSourcesOf chat scene →
validSourcesOf chat scene' = sourceMessageUUIDs scene'.
Proof.
intros Hs. unfold validSourcesOf at 1. rewrite Hs. unfold validSourcesOf.
rewrite list_filter_filter. apply list_filter_iff. tauto.
Qed.

Lemma NoDup_keys_reconciled chat o :
NoDup (keys o) → NoDup (keys (omap (reconciledEntry chat) o)).
Proof.
induction o as [|[k scene] o IH]; simpl; [done|].
intros [Hk Hnd]%NoDup_cons.
unfold reconciledEntry at 1. simpl.
destruct (sceneOutcome chat scene); simpl; [|by apply IH].
apply NoDup_cons. split; [|by apply IH].
intros Hin. by apply keys_reconciled in Hin.
Qed.

Lemma reconciled_elem chat o k scene' :
(k, scene') ∈ omap (reconciledEntry chat) o →
∃ scene, (k, scene) ∈ o ∧ sceneOutcome chat scene = Some scene'.
Proof.
intros ([k0 scene] & Hin & Hr)%list_elem_of_omap.
unfold reconciledEntry in Hr. simpl in Hr.
destruct (sceneOutcome chat scene) as [s|] eqn:Hout; [|done].
injection Hr as -> ->. by exists scene.
Qed.

Lemma omap_fixed {A} (f : A → option A) (l : list A) :
(∀ x, x ∈ l → f x = Some x) → omap f l = l.
Proof.
induction l as [|x l IH]; [done|]. intros H. simpl.
rewrite (H x) by apply list_elem_of_here. f_equal.
apply IH. intros y Hy. apply H. by apply list_elem_of_further.
Qed.

Lemma keysWhere_none p o :
(∀ e, e ∈ o → p e = false) → keysWhere p o = [].
Proof.
induction o as [|e o IH]; [done|]. intros H.
rewrite keysWhere_cons, (H e) by apply list_elem_of_here. simpl.
apply IH. intros y Hy. apply H. by apply list_elem_of_further.
Qed.
End AfterOnePass.

(** ** Concrete stores and chats *)

Definition sceneOf (sceneId : string) (sources : list string)
    (summary : option string) (st : Status) : Scene :=
  mkScene sceneId summary sources None st None false None 0 false false.

Definition storeOf (o : Obj Scene) : ChatMetadata :=
  mkChatMetadata (Some (mkData o (mkSettings getDefaultSummarizationPrompt))).

(** Scene [s1] over messages a, b, c after the host removed b; scene [s2]
    whose only source d is gone. *)
Definition chatAfterDeletion : Chat := [plainMessage "a"; plainMessage "c"].
Definition storeBeforeReconcile : ChatMetadata :=
  storeOf [("s1", sceneOf "s1" ["a"; "b"; "c"] None st_defined);
           ("s2", sceneOf "s2" ["d"] None st_defined)].

(** A completed scene whose summary message m was removed by the host. *)
Definition chatSummaryRemoved : Chat := [plainMessage "a"].
Definition storeSummaryRemoved : ChatMetadata :=
  storeOf [("s1", sceneOf "s1" ["a"] (Some "m") st_completed)].

Lemma NoDup_keys_storeBeforeReconcile :
  NoDup (keys (scenes (getSceneFoldData storeBeforeReconcile))).
Proof. apply (bool_decide_unpack _). vm_compute. exact I. Defined.

Lemma NoDup_keys_storeSummaryRemoved :
  NoDup (keys (scenes (getSceneFoldData storeSummaryRemoved))).
Proof. apply (bool_decide_unpack _). vm_compute. exact I. Defined.

(** ** C1: deletion safety *)

(** C1: after [reconcileScenesAfterDeletion], every source identifier of
    every scene left in the store resolves in the chat, and a scene whose
    recomputed source list is empty is no longer in the store (so no
    remaining scene has an empty source list). *)
Theorem C1_deletion_safety (cm : ChatMetadata) (chat : Chat) :
  NoDup (keys (scenes (getSceneFoldData cm))) →
  let cm' := (reconcileScenesAfterDeletion cm chat).1.2 in
  let chat' := (reconcileScenesAfterDeletion cm chat).2 in
  (∀ sceneId scene, getScene cm' sceneId = Some scene →
     sourceMessageUUIDs scene ≠ [] ∧
     ∀ uuid, uuid ∈ sourceMessageUUIDs scene →
       findMessageIndexByUUID chat' uuid None ≠ (-1)%Z)
  ∧ (∀ sceneId scene, (sceneId, scene) ∈ scenes (getSceneFoldData cm) →
       validSourcesOf chat scene = [] → getScene cm' sceneId = None).
Proof.
  intros Hnd.
  destruct (reconcileScenesAfterDeletion_spec cm chat Hnd) as (chat1 & -> & Hu & _).
  simpl. unfold getScene. simpl. split.
  - intros sceneId scene' Hget.
    apply obj_get_Some_elem, reconciled_elem in Hget as (scene & Hin & Hout).
    apply sceneOutcome_sources in Hout as [Hsrc Hne].
    rewrite Hsrc. split; [done|].
    intros uuid [Hres _]%list_elem_of_filter.
    by rewrite (resolves_ext chat1 chat uuid None None Hu).
  - intros sceneId scene Hin Hnil.
    apply obj_get_None. intros Hk.
    apply list_elem_of_fmap in Hk as ([k scene'] & -> & Hin').
    apply reconciled_elem in Hin' as (scene0 & Hin0 & Hout). simpl in *.
    rewrite (keys_functional _ _ _ _ Hnd Hin0 Hin) in Hout.
    apply sceneOutcome_sources in Hout as [_ Hne]. done.
Qed.

Lemma C1_deletion_safety_witness :
  let cm' := (reconcileScenesAfterDeletion storeBeforeReconcile chatAfterDeletion).1.2 in
  let chat' := (reconcileScenesAfterDeletion storeBeforeReconcile chatAfterDeletion).2 in
  (∀ sceneId scene, getScene cm' sceneId = Some scene →
     sourceMessageUUIDs scene ≠ [] ∧
     ∀ uuid, uuid ∈ sourceMessageUUIDs scene →
       findMessageIndexByUUID chat' uuid None ≠ (-1)%Z)
  ∧ (∀ sceneId scene,
       (sceneId, scene) ∈ scenes (getSceneFoldData storeBeforeReconcile) →
       validSourcesOf chatAfterDeletion scene = [] → getScene cm' sceneId = None).
Proof.
  apply (C1_deletion_safety storeBeforeReconcile chatAfterDeletion).
  exact NoDup_keys_storeBeforeReconcile.
Defined.

(** Scenario B of the specification, computed: the sources of [s1] shrink
    to a, c and [s2] leaves the store. *)
Example reconcile_scenario_B :
  let r := reconcileScenesAfterDeletion storeBeforeReconcile chatAfterDeletion in
  (sourceMessageUUIDs <$> getScene r.1.2 "s1") = Some ["a"; "c"]
  ∧ (status <$> getScene r.1.2 "s1") = Some st_defined
  ∧ getScene r.1.2 "s2" = None
  ∧ r.1.1 = mkResult ["s1"] ["s2"] [].
Proof. vm_compute. done. Qed.

(** ** C4: the three result sets *)

(** C4, as stated, fails: a scene whose summary message was removed is
    reported both in [summaryLost] and in [modifiedScenes]. *)
Lemma C4_summaryLost_overlaps_modified :
  let r := (reconcileScenesAfterDeletion storeSummaryRemoved chatSummaryRemoved).1.1 in
  NoDup (keys (scenes (getSceneFoldData storeSummaryRemoved)))
  ∧ r = mkResult ["s1"] [] ["s1"]
  ∧ ¬ (∀ k, k ∈ summaryLost r → k ∉ modifiedScenes r).
Proof.
  split; [exact NoDup_keys_storeSummaryRemoved|].
  assert (Hr : (reconcileScenesAfterDeletion storeSummaryRemoved chatSummaryRemoved).1.1
               = mkResult ["s1"] [] ["s1"]) by (vm_compute; reflexivity).
  simpl. rewrite Hr. split; [done|]. simpl.
  intros H. apply (H "s1"); apply list_elem_of_here.
Qed.

(** C4 (amended): the scenes deleted are disjoint from the scenes
    modified and from the scenes that lost their summary, and every scene
    that lost its summary is also reported as modified. *)
Theorem C4_result_sets (cm : ChatMetadata) (chat : Chat) :
  NoDup (keys (scenes (getSceneFoldData cm))) →
  let r := (reconcileScenesAfterDeletion cm chat).1.1 in
  (∀ k, k ∈ deletedScenes r → k ∉ modifiedScenes r)
  ∧ (∀ k, k ∈ deletedScenes r → k ∉ summaryLost r)
  ∧ (∀ k, k ∈ summaryLost r → k ∈ modifiedScenes r).
Proof.
  intros Hnd.
  destruct (reconcileScenesAfterDeletion_spec cm chat Hnd) as (chat1 & -> & _ & _).
  simpl. split_and!; intros k.
  - intros (s1 & Hin1 & Hp1)%elem_of_keysWhere (s2 & Hin2 & Hp2)%elem_of_keysWhere.
    rewrite (keys_functional _ _ _ _ Hnd Hin2 Hin1) in Hp2.
    unfold isModified in Hp2. rewrite Hp1 in Hp2. done.
  - intros (s1 & Hin1 & Hp1)%elem_of_keysWhere (s2 & Hin2 & Hp2)%elem_of_keysWhere.
    rewrite (keys_functional _ _ _ _ Hnd Hin2 Hin1) in Hp2.
    unfold isSummaryLost in Hp2. rewrite Hp1 in Hp2. done.
  - intros (s1 & Hin1 & Hp1)%elem_of_keysWhere. apply elem_of_keysWhere.
    exists s1. split; [done|].
    unfold isSummaryLost in Hp1. unfold isModified.
    apply andb_true_iff in Hp1 as [-> ->]. by rewrite orb_true_r.
Qed.

Lemma C4_result_sets_witness :
  let r := (reconcileScenesAfterDeletion storeSummaryRemoved chatSummaryRemoved).1.1 in
  (∀ k, k ∈ deletedScenes r → k ∉ modifiedScenes r)
  ∧ (∀ k, k ∈ deletedScenes r → k ∉ summaryLost r)
  ∧ (∀ k, k ∈ summaryLost r → k ∈ modifiedScenes r).
Proof.
  apply (C4_result_sets storeSummaryRemoved chatSummaryRemoved).
  exact NoDup_keys_storeSummaryRemoved.
Defined.

(** ** C6: idempotence of deletion reconciliation *)

(** C6: a second pass run right after a first one reports nothing and
    leaves the scene store and the chat as the first pass left them. *)
Theorem C6_deletion_idempotent (cm : ChatMetadata) (chat : Chat) :
  NoDup (keys (scenes (getSceneFoldData cm))) →
  let cm1 := (reconcileScenesAfterDeletion cm chat).1.2 in
  let chat1 := (reconcileScenesAfterDeletion cm chat).2 in
  reconcileScenesAfterDeletion cm1 chat1 = (mkResult [] [] [], cm1, chat1).
Proof.
  intros Hnd.
  destruct (reconcileScenesAfterDeletion_spec cm chat Hnd) as (chat1 & -> & Hu & _).
  simpl.
  set (o1 := omap (reconciledEntry chat) (scenes (getSceneFoldData cm))).
  assert (Hnd1 : NoDup (keys (scenes (getSceneFoldData
                   (with_scenes (getSceneFoldData cm) o1)))))
    by (simpl; by apply NoDup_keys_reconciled).
  destruct (reconcileScenesAfterDeletion_spec _ chat1 Hnd1) as (chat2 & -> & _ & Hsame).
  simpl in *.
  assert (Hstable : ∀ e, e ∈ o1 →
            validSourcesOf chat1 e.2 = sourceMessageUUIDs e.2
            ∧ sourceMessageUUIDs e.2 ≠ [] ∧ summaryGone chat1 e.2 = false).
  { intros [k scene'] (scene & Hin & Hout)%reconciled_elem. simpl.
    pose proof (sceneOutcome_sources _ _ _ Hout) as [Hsrc Hne].
    rewrite (validSourcesOf_ext chat chat1 _ Hu).
    split_and!; [by apply (validSourcesOf_idem chat scene)|by rewrite Hsrc|].
    by apply (sceneOutcome_summary chat chat1 scene). }
  assert (Hdel : ∀ e, e ∈ o1 → isDeleted chat1 e = false).
  { intros e (Hv & Hne & _)%Hstable. unfold isDeleted. rewrite Hv.
    destruct (sourceMessageUUIDs e.2); done. }
  assert (Htrim : ∀ e, e ∈ o1 → sourcesTrimmed chat1 e.2 = false).
  { intros e (Hv & _ & _)%Hstable. unfold sourcesTrimmed. rewrite Hv.
    by rewrite Nat.eqb_refl. }
  rewrite Hsame by (intros e He; split; [by apply Hdel|by apply Hstable]).
  rewrite !keysWhere_none.
  - rewrite omap_fixed; [done|].
    intros [k scene] He. unfold reconciledEntry, sceneOutcome. simpl.
    pose proof (Hdel _ He) as Hd. unfold isDeleted in Hd. simpl in Hd. rewrite Hd.
    pose proof (Htrim _ He) as Ht. simpl in Ht. rewrite Ht.
    destruct (Hstable _ He) as (_ & _ & Hg). simpl in Hg. by rewrite Hg.
  - intros e He. unfold isSummaryLost.
    destruct (Hstable _ He) as (_ & _ & ->). by rewrite andb_false_r.
  - intros e He. by apply Hdel.
  - intros e He. unfold isModified. rewrite (Htrim _ He).
    destruct (Hstable _ He) as (_ & _ & ->). by rewrite andb_false_r.
Qed.

Lemma C6_deletion_idempotent_witness :
  let cm1 := (reconcileScenesAfterDeletion storeSummaryRemoved chatSummaryRemoved).1.2 in
  let chat1 := (reconcileScenesAfterDeletion storeSummaryRemoved chatSummaryRemoved).2 in
  reconcileScenesAfterDeletion cm1 chat1 = (mkResult [] [] [], cm1, chat1).
Proof.
  apply (C6_deletion_idempotent storeSummaryRemoved chatSummaryRemoved).
  exact NoDup_keys_storeSummaryRemoved.
Defined.

(** ** C10: creation over a range that holds no message *)

Lemma obj_get_set_eq {A} k (v : A) (o : Obj A) : obj_get k (obj_set k v o) = Some v.
Proof.
  induction o as [|[k' v'] o IH]; simpl.
  - by rewrite decide_True.
  - case_decide as Hk; simpl; [by rewrite decide_True|by rewrite decide_False].
Qed.

Lemma obj_get_set_ne {A} k k' (v : A) (o : Obj A) :
  k ≠ k' → obj_get k' (obj_set k v o) = obj_get k' o.
Proof.
  intros Hne. induction o as [|[k0 v0] o IH]; simpl.
  - by rewrite decide_False.
  - destruct (decide (k0 = k)) as [->|Hk0]; simpl.
    + by rewrite !decide_False.
    + case_decide; [done|apply IH].
Qed.

(** The loop does nothing on indices that hold no message. *)
Lemma createScene_loop_no_message fuel : ∀ i sceneId uuidv4Fn chat n acc,
  (∀ j, (i ≤ j < i + Z.of_nat fuel)%Z → chat_at chat j = None) →
  createScene_loop fuel i sceneId uuidv4Fn chat n acc = (chat, n, acc).
Proof.
  induction fuel as [|fuel IH]; intros i sceneId uuidv4Fn chat n acc Hnone; [done|].
  simpl. rewrite (Hnone i) by lia. apply IH. intros j Hj. apply Hnone. lia.
Qed.

(** C10: on a range [startIndex..endIndex] none of whose indices holds a
    chat message, [createScene] still mints a scene id, stores under it a
    scene with an empty source list and status [defined], returns that
    record, and leaves the chat as it was. *)
Theorem C10_createScene_empty_range (cm : ChatMetadata) (chat : Chat)
    (startIndex endIndex : Z) (uuidv4Fn : nat → string) (n : nat)
    (customPrompt : option string) (now : Z) :
  (∀ i, (startIndex ≤ i ≤ endIndex)%Z → chat_at chat i = None) →
  let r := createScene cm chat startIndex endIndex uuidv4Fn n customPrompt now in
  let scene := r.1.1.1 in
  scene_id scene = uuidv4Fn n
  ∧ sourceMessageUUIDs scene = []
  ∧ status scene = st_defined
  ∧ getScene r.1.1.2 (uuidv4Fn n) = Some scene
  ∧ r.1.2 = chat
  ∧ r.2 = S n.
Proof.
  intros Hnone. unfold createScene.
  rewrite createScene_loop_no_message by (intros j Hj; apply Hnone; lia).
  simpl. split_and!; try done.
  unfold getScene. simpl. apply obj_get_set_eq.
Qed.

(** A concrete generator: the identifiers u, ui, uii, ... *)
Fixpoint tally (k : nat) : string :=
  match k with
  | O => ""
  | S k' => String "i" (tally k')
  end.

Definition testUuidv4 (k : nat) : string := String "u" (tally k).

(** A range entirely past the end of a two-message chat. *)
Lemma C10_createScene_empty_range_witness :
  let r := createScene storeBeforeReconcile chatAfterDeletion 5 7 testUuidv4 0 None 0 in
  let scene := r.1.1.1 in
  scene_id scene = "u"
  ∧ sourceMessageUUIDs scene = []
  ∧ status scene = st_defined
  ∧ getScene r.1.1.2 "u" = Some scene
  ∧ r.1.2 = chatAfterDeletion
  ∧ r.2 = 1%nat.
Proof.
  apply (C10_createScene_empty_range storeBeforeReconcile chatAfterDeletion 5 7
           testUuidv4 0 None 0).
  intros i Hi. unfold chat_at. replace (i <? 0)%Z with false by lia.
  apply lookup_ge_None. simpl. lia.
Defined.

(** ** C3: creation and overlap *)

(** The positions the sources of a scene resolve to. *)
Definition scenePositions (chat : Chat) (scene : Scene) : list Z :=
  filter (λ p, p ≠ (-1)%Z)
         ((λ uuid, findMessageIndexByUUID chat uuid None) <$> sourceMessageUUIDs scene).

(** No position is claimed by two scenes of the store. *)
Definition scenesDisjoint (cm : ChatMetadata) (chat : Chat) : Prop :=
  ∀ sid1 sid2 scene1 scene2 p,
    sid1 ≠ sid2 →
    getScene cm sid1 = Some scene1 → getScene cm sid2 = Some scene2 →
    p ∈ scenePositions chat scene1 → p ∉ scenePositions chat scene2.

(** The state the store, the chat and the identifier generator are kept
    in: distinct keys; distinct non-empty identifiers on messages; the
    identifiers still to be generated are non-empty, pairwise distinct and
    unused; every message a scene resolves to carries that scene's tag
    (invariant I2, from sources to tags); no two scenes share a position
    (invariant I3). *)
Record SceneInv (uuidv4Fn : nat → string) (n : nat)
    (cm : ChatMetadata) (chat : Chat) : Prop := mkSceneInv {
  inv_keys : NoDup (keys (scenes (getSceneFoldData cm)));
  inv_gen_inj : ∀ j k, uuidv4Fn j = uuidv4Fn k → j = k;
  inv_gen_truthy : ∀ k, (n ≤ k)%nat → uuidv4Fn k ≠ "";
  inv_gen_fresh_chat : ∀ k j, (n ≤ k)%nat → uuid_at chat j ≠ Some (uuidv4Fn k);
  inv_gen_fresh_src : ∀ k sid scene, (n ≤ k)%nat →
    getScene cm sid = Some scene → uuidv4Fn k ∉ sourceMessageUUIDs scene;
  inv_gen_fresh_key : ∀ k, (n ≤ k)%nat →
    uuidv4Fn k ∉ keys (scenes (getSceneFoldData cm));
  inv_unique : ∀ i j u, u ≠ "" →
    uuid_at chat i = Some u → uuid_at chat j = Some u → i = j;
  inv_src_truthy : ∀ sid scene u,
    getScene cm sid = Some scene → u ∈ sourceMessageUUIDs scene → u ≠ "";
  inv_tagged : ∀ sid scene u p,
    getScene cm sid = Some scene → u ∈ sourceMessageUUIDs scene →
    uuid_at chat p = Some u → sid ∈ getMessageScenes chat (Z.of_nat p);
  inv_disjoint : scenesDisjoint cm chat
}.

Section Overlap.
Implicit Types (chat : Chat) (i : Z).

Lemma fold_set_add_nil (l acc : list string) :
fold_left (λ acc sceneId, set_add sceneId acc) l acc = [] ↔ l = [] ∧ acc = [].
Proof.
revert acc. induction l as [|x l IH]; intros acc; simpl;
  [split; [by intros ->|by intros [_ ->]]|].
rewrite IH. unfold set_add. split; [|by intros [? _]].
intros [_ H]. exfalso. case_decide as Hx; [subst; by apply elem_of_nil in Hx|].
by destruct acc.
Qed.

Lemma findOverlappingScenes_loop_nil fuel : ∀ i chat acc,
findOverlappingScenes_loop fuel i chat acc = [] ↔
acc = [] ∧ ∀ j, (i ≤ j < i + Z.of_nat fuel)%Z → getMessageScenes chat j = [].
Proof.
induction fuel as [|fuel IH]; intros i chat acc; simpl.
- split; [intros ->; split; [done|intros; lia]|by intros [-> _]].
- rewrite IH, fold_set_add_nil. split.
  + intros [[Hi ->] Hrest]. split; [done|]. intros j Hj.
    destruct (decide (j = i)) as [->|]; [done|]. apply Hrest. lia.
  + intros [-> Hall]. split; [split; [apply Hall; lia|done]|].
    intros j Hj. apply Hall. lia.
Qed.

(** The overlap check finds nothing exactly when no message of the range
  carries a scene tag. *)
Lemma findOverlappingScenes_nil cm chat startIndex endIndex :
findOverlappingScenes cm chat startIndex endIndex = [] ↔
∀ j, (startIndex ≤ j ≤ endIndex)%Z → getMessageScenes chat j = [].
Proof.
unfold findOverlappingScenes. rewrite findOverlappingScenes_loop_nil.
split.
- intros [_ H] j Hj. apply H. lia.
- intros H. split; [done|]. intros j Hj. apply H. lia.
Qed.

(** A tagged message in the range makes [slashSceneCreate] refuse,
  leaving the store, the chat and the generator untouched. *)
Lemma slashSceneCreate_rejects cm chat start end_ uuidv4Fn n prompt now j sid :
(start ≤ j ≤ end_)%Z → sid ∈ getMessageScenes chat j →
slashSceneCreate cm chat start end_ uuidv4Fn n prompt now
= ("Error: overlap", cm, chat, n).
Proof.
intros Hj Hsid. unfold slashSceneCreate.
destruct (findOverlappingScenes cm chat start end_) eqn:Hov; [|done].
pose proof (proj1 (findOverlappingScenes_nil _ _ _ _) Hov) as Hnil.
rewrite (Hnil j Hj) in Hsid.
by apply elem_of_nil in Hsid.
Qed.
End Overlap.

(** [m?.extra?.scene_fold_scenes || []] *)
Definition msg_scenes (m : Message) : list string :=
  match extra m with
  | Some e => default [] (scene_fold_scenes e)
  | None => []
  end.

Section Messages.
Implicit Types (chat : Chat) (m : Message).

Lemma truthy_ne u : truthy u = true ↔ u ≠ "".
Proof.
unfold truthy. rewrite negb_true_iff. split.
- intros H ->. done.
- intros H. apply String.eqb_neq. done.
Qed.

Lemma truthy_false u : truthy u = false ↔ u = "".
Proof. unfold truthy. rewrite negb_false_iff. apply String.eqb_eq. Qed.

Lemma getMessageScenes_nat chat (j : nat) :
getMessageScenes chat (Z.of_nat j) = from_option msg_scenes [] (chat !! j).
Proof.
unfold getMessageScenes, chat_at.
rewrite (proj2 (Z.ltb_ge _ _)) by lia. rewrite Nat2Z.id.
by destruct (chat !! j).
Qed.

Lemma getMessageScenes_neg chat (i : Z) : (i < 0)%Z → getMessageScenes chat i = [].
Proof.
intros Hi. unfold getMessageScenes, chat_at.
by rewrite (proj2 (Z.ltb_lt _ _)) by lia.
Qed.

Lemma uuid_at_insert chat (p j : nat) m :
(p < length chat)%nat →
uuid_at (<[p := m]> chat) j = if decide (j = p) then msg_uuid m else uuid_at chat j.
Proof.
intros Hp. unfold uuid_at. case_decide as Hj.
- subst. by rewrite list_lookup_insert_eq.
- by rewrite list_lookup_insert_ne.
Qed.

Lemma getMessageScenes_insert chat (p j : nat) m :
(p < length chat)%nat →
getMessageScenes (<[p := m]> chat) (Z.of_nat j)
= if decide (j = p) then msg_scenes m else getMessageScenes chat (Z.of_nat j).
Proof.
intros Hp. rewrite !getMessageScenes_nat. case_decide as Hj.
- subst. by rewrite list_lookup_insert_eq.
- by rewrite list_lookup_insert_ne.
Qed.

(** The message produced by one iteration of the loop of [createScene]. *)
Lemma tagSource_spec sceneId uuidv4Fn m n :
∃ m2 uuid n1,
  tagSource sceneId uuidv4Fn m n = (m2, uuid, n1)
  ∧ msg_uuid m2 = Some uuid
  ∧ sceneId ∈ msg_scenes m2
  ∧ (∀ x, x ∈ msg_scenes m → x ∈ msg_scenes m2)
  ∧ ((msg_uuid m = Some uuid ∧ uuid ≠ "" ∧ n1 = n)
     ∨ ((∀ u, msg_uuid m = Some u → u = "") ∧ uuid = uuidv4Fn n ∧ n1 = S n)).
Proof.
unfold tagSource, ensureMessageUUID.
set (e := match extra m with Some e => e | None => emptyExtra end).
assert (Hsc : default [] (scene_fold_scenes e) = msg_scenes m).
{ unfold msg_scenes, e. by destruct (extra m). }
assert (Hu : scene_fold_uuid e = msg_uuid m).
{ unfold msg_uuid, e. by destruct (extra m). }
assert (Htags : ∀ tags : list string,
          sceneId ∈ (if decide (sceneId ∈ tags) then tags else tags ++ [sceneId])
          ∧ ∀ x, x ∈ tags →
              x ∈ (if decide (sceneId ∈ tags) then tags else tags ++ [sceneId])).
{ intros tags. case_decide; [done|]. split; [|intros x Hx]; apply elem_of_app;
    [right; apply list_elem_of_here|by left]. }
destruct (truthy_opt (scene_fold_uuid e)) eqn:Ht.
- do 3 eexists. split; [reflexivity|]. simpl. rewrite Hsc.
  destruct (scene_fold_uuid e) as [u|] eqn:He; [|done]. simpl in *.
  split_and!; [done|apply (proj1 (Htags _))|apply (proj2 (Htags _))|].
  left. split_and!; [done| by apply truthy_ne |done].
- do 3 eexists. split; [reflexivity|]. simpl. rewrite Hsc.
  split_and!; [done|apply (proj1 (Htags _))|apply (proj2 (Htags _))|].
  right. split_and!; [|done|done].
  intros u Hmu. rewrite <- Hu in Hmu. rewrite Hmu in Ht. simpl in Ht.
  by apply truthy_false.
Qed.
End Messages.

Section CreateLoop.
Variables (uuidv4Fn : nat → string) (sceneId : string) (chat0 : Chat) (n0 : nat) (start : Z).
Hypothesis gen_inj : ∀ j k, uuidv4Fn j = uuidv4Fn k → j = k.
Hypothesis gen_truthy : ∀ k, (n0 ≤ k)%nat → uuidv4Fn k ≠ "".

(** An identifier that is non-empty and not among those still to be
  generated. *)
Definition isOld (u : string) : Prop :=
u ≠ "" ∧ ∀ k, (n0 ≤ k)%nat → u ≠ uuidv4Fn k.

(** What holds of the chat, the counter and the collected sources when the
  loop of [createScene] reaches index [i]. *)
Record LoopInv (i : Z) (chat : Chat) (n : nat) (acc : list string) : Prop := mkLoopInv {
li_len : length chat = length chat0;
li_n : (n0 ≤ n)%nat;
li_fresh : ∀ k j, (n ≤ k)%nat → uuid_at chat j ≠ Some (uuidv4Fn k);
li_unique : ∀ a b u, u ≠ "" →
  uuid_at chat a = Some u → uuid_at chat b = Some u → a = b;
li_old : ∀ u j, isOld u → (uuid_at chat j = Some u ↔ uuid_at chat0 j = Some u);
li_tags : ∀ j x, x ∈ getMessageScenes chat0 (Z.of_nat j) →
  x ∈ getMessageScenes chat (Z.of_nat j);
li_acc : ∀ u, u ∈ acc →
  u ≠ "" ∧ ∃ p, (start ≤ Z.of_nat p < i)%Z ∧ uuid_at chat p = Some u
                ∧ sceneId ∈ getMessageScenes chat (Z.of_nat p)
}.

Lemma LoopInv_skip i chat n acc :
LoopInv i chat n acc → LoopInv (i + 1) chat n acc.
Proof.
intros [? ? ? ? ? ? Hacc]. split; try done.
intros u Hu. destruct (Hacc u Hu) as (Hne & p & Hp & Hrest).
split; [done|]. exists p. split; [lia|done].
Qed.

Lemma chat_at_Some chat i m :
chat_at chat i = Some m →
(0 ≤ i)%Z ∧ chat !! Z.to_nat i = Some m ∧ (Z.to_nat i < length chat)%nat.
Proof.
unfold chat_at. destruct (Z.ltb_spec i 0) as [|Hge]; [done|].
intros Hm. split_and!; [done|done|]. by apply lookup_lt_Some in Hm.
Qed.

Lemma LoopInv_step i chat n acc m m2 uuid n1 :
LoopInv i chat n acc → (start ≤ i)%Z →
chat_at chat i = Some m →
tagSource sceneId uuidv4Fn m n = (m2, uuid, n1) →
LoopInv (i + 1) (<[Z.to_nat i := m2]> chat) n1 (acc ++ [uuid]).
Proof.
intros [Hlen Hn Hfresh Huniq Hold Htags Hacc] Hstart Hm Htag.
apply chat_at_Some in Hm as (Hi0 & Hm & Hlt).
destruct (tagSource_spec sceneId uuidv4Fn m n)
  as (m2' & uuid' & n1' & Htag' & Hu2 & Hsid & Hmono & Hcase).
rewrite Htag in Htag'. injection Htag' as <- <- <-.
set (p := Z.to_nat i) in *.
assert (Hmu : uuid_at chat p = msg_uuid m) by (unfold uuid_at; by rewrite Hm).
assert (Hms : getMessageScenes chat (Z.of_nat p) = msg_scenes m)
  by (rewrite getMessageScenes_nat; by rewrite Hm).
assert (Hne : uuid ≠ "").
{ destruct Hcase as [(_ & ? & _)|(_ & -> & _)]; [done|by apply gen_truthy]. }
assert (Hn1 : (n ≤ n1)%nat) by (destruct Hcase as [(_ & _ & ->)|(_ & _ & ->)]; lia).
(* the identifier given to position [p] is held by no other position *)
assert (Hother : ∀ j, j ≠ p → uuid_at chat j ≠ Some uuid).
{ intros j Hj Hju. destruct Hcase as [(Hmu' & _ & _)|(_ & -> & _)].
  - apply Hj. apply (Huniq j p uuid); [done|done|by rewrite Hmu].
  - by apply (Hfresh n j). }
split.
- by rewrite length_insert.
- lia.
- intros k j Hk. rewrite uuid_at_insert by done. case_decide as Hj.
  + rewrite Hu2. intros [= Heq].
    destruct Hcase as [(Hmu' & _ & _)|(_ & -> & ->)].
    * apply (Hfresh k p); [lia|]. by rewrite Hmu, Hmu', Heq.
    * apply gen_inj in Heq. lia.
  + apply Hfresh. lia.
- intros a b u Hu. rewrite !uuid_at_insert by done.
  repeat case_decide; subst; try done.
  + rewrite Hu2. intros [= <-] Hb. by apply Hother in Hb.
  + rewrite Hu2. intros Ha [= <-]. by apply Hother in Ha.
  + by apply Huniq.
- intros u j Hu. rewrite uuid_at_insert by done. case_decide as Hj; [|by apply Hold].
  subst j. rewrite <- Hold by done. rewrite Hu2, Hmu.
  destruct Hcase as [(-> & _ & _)|(Hempty & -> & _)]; [done|].
  destruct Hu as [Hu1 Hu2']. split.
  + intros [= <-]. exfalso. by apply (Hu2' n).
  + intros Hmu'. exfalso. by apply Hu1, Hempty.
- intros j x Hx. rewrite getMessageScenes_insert by done.
  apply Htags in Hx. case_decide as Hj; [|done].
  subst j. rewrite Hms in Hx. by apply Hmono.
- intros u [Hu|Hu%list_elem_of_singleton]%elem_of_app.
  + destruct (Hacc u Hu) as (Hune & q & Hq & Hqu & Hqs).
    split; [done|]. exists q. split; [lia|].
    assert (q ≠ p) by (unfold p; lia).
    rewrite uuid_at_insert, getMessageScenes_insert by done.
    by rewrite !decide_False.
  + subst u. split; [done|]. exists p. split; [unfold p; lia|].
    rewrite uuid_at_insert, getMessageScenes_insert by done.
    by rewrite !decide_True.
Qed.

(** The loop keeps the invariant, advances the counter, and collects the
  sources behind what it was given. *)
Lemma createScene_loop_inv fuel : ∀ i chat n acc,
LoopInv i chat n acc → (start ≤ i)%Z →
∃ chat' n' acc',
  createScene_loop fuel i sceneId uuidv4Fn chat n acc = (chat', n', acc')
  ∧ LoopInv (i + Z.of_nat fuel) chat' n' acc' ∧ (n ≤ n')%nat.
Proof.
induction fuel as [|fuel IH]; intros i chat n acc Hinv Hstart.
- exists chat, n, acc. simpl. rewrite Z.add_0_r. done.
- simpl createScene_loop.
  replace (i + Z.of_nat (S fuel))%Z with ((i + 1) + Z.of_nat fuel)%Z by lia.
  destruct (chat_at chat i) as [m|] eqn:Hm.
  + destruct (tagSource sceneId uuidv4Fn m n) as [[m2 uuid] n1] eqn:Htag.
    pose proof (LoopInv_step _ _ _ _ _ _ _ _ Hinv Hstart Hm Htag) as Hinv'.
    destruct (IH _ _ _ _ Hinv') as (chat' & n' & acc' & Heq & Hfin & Hle); [lia|].
    exists chat', n', acc'. split_and!; [done|done|].
    destruct (tagSource_spec sceneId uuidv4Fn m n)
      as (? & ? & ? & Htag' & _ & _ & _ & Hcase).
    rewrite Htag in Htag'. injection Htag' as <- <- <-.
    destruct Hcase as [(_ & _ & ->)|(_ & _ & ->)]; lia.
  + apply LoopInv_skip in Hinv.
    destruct (IH _ _ _ _ Hinv) as (chat' & n' & acc' & Heq & Hfin & Hle); [lia|].
    by exists chat', n', acc'.
Qed.
End CreateLoop.

Section Positions.
Implicit Types (chat : Chat) (scene : Scene).

Lemma findMessageIndexByUUID_unique chat u k :
(∀ a b, uuid_at chat a = Some u → uuid_at chat b = Some u → a = b) →
uuid_at chat k = Some u →
findMessageIndexByUUID chat u None = Z.of_nat k.
Proof.
intros Huniq Hk. unfold findMessageIndexByUUID. simpl.
rewrite (linearScan_first chat u 0 k Hk); [done|].
intros j Hj Hju. specialize (Huniq _ _ Hju Hk). lia.
Qed.

(** A position of a scene is a position whose message holds one of the
  scene's sources. *)
Lemma scenePositions_holds chat scene p :
p ∈ scenePositions chat scene →
∃ u k, u ∈ sourceMessageUUIDs scene ∧ p = Z.of_nat k ∧ uuid_at chat k = Some u.
Proof.
unfold scenePositions.
intros [Hne (u & -> & Hu)%list_elem_of_fmap]%list_elem_of_filter.
apply findMessageIndexByUUID_found in Hne as (k & Hk & Hat).
by exists u, k.
Qed.

Lemma scenePositions_of_holder chat scene u k :
(∀ a b, uuid_at chat a = Some u → uuid_at chat b = Some u → a = b) →
u ∈ sourceMessageUUIDs scene → uuid_at chat k = Some u →
Z.of_nat k ∈ scenePositions chat scene.
Proof.
intros Huniq Hu Hk. unfold scenePositions.
apply list_elem_of_filter. split; [lia|].
apply list_elem_of_fmap. exists u. split; [|done].
symmetry. by apply findMessageIndexByUUID_unique.
Qed.

Lemma keys_obj_set {A} k (v : A) (o : Obj A) :
k ∉ keys o → keys (obj_set k v o) = keys o ++ [k].
Proof.
induction o as [|[k' v'] o IH]; simpl; [done|].
intros [Hne Hnot]%not_elem_of_cons. simpl in Hne.
rewrite decide_False by done. simpl. f_equal. by apply IH.
Qed.
End Positions.

(** Creation over a range none of whose messages carries a scene tag keeps
    the store, the chat and the generator in a state satisfying [SceneInv]. *)
Lemma createScene_preserves (uuidv4Fn : nat → string) (n : nat)
    (cm : ChatMetadata) (chat : Chat) (start end_ : Z)
    (prompt : option string) (now : Z) :
  SceneInv uuidv4Fn n cm chat →
  (∀ j, (start ≤ j ≤ end_)%Z → getMessageScenes chat j = []) →
  let r := createScene cm chat start end_ uuidv4Fn n prompt now in
  SceneInv uuidv4Fn r.2 r.1.1.2 r.1.2.
Proof.
  intros [Hkeys Hinj Htruthy Hfc Hfs Hfk Huniq Hst Htag Hdisj] Hfree.
  unfold createScene.
  set (sceneId := uuidv4Fn n).
  set (fuel := Z.to_nat (end_ - start + 1)).
  assert (Hinit : LoopInv uuidv4Fn sceneId chat (S n) start start chat (S n) []).
  { split; try done.
    - intros k j Hk. apply Hfc. lia.
    - intros u Hu. by apply elem_of_nil in Hu. }
  destruct (createScene_loop_inv uuidv4Fn sceneId chat (S n) start Hinj
              (λ k Hk, Htruthy k ltac:(lia)) fuel start chat (S n) [] Hinit)
    as (chat' & n' & srcs & -> & [Hlen Hn Hfresh Huniq' Hold Htags Hacc] & Hle); [lia|].
  simpl.
  set (scene := mkScene sceneId None srcs None st_defined
                  (if truthy_opt prompt then prompt else None) false None now false false).
  set (o := scenes (getSceneFoldData cm)) in *.
  assert (Hsid : sceneId ∉ keys o) by (apply Hfk; lia).
  assert (Hget : ∀ sid sc, getScene (with_scenes (getSceneFoldData cm)
                              (obj_set sceneId scene o)) sid = Some sc →
            (sid = sceneId ∧ sc = scene) ∨ (sid ≠ sceneId ∧ getScene cm sid = Some sc)).
  { intros sid sc. unfold getScene. simpl. destruct (decide (sid = sceneId)) as [->|Hne].
    - rewrite obj_get_set_eq. intros [= <-]. by left.
    - rewrite obj_get_set_ne by done. intros H. by right. }
  assert (HoldU : ∀ sid sc u, getScene cm sid = Some sc → u ∈ sourceMessageUUIDs sc →
            isOld uuidv4Fn (S n) u).
  { intros sid sc u Hsc Hu. split; [by apply (Hst sid sc)|].
    intros k Hk ->. by apply (Hfs k sid sc); [lia|..]. }
  assert (Hrange : ∀ u, u ∈ srcs →
            u ≠ "" ∧ ∃ p, (start ≤ Z.of_nat p ≤ end_)%Z ∧ uuid_at chat' p = Some u
                          ∧ sceneId ∈ getMessageScenes chat' (Z.of_nat p)).
  { intros u Hu. destruct (Hacc u Hu) as (Hne & p & Hp & Hrest).
    split; [done|]. exists p. split; [unfold fuel in Hp; lia|done]. }
  split.
  - simpl. fold o. rewrite keys_obj_set by done.
    apply NoDup_app. split_and!; [done| |apply NoDup_singleton].
    intros x Hx ->%list_elem_of_singleton. done.
  - done.
  - intros k Hk. apply Htruthy. lia.
  - intros k j Hk. by apply Hfresh.
  - intros k sid sc Hk [[-> ->]|[Hne Hsc]]%Hget.
    + simpl. intros Hin. destruct (Hacc _ Hin) as (_ & p & _ & Hp & _).
      by apply (Hfresh k p).
    + apply (Hfs k sid sc); [lia|done].
  - intros k Hk. simpl. fold o. rewrite keys_obj_set by done.
    apply not_elem_of_app. split; [apply Hfk; lia|].
    intros Heq%list_elem_of_singleton. apply Hinj in Heq. lia.
  - done.
  - intros sid sc u [[-> ->]|[Hne Hsc]]%Hget Hu.
    + simpl in Hu. by apply Hrange in Hu as [? _].
    + by apply (Hst sid sc).
  - intros sid sc u p [[-> ->]|[Hne Hsc]]%Hget Hu Hp.
    + simpl in Hu. destruct (Hrange u Hu) as (Hune & q & _ & Hq & Hqs).
      by rewrite (Huniq' p q u Hune Hp Hq).
    + apply Htags. apply (Htag sid sc u p Hsc Hu).
      by apply (Hold u p (HoldU _ _ _ Hsc Hu)).
  - (* disjointness *)
    assert (Hback : ∀ sid sc p, getScene cm sid = Some sc →
              p ∈ scenePositions chat' sc →
              p ∈ scenePositions chat sc ∧ sid ∈ getMessageScenes chat p).
    { intros sid sc p Hsc (u & k & Hu & -> & Hk)%scenePositions_holds.
      pose proof (HoldU _ _ _ Hsc Hu) as Hou.
      apply (Hold u k Hou) in Hk. split.
      - apply (scenePositions_of_holder chat sc u k); [|done|done].
        intros a b. apply Huniq. by destruct Hou.
      - by apply (Htag sid sc u k). }
    assert (Hnew : ∀ p, p ∈ scenePositions chat' scene → (start ≤ p ≤ end_)%Z).
    { intros p (u & k & Hu & -> & Hk)%scenePositions_holds. simpl in Hu.
      destruct (Hrange u Hu) as (Hune & q & Hq & Hqu & _).
      by rewrite (Huniq' k q u Hune Hk Hqu). }
    intros sid1 sid2 sc1 sc2 p Hne [[-> ->]|[Hne1 Hsc1]]%Hget [[-> ->]|[Hne2 Hsc2]]%Hget
      Hp1 Hp2; [done|..].
    + apply Hnew in Hp1. apply (Hback _ _ _ Hsc2) in Hp2 as [_ Hp2].
      rewrite (Hfree p Hp1) in Hp2. by apply elem_of_nil in Hp2.
    + apply Hnew in Hp2. apply (Hback _ _ _ Hsc1) in Hp1 as [_ Hp1].
      rewrite (Hfree p Hp2) in Hp1. by apply elem_of_nil in Hp1.
    + apply (Hback _ _ _ Hsc1) in Hp1 as [Hp1 _].
      apply (Hback _ _ _ Hsc2) in Hp2 as [Hp2 _].
      by apply (Hdisj sid1 sid2 sc1 sc2 p).
Qed.

(** Scenario A in small: scene [s1] holds message 1 of a three-message
    chat; a new scene is requested over messages 0..1. *)
Definition taggedMessage (uuid : string) (tags : list string) : Message :=
  mkMessage None false false ""
    (Some (mkExtra (Some uuid) (Some tags) (Some "source") None None)).

Definition chatScenarioA : Chat :=
  [plainMessage "m0"; taggedMessage "m1" ["s1"]; plainMessage "m2"].

Definition storeScenarioA : ChatMetadata :=
  storeOf [("s1", sceneOf "s1" ["m1"] None st_defined)].

Lemma tally_length k : String.length (tally k) = k.
Proof. induction k as [|k IH]; simpl; [done|by rewrite IH]. Qed.

Lemma testUuidv4_inj j k : testUuidv4 j = testUuidv4 k → j = k.
Proof.
  unfold testUuidv4. intros [= H].
  apply (f_equal String.length) in H. by rewrite !tally_length in H.
Qed.

Lemma uuid_at_chatScenarioA j u :
  uuid_at chatScenarioA j = Some u →
  (j = 0%nat ∧ u = "m0") ∨ (j = 1%nat ∧ u = "m1") ∨ (j = 2%nat ∧ u = "m2").
Proof.
  destruct j as [|[|[|j]]]; vm_compute; intros [= <-]; auto.
Qed.

Lemma getScene_storeScenarioA sid scene :
  getScene storeScenarioA sid = Some scene →
  sid = "s1" ∧ scene = sceneOf "s1" ["m1"] None st_defined.
Proof.
  unfold getScene. simpl. case_decide; [|done]. by intros [= <-].
Qed.

Lemma sceneInv_scenarioA : SceneInv testUuidv4 0 storeScenarioA chatScenarioA.
Proof.
  split.
  - apply (bool_decide_unpack _). vm_compute. exact I.
  - apply testUuidv4_inj.
  - done.
  - intros k j _ H. apply uuid_at_chatScenarioA in H.
    destruct H as [[_ H]|[[_ H]|[_ H]]]; discriminate H.
  - intros k sid scene _ [-> ->]%getScene_storeScenarioA. simpl.
    intros H%list_elem_of_singleton. discriminate H.
  - intros k _. simpl. intros H%list_elem_of_singleton. discriminate H.
  - intros i j u _ Hi Hj.
    apply uuid_at_chatScenarioA in Hi, Hj.
    destruct Hi as [[-> ->]|[[-> ->]|[-> ->]]];
      destruct Hj as [[-> Hu]|[[-> Hu]|[-> Hu]]]; (done || discriminate Hu).
  - intros sid scene u [-> ->]%getScene_storeScenarioA. simpl.
    by intros ->%list_elem_of_singleton.
  - intros sid scene u p [-> ->]%getScene_storeScenarioA. simpl.
    intros ->%list_elem_of_singleton Hp. apply uuid_at_chatScenarioA in Hp.
    destruct Hp as [[_ Hu]|[[-> _]|[_ Hu]]]; try discriminate Hu.
    vm_compute. apply list_elem_of_here.
  - intros sid1 sid2 sc1 sc2 p Hne [-> _]%getScene_storeScenarioA
      [-> _]%getScene_storeScenarioA. done.
Qed.

(** C3: [slashSceneCreate] refuses a range that contains a position
    claimed by a scene of the store, adding no scene and retagging no
    message; and whether it refuses or creates, it keeps the store in a
    state where no two scenes claim a common position. *)
Theorem C3_creation_rejects_overlap (uuidv4Fn : nat → string) (n : nat)
    (cm : ChatMetadata) (chat : Chat) (start end_ : Z)
    (prompt : option string) (now : Z) :
  SceneInv uuidv4Fn n cm chat →
  let r := slashSceneCreate cm chat start end_ uuidv4Fn n prompt now in
  ((∃ sid scene p, getScene cm sid = Some scene ∧ p ∈ scenePositions chat scene
                   ∧ (start ≤ p ≤ end_)%Z) →
   r = ("Error: overlap", cm, chat, n))
  ∧ SceneInv uuidv4Fn r.2 r.1.1.2 r.1.2
  ∧ scenesDisjoint r.1.1.2 r.1.2.
Proof.
  intros Hinv.
  assert (Hgoal :
    let r := slashSceneCreate cm chat start end_ uuidv4Fn n prompt now in
    ((∃ sid scene p, getScene cm sid = Some scene ∧ p ∈ scenePositions chat scene
                     ∧ (start ≤ p ≤ end_)%Z) →
     r = ("Error: overlap", cm, chat, n))
    ∧ SceneInv uuidv4Fn r.2 r.1.1.2 r.1.2).
  { simpl. split.
    - intros (sid & scene & p & Hsc & (u & k & Hu & -> & Hk)%scenePositions_holds & Hp).
      apply (slashSceneCreate_rejects _ _ _ _ _ _ _ _ (Z.of_nat k) sid Hp).
      by apply (inv_tagged _ _ _ _ Hinv sid scene u k).
    - unfold slashSceneCreate.
      destruct (findOverlappingScenes cm chat start end_) eqn:Hov; simpl; [|done].
      pose proof (proj1 (findOverlappingScenes_nil _ _ _ _) Hov) as Hfree.
      pose proof (createScene_preserves uuidv4Fn n cm chat start end_ prompt now
                    Hinv Hfree) as Hpres.
      simpl in Hpres.
      by destruct (createScene cm chat start end_ uuidv4Fn n prompt now)
        as [[[scene cm'] chat'] n']. }
  simpl in *. destruct Hgoal as [Hrej Hinv']. split_and!; [done|done|].
  apply (inv_disjoint _ _ _ _ Hinv').
Qed.

Lemma C3_creation_rejects_overlap_witness :
  slashSceneCreate storeScenarioA chatScenarioA 0 1 testUuidv4 0 None 0
  = ("Error: overlap", storeScenarioA, chatScenarioA, 0%nat)
  ∧ scenesDisjoint
      (slashSceneCreate storeScenarioA chatScenarioA 2 2 testUuidv4 0 None 0).1.1.2
      (slashSceneCreate storeScenarioA chatScenarioA 2 2 testUuidv4 0 None 0).1.2.
Proof.
  split.
  - apply (C3_creation_rejects_overlap testUuidv4 0 storeScenarioA chatScenarioA 0 1
             None 0 sceneInv_scenarioA).
    exists "s1", (sceneOf "s1" ["m1"] None st_defined), 1%Z.
    split; [reflexivity|split; [|lia]].
    vm_compute. apply list_elem_of_here.
  - apply (C3_creation_rejects_overlap testUuidv4 0 storeScenarioA chatScenarioA 2 2
             None 0 sceneInv_scenarioA).
Defined.

(** The accepted creation of the witness, computed: scene [u] over
    message 2, which is tagged with it. *)
Example create_after_scenarioA :
  let r := slashSceneCreate storeScenarioA chatScenarioA 2 2 testUuidv4 0 None 0 in
  r.1.1.1 = "u"
  ∧ (sourceMessageUUIDs <$> getScene r.1.1.2 "u") = Some ["m2"]
  ∧ getMessageScenes r.1.2 2 = ["u"]
  ∧ r.2 = 1%nat.
Proof. vm_compute. done. Qed.

(** ** The worker and the scene statuses *)

Section UpdateScene.
Implicit Types (cm : ChatMetadata) (sid : string).

Lemma getScene_updateScene_eq cm sid f :
getScene (updateScene cm sid f) sid = f <$> getScene cm sid.
Proof.
unfold getScene, updateScene, obj_update. simpl.
destruct (obj_get sid (scenes (getSceneFoldData cm))) as [sc|] eqn:Hget; simpl.
- apply obj_get_set_eq.
- done.
Qed.

Lemma getScene_updateScene_ne cm sid sid' f :
sid ≠ sid' → getScene (updateScene cm sid f) sid' = getScene cm sid'.
Proof.
intros Hne. unfold getScene, updateScene, obj_update. simpl.
destruct (obj_get sid (scenes (getSceneFoldData cm))) as [sc|] eqn:Hget; simpl; [|done].
by apply obj_get_set_ne.
Qed.

Lemma getScene_updateScene cm sid sid' f :
getScene (updateScene cm sid f) sid'
= if decide (sid = sid') then f <$> getScene cm sid' else getScene cm sid'.
Proof.
case_decide as H; [subst; apply getScene_updateScene_eq|by apply getScene_updateScene_ne].
Qed.

Lemma getScene_revertQueued cm sid sid' :
getScene (revertQueued cm sid) sid'
= if decide (sid = sid')
  then (λ s, if bool_decide (status s = st_queued) then set_status st_defined s else s)
         <$> getScene cm sid'
  else getScene cm sid'.
Proof.
unfold revertQueued. case_decide as H.
- subst. destruct (getScene cm sid') as [sc|] eqn:Hsc; [|by rewrite Hsc].
  simpl. case_bool_decide.
  + by rewrite getScene_updateScene_eq, Hsc.
  + done.
- destruct (getScene cm sid) as [sc|]; [|done].
  case_bool_decide; [by apply getScene_updateScene_ne|done].
Qed.
End UpdateScene.

(** The status of a scene of the store, if it is there. *)
Definition statusOf (cm : ChatMetadata) (sid : string) : option Status :=
  status <$> getScene cm sid.

Section StatusOf.
Implicit Types (cm : ChatMetadata) (sid : string).

Lemma statusOf_updateScene cm sid sid' f st :
(∀ s, status (f s) = st) →
statusOf (updateScene cm sid f) sid'
= if decide (sid = sid') then (λ _, st) <$> statusOf cm sid' else statusOf cm sid'.
Proof.
intros Hf. unfold statusOf. rewrite getScene_updateScene.
case_decide; [|done]. destruct (getScene cm sid'); simpl; [by rewrite Hf|done].
Qed.

Lemma statusOf_updateScene_keep cm sid sid' f :
(∀ s, status (f s) = status s) →
statusOf (updateScene cm sid f) sid' = statusOf cm sid'.
Proof.
intros Hf. unfold statusOf. rewrite getScene_updateScene.
case_decide; [|done]. destruct (getScene cm sid'); simpl; [by rewrite Hf|done].
Qed.

Lemma statusOf_revertQueued cm sid sid' :
statusOf (revertQueued cm sid) sid'
= if decide (sid = sid')
  then (λ st, if bool_decide (st = st_queued) then st_defined else st) <$> statusOf cm sid'
  else statusOf cm sid'.
Proof.
unfold statusOf. rewrite getScene_revertQueued. case_decide; [|done].
destruct (getScene cm sid') as [sc|]; simpl; [|done]. by case_bool_decide.
Qed.
End StatusOf.

Definition awaitsGenerate (o : Outcome) : Prop :=
  ∃ attempt maxAttempts sourceIndices,
    o = Suspended (AwaitGenerate attempt maxAttempts sourceIndices).

Definition notSettled (p : Point) : Prop :=
  match p with
  | Settled _ => False
  | _ => True
  end.

(** What every stretch of the worker's code guarantees about statuses,
    running for scene [sid] from the metadata [cm]: the other scenes keep
    their status; the scene ends up [summarizing] only if the code stopped
    on a call of [generateRaw] (or it was [summarizing] already and was not
    touched); a suspension is on one of the awaited calls. *)
Definition Sound (cm : ChatMetadata) (sid : string) (r : Ctx * Outcome) : Prop :=
  (∀ sid', sid' ≠ sid → statusOf r.1.1.1 sid' = statusOf cm sid')
  ∧ (statusOf r.1.1.1 sid = Some st_summarizing →
     awaitsGenerate r.2 ∨ statusOf cm sid = Some st_summarizing)
  ∧ (∀ p, r.2 = Suspended p → notSettled p)
  ∧ (is_Some (statusOf r.1.1.1 sid) ↔ is_Some (statusOf cm sid)).

Section WorkerSound.
Implicit Types (cm : ChatMetadata) (sid : string) (ctx : Ctx).

Lemma Sound_unchanged cm chat n sid o :
(∀ p, o = Suspended p → notSettled p) → Sound cm sid ((cm, chat, n), o).
Proof. intros Ho. split_and!; simpl; [done|by right|done|done]. Qed.

(** Soundness passes from one stretch of code to the next. *)
Lemma Sound_trans cm cm1 sid r :
(∀ sid', sid' ≠ sid → statusOf cm1 sid' = statusOf cm sid') →
(statusOf cm1 sid = Some st_summarizing → statusOf cm sid = Some st_summarizing) →
(is_Some (statusOf cm1 sid) ↔ is_Some (statusOf cm sid)) →
Sound cm1 sid r → Sound cm sid r.
Proof.
intros Hoth Hsid Hex (H1 & H2 & H3 & H4). split_and!; [|by intuition|done|by rewrite H4].
intros sid' Hne. by rewrite H1, Hoth.
Qed.

Lemma Sound_set cm chat n sid f st o :
(∀ s, status (f s) = st) → st ≠ st_summarizing →
(∀ p, o = Suspended p → notSettled p) →
Sound cm sid ((updateScene cm sid f, chat, n), o).
Proof.
intros Hf Hst Ho. split_and!; simpl; [| |done|].
- intros sid' Hne. rewrite (statusOf_updateScene _ _ _ _ st Hf).
  by rewrite decide_False.
- rewrite (statusOf_updateScene _ _ _ _ st Hf), decide_True by done.
  destruct (statusOf cm sid); simpl; [|done]. intros [= ?]. done.
- rewrite (statusOf_updateScene _ _ _ _ st Hf), decide_True by done.
  by rewrite fmap_is_Some.
Qed.

Lemma summarizeScene_catch_sound cm chat n sid e :
Sound cm sid (summarizeScene_catch (cm, chat, n) sid e).
Proof.
unfold summarizeScene_catch. destruct (isAbortError e).
- by apply (Sound_set _ _ _ _ _ st_defined).
- by apply (Sound_set _ _ _ _ _ st_error).
Qed.

(** After the status has been set to [summarizing], the loop head either
  suspends on [generateRaw] or ends in the [catch] block. *)
Lemma afterAttempt_sound cm chat n sid ab attempt maxAttempts idx :
Sound cm sid
  (afterAttempt (cm, chat, n) sid (enterAttempt ab attempt maxAttempts idx)).
Proof.
unfold enterAttempt.
destruct (attempt <=? maxAttempts)%Z; [destruct ab|]; unfold afterAttempt;
  try apply summarizeScene_catch_sound.
split_and!; simpl; [done| |by intros p [= <-]|done].
intros _. left. by do 3 eexists.
Qed.

Lemma summarizeScene_start_sound env cm chat n sid ab :
Sound cm sid (summarizeScene_start env (cm, chat, n) sid ab).
Proof.
unfold summarizeScene_start.
destruct (negb (hasGenerateRaw env)); [by apply Sound_unchanged|].
destruct (getScene cm sid) as [scene|] eqn:Hsc; [|by apply Sound_unchanged].
destruct (negb _); [by apply Sound_unchanged|].
set (cm1 := updateScene cm sid _).
assert (Hoth : ∀ sid', sid' ≠ sid → statusOf cm1 sid' = statusOf cm sid').
{ intros sid' Hne. unfold cm1.
  rewrite (statusOf_updateScene _ _ _ _ st_summarizing) by done.
  by rewrite decide_False. }
assert (Hex : is_Some (statusOf cm1 sid) ↔ is_Some (statusOf cm sid)).
{ unfold cm1. rewrite (statusOf_updateScene _ _ _ _ st_summarizing) by done.
  rewrite decide_True by done. by rewrite fmap_is_Some. }
assert (Hfin : ∀ r, Sound cm1 sid r →
          (statusOf r.1.1.1 sid = Some st_summarizing → awaitsGenerate r.2) →
          Sound cm sid r).
{ intros r (H1 & H2 & H3 & H4) Hr.
  split_and!; [|by left; apply Hr|done|by rewrite H4].
  intros sid' Hne. by rewrite H1, Hoth. }
assert (Hcatch : ∀ e, Sound cm sid (summarizeScene_catch (cm1, chat, n) sid e)).
{ intros e. apply Hfin; [apply summarizeScene_catch_sound|].
  unfold summarizeScene_catch. destruct (isAbortError e); simpl.
  - rewrite (statusOf_updateScene _ _ _ _ st_defined), decide_True by done.
    destruct (statusOf cm1 sid); simpl; [|done]. intros [= ?].
  - rewrite (statusOf_updateScene _ _ _ _ st_error), decide_True by done.
    destruct (statusOf cm1 sid); simpl; [|done]. intros [= ?]. }
destruct ab; [apply Hcatch|].
destruct (length _ =? 0)%nat; [apply Hcatch|].
unfold enterAttempt. destruct (1 <=? _)%Z; unfold afterAttempt; [|apply Hcatch].
split_and!; simpl; [done| |by intros p [= <-]|done].
intros _. left. by do 3 eexists.
Qed.

Lemma summarizeScene_complete_sound env cm chat n sid idx summary :
Sound cm sid (summarizeScene_complete env (cm, chat, n) sid idx summary).
Proof.
unfold summarizeScene_complete.
apply (Sound_set _ _ _ _ _ st_completed); [done|done|by intros p [= <-]].
Qed.

Lemma summarizeScene_resolved_sound env cm chat n sid ab attempt maxAttempts idx result :
Sound cm sid
  (summarizeScene_resolved env (cm, chat, n) sid ab attempt maxAttempts idx result).
Proof.
unfold summarizeScene_resolved.
destruct ab; [apply summarizeScene_catch_sound|].
destruct (_ && _); [|apply afterAttempt_sound].
destruct (_ && _); [apply summarizeScene_catch_sound|apply summarizeScene_complete_sound].
Qed.

Lemma summarizeScene_rejected_sound cm chat n sid ab attempt maxAttempts idx e :
Sound cm sid
  (summarizeScene_rejected (cm, chat, n) sid ab attempt maxAttempts idx e).
Proof.
unfold summarizeScene_rejected.
destruct ab; [apply summarizeScene_catch_sound|].
destruct (_ || _); [apply summarizeScene_catch_sound|apply afterAttempt_sound].
Qed.

Lemma prepareForRetry_sound cm chat n sid :
Sound cm sid (prepareForRetry (cm, chat, n) sid).
Proof.
unfold prepareForRetry.
destruct (getScene cm sid); [|by apply Sound_unchanged].
apply (Sound_set _ _ _ _ _ st_defined); [done|done|by intros p [= <-]].
Qed.

Lemma prepareForRetry_outcome cm chat n sid ctx' o :
prepareForRetry (cm, chat, n) sid = (ctx', o) →
(o = Returned ∧ ctx' = (cm, chat, n) ∧ getScene cm sid = None)
∨ (o = Suspended AwaitRetrySave ∧ ∃ st, statusOf cm sid = Some st
     ∧ statusOf ctx'.1.1 sid = Some st_defined).
Proof.
unfold prepareForRetry. destruct (getScene cm sid) as [scene|] eqn:Hsc.
- intros [= <- <-]. right. split; [done|]. exists (status scene).
  unfold statusOf. simpl. rewrite getScene_updateScene_eq, Hsc. done.
- intros [= <- <-]. by left.
Qed.

Lemma worker_sound env cm chat n sid ab :
Sound cm sid (worker env (cm, chat, n) sid ab).
Proof.
unfold worker.
destruct (getScene cm sid) as [scene|] eqn:Hsc; [|apply summarizeScene_start_sound].
destruct (needsRetry scene); [|apply summarizeScene_start_sound].
set (cm0 := updateScene cm sid (set_needsRetry false)).
assert (H0 : ∀ sid', statusOf cm0 sid' = statusOf cm sid').
{ intros sid'. by apply statusOf_updateScene_keep. }
destruct (prepareForRetry (cm0, chat, n) sid) as [ctx1 o] eqn:Hprep.
pose proof (prepareForRetry_sound cm0 chat n sid) as Hs. rewrite Hprep in Hs.
apply (Sound_trans cm cm0); [by intros; rewrite H0|by rewrite H0|by rewrite H0|].
destruct o as [p| |e]; try done.
apply prepareForRetry_outcome in Hprep as [(_ & -> & _)|(Hcontra & _)]; [|done].
apply summarizeScene_start_sound.
Qed.

Lemma resumeWorker_sound env cm chat n sid ab p answer r :
resumeWorker env (cm, chat, n) sid ab p answer = Some r → Sound cm sid r.
Proof.
destruct p as [|attempt maxAttempts idx| |err], answer as [[res|]|e]; simpl;
  intros [= <-];
  try apply summarizeScene_start_sound;
  try apply summarizeScene_resolved_sound;
  try apply summarizeScene_rejected_sound;
  try apply summarizeScene_catch_sound;
  by apply Sound_unchanged.
Qed.
End WorkerSound.

(** ** C5: errors of the summarizer that are not retried *)

(** Three scenes over a three-message chat, default settings. *)
Definition queueEnv : Env := mkEnv testUuidv4 None true.
Definition queueChat : list Message :=
  [plainMessage "a"; plainMessage "b"; plainMessage "c"].
Definition queueStore : ChatMetadata :=
  storeOf [("s1", sceneOf "s1" ["a"] None st_defined);
           ("s2", sceneOf "s2" ["b"] None st_defined);
           ("s3", sceneOf "s3" ["c"] None st_error)].

(** C5, as stated, fails: an error whose message contains "rate limit"
    (and none of the listed patterns) is retried. After the first failure
    the scene is still [summarizing] and the second of three attempts is
    under way; it reaches [error] only with the third failure. *)
Lemma C5_rate_limit_is_retried :
  let err := mkError "Error" "rate limit exceeded" in
  let w0 := initialWorld queueStore queueChat 0 in
  includes "rate limit" (err_message err) = true
  ∧ (∃ w, run queueEnv w0 [EvAdd "s1"; EvSettle 0 (inr err)] = Some w
          ∧ statusOf (w_chatMetadata w) "s1" = Some st_summarizing
          ∧ task_point <$> w_tasks w = [AwaitGenerate 2 3 [0%Z]])
  ∧ (∃ w, run queueEnv w0 [EvAdd "s1"; EvSettle 0 (inr err); EvSettle 0 (inr err);
                           EvSettle 0 (inr err)] = Some w
          ∧ statusOf (w_chatMetadata w) "s1" = Some st_error
          ∧ (lastError <$> getScene (w_chatMetadata w) "s1")
            = Some (Some "rate limit exceeded")).
Proof.
  split; [reflexivity|]. split; eexists; (split; [vm_compute; reflexivity|]);
    split; vm_compute; reflexivity.
Qed.

(** C5 (amended): if the summarizer throws an error whose lower-cased
    text matches the non-retryable pattern (for a rate limit: contains the
    status code 429), the scene goes to [error] on that failure, whatever
    the attempt, with the text recorded in [lastError] and no further call
    of the summarizer. *)
Theorem C5_nonretryable_fails_at_once (env : Env) (w w' : World) (task : Task)
    (attempt maxAttempts : Z) (sourceIndices : list Z) (err : JsError) :
  w_tasks w = [task] →
  task_point task = AwaitGenerate attempt maxAttempts sourceIndices →
  aborted w (task_signal task) = false →
  is_Some (getScene (w_chatMetadata w) (task_sceneId task)) →
  isAbortError err = false →
  nonRetryablePattern (toLowerCase (errorText err)) = true →
  step env w (EvSettle 0 (inr err)) = Some w' →
  (∃ scene, getScene (w_chatMetadata w') (task_sceneId task) = Some scene
            ∧ status scene = st_error
            ∧ lastError scene = Some (errorText err))
  ∧ w_tasks w' = [].
Proof.
  intros Htasks Hpoint Hab [scene Hsc] Hname Hpat.
  unfold step, settle. rewrite Htasks. simpl. rewrite Hpoint, Hab. simpl.
  unfold summarizeScene_rejected. rewrite Hpat. simpl.
  unfold summarizeScene_catch, w_ctx. rewrite Hname. simpl.
  intros [= <-]. unfold drain. simpl. split; [|done].
  rewrite getScene_updateScene_eq, Hsc. simpl. by eexists.
Qed.

(** The world once scene [s1] has been enqueued and its worker awaits the
    first answer of the summarizer. *)
Definition worldAwaitingS1 : World :=
  Eval vm_compute in
    default (initialWorld queueStore queueChat 0)
      (run queueEnv (initialWorld queueStore queueChat 0) [EvAdd "s1"]).

Definition error429 : JsError := mkError "Error" "HTTP 429 Too Many Requests (rate limit)".

Lemma C5_nonretryable_fails_at_once_witness :
  run queueEnv (initialWorld queueStore queueChat 0) [EvAdd "s1"] = Some worldAwaitingS1
  ∧ ∃ w', step queueEnv worldAwaitingS1 (EvSettle 0 (inr error429)) = Some w'
    ∧ (∃ scene, getScene (w_chatMetadata w') "s1" = Some scene
                ∧ status scene = st_error
                ∧ lastError scene = Some (errorText error429))
    ∧ w_tasks w' = [].
Proof.
  split; [vm_compute; reflexivity|].
  eexists. split; [vm_compute; reflexivity|].
  apply (C5_nonretryable_fails_at_once queueEnv worldAwaitingS1 _
           (mkTask "s1" 0 (AwaitGenerate 1 3 [0%Z])) 1 3 [0%Z] error429);
    [reflexivity|reflexivity|reflexivity|by eexists|reflexivity|reflexivity|].
  vm_compute. reflexivity.
Defined.

(** ** C9: single concurrency *)

(** What holds of the queue whenever a task of the event loop has run
    its synchronous code: at most one worker call is in flight, and it
    belongs to the active scene; only the scene of a worker call that
    awaits [generateRaw] is [summarizing]; the pending scenes are
    [queued]. *)
Record QueueInv (w : World) : Prop := mkQueueInv {
  qi_tasks :
    w_tasks w = [] ∨
    ∃ t, w_tasks w = [t]
         ∧ _activeId (w_queue w) = Some (task_sceneId t)
         ∧ _activeAbort (w_queue w) = Some (task_signal t)
         ∧ _processing (w_queue w) = true ∧ w_timers w = 0%nat;
  qi_idle :
    w_tasks w = [] → _activeId (w_queue w) = None ∧ _activeAbort (w_queue w) = None;
  qi_timers :
    (w_timers w ≤ 1)%nat ∧ (w_timers w = 1%nat → _processing (w_queue w) = true);
  qi_stopped :
    _processing (w_queue w) = false →
    _pending (w_queue w) = [] ∧ w_timers w = 0%nat ∧ w_tasks w = [];
  qi_pending_nodup : NoDup (_pending (w_queue w));
  qi_active_not_pending :
    ∀ sid, _activeId (w_queue w) = Some sid → sid ∉ _pending (w_queue w);
  qi_summarizing :
    ∀ sid, statusOf (w_chatMetadata w) sid = Some st_summarizing →
      ∃ t attempt maxAttempts idx,
        w_tasks w = [t] ∧ task_sceneId t = sid
        ∧ task_point t = AwaitGenerate attempt maxAttempts idx;
  qi_queued :
    ∀ sid st, sid ∈ _pending (w_queue w) →
      statusOf (w_chatMetadata w) sid = Some st → st = st_queued
}.

(** Between two tasks of the event loop no worker call is left settled. *)
Definition Quiescent (w : World) : Prop :=
  ∀ t, t ∈ w_tasks w → notSettled (task_point t).

Arguments worker : simpl never.
Arguments _processNext_catch : simpl never.
Arguments resumeWorker : simpl never.
Arguments updateScene : simpl never.
Arguments revertQueued : simpl never.
Arguments statusOf : simpl never.
Arguments getScene : simpl never.

Section QueueSteps.
Variable env : Env.

Lemma with_tasks_same w : with_tasks (w_tasks w) w = w.
Proof. by destruct w. Qed.

Lemma pointOf_awaitsGenerate o a m i :
pointOf o = AwaitGenerate a m i → o = Suspended (AwaitGenerate a m i).
Proof. destruct o as [p| |e]; simpl; [by intros ->|done|done]. Qed.

Lemma awaitsGenerate_pointOf o :
awaitsGenerate o → ∃ a m i, pointOf o = AwaitGenerate a m i.
Proof. intros (a & m & i & ->). by exists a, m, i. Qed.

(** [_processNext] started with no worker call in flight and no timer
  pending. *)
Lemma processNext_inv q cm chat n cs :
NoDup (_pending q) →
(∀ sid, statusOf cm sid ≠ Some st_summarizing) →
(∀ sid st, sid ∈ _pending q → statusOf cm sid = Some st → st = st_queued) →
QueueInv (_processNext env (mkWorld cm chat n cs q [] 0)).
Proof.
intros Hnd Hnone Hq. unfold _processNext. simpl.
destruct (_pending q) as [|sid rest] eqn:Hp.
- split; simpl; try done; try (by left); try (by split).
  + split; [lia|]. intros H; lia.
  + intros sid H. by apply Hnone in H.
- unfold w_ctx. simpl.
  pose proof (worker_sound env cm chat n sid false) as (Hoth & Hsum & Hsusp & _).
  destruct (worker env (cm, chat, n) sid false) as [[[cm' chat'] n'] o]. simpl in *.
  apply NoDup_cons in Hnd as [Hsid Hnd].
  split; simpl; try done.
  + right. eexists. by split_and!.
  + split; [lia|]. intros H; lia.
  + intros s [= <-]. done.
  + intros s Hs. destruct (decide (s = sid)) as [->|Hne].
    * destruct (Hsum Hs) as [Hg|Hbefore]; [|by apply Hnone in Hbefore].
      apply awaitsGenerate_pointOf in Hg as (a & m & i & Hg).
      by exists (mkTask sid (length cs) (pointOf o)), a, m, i.
    * rewrite Hoth in Hs by done. by apply Hnone in Hs.
  + intros s st Hs Hst. assert (s ≠ sid) by (intros ->; done).
    rewrite Hoth in Hst by done. apply (Hq s st); [|done].
    by apply list_elem_of_further.
Qed.
End QueueSteps.

Section QueueCalls.
Variable env : Env.

Lemma statusOf_queued cm sid sid' :
statusOf (updateScene cm sid (set_status st_queued)) sid'
= if decide (sid = sid') then (λ _, st_queued) <$> statusOf cm sid' else statusOf cm sid'.
Proof. by apply statusOf_updateScene. Qed.

Lemma add_inv w sid : QueueInv w → QueueInv (add env w sid).
Proof.
destruct w as [cm chat n cs q ts k].
intros [Htasks Hidle Htimers Hstopped Hnd Hact Hsum Hqd]. simpl in *.
unfold add. simpl.
destruct (bool_decide (sid ∈ _pending q) || bool_decide (_activeId q = Some sid))
  eqn:Hdup; [by split|].
apply orb_false_iff in Hdup as [Hnp Hna].
apply bool_decide_eq_false in Hnp, Hna.
assert (Hnd' : NoDup (_pending q ++ [sid])).
{ apply NoDup_app. split_and!; [done| |apply NoDup_singleton].
  intros x Hx ->%list_elem_of_singleton. done. }
assert (Hsum' : ∀ s, statusOf (updateScene cm sid (set_status st_queued)) s
                     = Some st_summarizing → statusOf cm s = Some st_summarizing).
{ intros s. rewrite statusOf_queued. case_decide; [|done].
  destruct (statusOf cm s); simpl; [|done]. intros [= ?]. }
assert (Hqd' : ∀ s st, s ∈ _pending q ++ [sid] →
          statusOf (updateScene cm sid (set_status st_queued)) s = Some st →
          st = st_queued).
{ intros s st Hs. rewrite statusOf_queued. case_decide as Heq.
  - destruct (statusOf cm s); simpl; [|done]. by intros [= <-].
  - apply elem_of_app in Hs as [Hs|Hs%list_elem_of_singleton]; [|done].
    by apply Hqd. }
destruct (_processing q) eqn:Hproc; simpl.
- split; simpl; try done.
  + intros s Hs. apply not_elem_of_app. split; [by apply Hact|].
    intros ->%list_elem_of_singleton. done.
  + intros s Hs. apply Hsum. by apply Hsum'.
- destruct (Hstopped eq_refl) as (Hp & -> & ->).
  apply processNext_inv; simpl; [done| |done].
  intros s Hs. apply Hsum' in Hs. apply Hsum in Hs as (t & _ & _ & _ & Ht & _).
  done.
Qed.

Lemma addAll_inv w sids : QueueInv w → QueueInv (addAll env w sids).
Proof.
intros Hinv. unfold addAll.
set (w1 := with_queue _ w).
assert (Hinv1 : QueueInv w1).
{ destruct w as [cm chat n cs q ts k]. destruct Hinv. by split. }
clearbody w1. clear Hinv. revert w1 Hinv1.
induction sids as [|sid sids IH]; intros w1 Hinv1; simpl; [done|].
apply IH. by apply add_inv.
Qed.

Lemma elem_of_removeFirst x y l :
NoDup l → (y ∈ removeFirst x l ↔ y ∈ l ∧ y ≠ x).
Proof.
induction l as [|z l IH]; simpl.
- intros _. split; [by intros H%elem_of_nil|by intros [H%elem_of_nil _]].
- intros [Hz Hnd]%NoDup_cons. case_decide as Hzx.
  + subst z. rewrite elem_of_cons. split.
    * intros Hy. split; [by right|]. by intros ->.
    * by intros [[->|?] ?].
  + rewrite !elem_of_cons, IH by done. split.
    * intros [->|[? ?]]; [by split; [left|]|by split; [right|]].
    * intros [[->|?] ?]; [by left|by right].
Qed.

Lemma NoDup_removeFirst x l : NoDup l → NoDup (removeFirst x l).
Proof.
induction l as [|z l IH]; simpl; [done|].
intros [Hz Hnd]%NoDup_cons. case_decide; [done|].
apply NoDup_cons. split; [|by apply IH].
rewrite elem_of_removeFirst by done. by intros [? _].
Qed.

Lemma abortActive_inv w : QueueInv w → QueueInv (abortActive w).
Proof.
destruct w as [cm chat n cs q ts k]. intros Hinv. unfold abortActive. simpl.
destruct (_activeAbort q); [|done]. destruct Hinv. by split.
Qed.

Lemma revertQueued_summarizing cm sid s :
statusOf (revertQueued cm sid) s = Some st_summarizing →
statusOf cm s = Some st_summarizing.
Proof.
rewrite statusOf_revertQueued. case_decide; [|done].
destruct (statusOf cm s) as [st|]; simpl; [|done].
case_bool_decide; [done|by intros [= ->]].
Qed.

Lemma revertAll_summarizing l : ∀ cm s,
statusOf (fold_left revertQueued l cm) s = Some st_summarizing →
statusOf cm s = Some st_summarizing.
Proof.
induction l as [|sid l IH]; intros cm s; simpl; [done|].
intros H%IH. by apply revertQueued_summarizing in H.
Qed.

Lemma cancel_inv w sid : QueueInv w → QueueInv (cancel w sid).
Proof.
intros Hinv. unfold cancel.
case_bool_decide as Hp; [|case_bool_decide; [by apply abortActive_inv|done]].
destruct w as [cm chat n cs q ts k].
destruct Hinv as [Htasks Hidle Htimers Hstopped Hnd Hact Hsum Hqd]. simpl in *.
split; simpl; try done.
- intros Hproc. destruct (Hstopped Hproc) as (Hnil & _). rewrite Hnil in Hp.
  by apply elem_of_nil in Hp.
- by apply NoDup_removeFirst.
- intros s Hs. rewrite elem_of_removeFirst by done. intros [Hin _].
  by apply (Hact s).
- intros s Hs. apply Hsum. by apply revertQueued_summarizing in Hs.
- intros s st. rewrite elem_of_removeFirst by done. intros [Hin Hne].
  rewrite statusOf_revertQueued, decide_False by done. by apply Hqd.
Qed.

Lemma cancelAll_inv w : QueueInv w → QueueInv (cancelAll w).
Proof.
intros Hinv%abortActive_inv. unfold cancelAll.
destruct (abortActive w) as [cm chat n cs q ts k].
destruct Hinv as [Htasks Hidle Htimers Hstopped Hnd Hact Hsum Hqd]. simpl in *.
split; simpl; try done.
- intros Hproc. by destruct (Hstopped Hproc) as (_ & ? & ?).
- apply NoDup_nil_2.
- intros s _. apply not_elem_of_nil.
- intros s Hs. apply Hsum. by apply revertAll_summarizing in Hs.
- intros s st Hs. by apply elem_of_nil in Hs.
Qed.
End QueueCalls.

Section QueueEvents.
Variable env : Env.

(** Resumed by the answer of [generateRaw], the worker leaves its scene
  [summarizing] only by calling [generateRaw] again. *)
Definition Strict (sid : string) (r : Ctx * Outcome) : Prop :=
statusOf r.1.1.1 sid = Some st_summarizing → awaitsGenerate r.2.

Lemma summarizeScene_catch_strict cm chat n sid e :
Strict sid (summarizeScene_catch (cm, chat, n) sid e).
Proof.
unfold Strict, summarizeScene_catch. destruct (isAbortError e); simpl.
- rewrite (statusOf_updateScene _ _ _ _ st_defined), decide_True by done.
  destruct (statusOf cm sid); simpl; [|done]. intros [= ?].
- rewrite (statusOf_updateScene _ _ _ _ st_error), decide_True by done.
  destruct (statusOf cm sid); simpl; [|done]. intros [= ?].
Qed.

Lemma afterAttempt_strict cm chat n sid ab attempt maxAttempts idx :
Strict sid (afterAttempt (cm, chat, n) sid (enterAttempt ab attempt maxAttempts idx)).
Proof.
unfold enterAttempt.
destruct (attempt <=? maxAttempts)%Z; [destruct ab|]; unfold afterAttempt;
  try apply summarizeScene_catch_strict.
intros _. by do 3 eexists.
Qed.

Lemma resumeWorker_generate_strict cm chat n sid ab attempt maxAttempts idx answer r :
resumeWorker env (cm, chat, n) sid ab (AwaitGenerate attempt maxAttempts idx) answer
= Some r →
Strict sid r.
Proof.
unfold resumeWorker. destruct answer as [result|e]; intros [= <-].
- unfold summarizeScene_resolved.
  destruct ab; [apply summarizeScene_catch_strict|].
  destruct (_ && _); [|apply afterAttempt_strict].
  destruct (_ && _); [apply summarizeScene_catch_strict|].
  unfold Strict, summarizeScene_complete. simpl.
  rewrite (statusOf_updateScene _ _ _ _ st_completed), decide_True by done.
  destruct (statusOf cm sid); simpl; [|done]. intros [= ?].
- unfold summarizeScene_rejected.
  destruct ab; [apply summarizeScene_catch_strict|].
  destruct (_ || _); [apply summarizeScene_catch_strict|apply afterAttempt_strict].
Qed.

Lemma settle_inv w i answer w' :
QueueInv w → settle env w i answer = Some w' → QueueInv w'.
Proof.
destruct w as [cm chat n cs q ts k].
intros [Htasks Hidle Htimers Hstopped Hnd Hact Hsum Hqd]. simpl in *.
unfold settle. simpl.
destruct Htasks as [->|(t & -> & Ha & Hab & Hproc & ->)]; [by rewrite lookup_nil|].
destruct i as [|i]; simpl; [|done].
unfold w_ctx, aborted. simpl.
destruct (resumeWorker env (cm, chat, n) (task_sceneId t)
            (default false (cs !! task_signal t)) (task_point t) answer)
  as [[[[cm' chat'] n'] o]|] eqn:Hres; [|done].
intros [= <-].
pose proof (resumeWorker_sound _ _ _ _ _ _ _ _ _ Hres) as (Hoth & Hsum' & _ & _).
simpl in *.
split; simpl; try done.
- right. eexists. by split_and!.
- intros Hp. congruence.
- intros s Hs. destruct (decide (s = task_sceneId t)) as [->|Hne].
  + assert (Hg : awaitsGenerate o).
    { destruct (task_point t) as [|a m ix| |err] eqn:Hpt.
      - destruct (Hsum' Hs) as [?|Hb]; [done|].
        apply Hsum in Hb as (t0 & ? & ? & ? & [= <-] & _ & Hp). congruence.
      - by apply (resumeWorker_generate_strict _ _ _ _ _ _ _ _ _ _ Hres).
      - destruct (Hsum' Hs) as [?|Hb]; [done|].
        apply Hsum in Hb as (t0 & ? & ? & ? & [= <-] & _ & Hp). congruence.
      - destruct (Hsum' Hs) as [?|Hb]; [done|].
        apply Hsum in Hb as (t0 & ? & ? & ? & [= <-] & _ & Hp). congruence. }
    apply awaitsGenerate_pointOf in Hg as (a & m & ix & Hg).
    by eexists _, a, m, ix.
  + rewrite Hoth in Hs by done.
    apply Hsum in Hs as (t0 & ? & ? & ? & [= <-] & Hsid & _). done.
- intros s st Hs Hst. assert (s ≠ task_sceneId t).
  { intros ->. by apply (Hact _ Ha). }
  rewrite Hoth in Hst by done. by apply (Hqd s).
Qed.

Lemma timer_inv w k :
QueueInv w → w_timers w = S k → QueueInv (_processNext env (with_timers k w)).
Proof.
destruct w as [cm chat n cs q ts k0].
intros [Htasks Hidle Htimers Hstopped Hnd Hact Hsum Hqd] Hk. simpl in *. subst k0.
assert (k = 0)%nat as -> by lia.
destruct Htasks as [->|(t & _ & _ & _ & _ & ?)]; [|done].
unfold with_timers. simpl. apply processNext_inv; [done| |done].
intros s Hs. apply Hsum in Hs as (t & _ & _ & _ & Ht & _). done.
Qed.

Lemma drain_inv w : QueueInv w → QueueInv (drain w) ∧ Quiescent (drain w).
Proof.
destruct w as [cm chat n cs q ts k].
intros [Htasks Hidle Htimers Hstopped Hnd Hact Hsum Hqd]. simpl in *.
unfold drain. simpl.
destruct Htasks as [->|(t & -> & Ha & Hab & Hproc & ->)]; simpl.
- split; [by split; simpl; try done; left|].
  intros t Ht. by apply elem_of_nil in Ht.
- unfold drainTask. destruct (task_point t) as [|a m ix| |err] eqn:Hpt; simpl.
  1-3: split; [split; simpl; try done; right; eexists; by split_and!|];
       intros t0 ->%list_elem_of_singleton; by rewrite Hpt.
  split; [|intros t0 Ht0; by apply elem_of_nil in Ht0].
  assert (Hnone : ∀ s, statusOf cm s ≠ Some st_summarizing).
  { intros s Hs. apply Hsum in Hs as (t0 & ? & ? & ? & [= <-] & _ & Hp). congruence. }
  set (cm' := _processNext_catch cm (task_sceneId t) err).
  assert (Hcm : ∀ s, statusOf cm' s = Some st_summarizing → False).
  { intros s. unfold cm', _processNext_catch. destruct err as [e|]; [|apply Hnone].
    destruct (isAbortError e); [|apply Hnone].
    destruct (getScene cm (task_sceneId t)); [|apply Hnone].
    case_bool_decide; [|apply Hnone].
    rewrite (statusOf_updateScene _ _ _ _ st_defined) by done.
    case_decide; [|apply Hnone]. destruct (statusOf cm s); simpl; [|done].
    intros [= ?]. }
  assert (Hother : ∀ s, s ≠ task_sceneId t → statusOf cm' s = statusOf cm s).
  { intros s Hs. unfold cm', _processNext_catch. destruct err as [e|]; [|done].
    destruct (isAbortError e); [|done].
    destruct (getScene cm (task_sceneId t)); [|done].
    case_bool_decide; [|done].
    rewrite (statusOf_updateScene _ _ _ _ st_defined) by done.
    by rewrite decide_False. }
  split; simpl; try done.
  + by left.
  + intros Hp. congruence.
  + intros s Hs. by apply Hcm in Hs.
  + intros s st Hs Hst. assert (s ≠ task_sceneId t).
    { intros ->. by apply (Hact _ Ha). }
    rewrite Hother in Hst by done. by apply (Hqd s).
Qed.

(** Every task of the event loop keeps the invariant. *)
Lemma step_inv w ev w' :
QueueInv w → step env w ev = Some w' → QueueInv w' ∧ Quiescent w'.
Proof.
intros Hinv. destruct ev as [sid|sids|sid| |i answer|]; simpl.
- intros [= <-]. by apply drain_inv, add_inv.
- intros [= <-]. by apply drain_inv, addAll_inv.
- intros [= <-]. by apply drain_inv, cancel_inv.
- intros [= <-]. by apply drain_inv, cancelAll_inv.
- destruct (settle env w i answer) as [w1|] eqn:Hs; simpl; [|done].
  intros [= <-]. apply drain_inv. by apply (settle_inv w i answer).
- destruct (w_timers w) as [|k] eqn:Hk; [done|].
  intros [= <-]. by apply drain_inv, timer_inv.
Qed.

Lemma run_inv evs : ∀ w w',
QueueInv w → run env w evs = Some w' → QueueInv w'.
Proof.
induction evs as [|ev evs IH]; intros w w' Hinv; simpl.
- by intros [= <-].
- destruct (step env w ev) as [w1|] eqn:Hstep; [|done].
  apply IH. by apply (step_inv w ev).
Qed.

Lemma initialWorld_inv cm chat n :
(∀ sid, statusOf cm sid ≠ Some st_summarizing) →
QueueInv (initialWorld cm chat n).
Proof.
intros Hnone. split; simpl; try done.
- by left.
- split; [lia|done].
- apply NoDup_nil_2.
- intros sid Hs. by apply Hnone in Hs.
- intros sid st Hs. by apply elem_of_nil in Hs.
Qed.
End QueueEvents.

(** C9: from a freshly loaded chat none of whose scenes is [summarizing],
    after any run of queue calls, settled external calls and timers: at
    most one scene is [summarizing], it is the active scene, its worker is
    the only one in flight, and every pending scene of the store is still
    [queued]. *)
Theorem C9_single_concurrency (env : Env) (cm : ChatMetadata) (chat : list Message)
    (n : nat) (evs : list Event) (w : World) :
  (∀ sid, statusOf cm sid ≠ Some st_summarizing) →
  run env (initialWorld cm chat n) evs = Some w →
  (∀ sid1 sid2,
     statusOf (w_chatMetadata w) sid1 = Some st_summarizing →
     statusOf (w_chatMetadata w) sid2 = Some st_summarizing → sid1 = sid2)
  ∧ (∀ sid, statusOf (w_chatMetadata w) sid = Some st_summarizing →
       _activeId (w_queue w) = Some sid)
  ∧ (∀ sid st, sid ∈ _pending (w_queue w) →
       statusOf (w_chatMetadata w) sid = Some st → st = st_queued)
  ∧ (length (w_tasks w) ≤ 1)%nat.
Proof.
  intros Hnone Hrun.
  pose proof (run_inv env evs _ _ (initialWorld_inv cm chat n Hnone) Hrun)
    as [Htasks Hidle Htimers Hstopped Hnd Hact Hsum Hqd].
  split_and!.
  - intros sid1 sid2 (t1 & ? & ? & ? & Ht1 & <- & _)%Hsum
      (t2 & ? & ? & ? & Ht2 & <- & _)%Hsum.
    rewrite Ht1 in Ht2. by injection Ht2 as ->.
  - intros sid (t & ? & ? & ? & Ht & <- & _)%Hsum.
    destruct Htasks as [Hnil|(t' & Ht' & Ha & _)]; [by rewrite Hnil in Ht|].
    rewrite Ht in Ht'. by injection Ht' as <-.
  - done.
  - destruct Htasks as [->|(t & -> & _)]; simpl; lia.
Qed.

Lemma C9_single_concurrency_witness :
  ∃ w, run queueEnv (initialWorld queueStore queueChat 0)
         [EvAddAll ["s1"; "s2"; "s3"]; EvSettle 0 (inl (Some "A summary."));
          EvSettle 0 (inl None); EvTimer] = Some w
  ∧ statusOf (w_chatMetadata w) "s2" = Some st_summarizing
  ∧ ((∀ sid1 sid2,
        statusOf (w_chatMetadata w) sid1 = Some st_summarizing →
        statusOf (w_chatMetadata w) sid2 = Some st_summarizing → sid1 = sid2)
     ∧ (∀ sid, statusOf (w_chatMetadata w) sid = Some st_summarizing →
          _activeId (w_queue w) = Some sid)
     ∧ (∀ sid st, sid ∈ _pending (w_queue w) →
          statusOf (w_chatMetadata w) sid = Some st → st = st_queued)
     ∧ (length (w_tasks w) ≤ 1)%nat).
Proof.
  eexists. split; [vm_compute; reflexivity|]. split; [vm_compute; reflexivity|].
  eapply (C9_single_concurrency queueEnv queueStore queueChat 0
            [EvAddAll ["s1"; "s2"; "s3"]; EvSettle 0 (inl (Some "A summary."));
             EvSettle 0 (inl None); EvTimer]).
  - intros sid. unfold statusOf, getScene. simpl.
    repeat (case_decide; [simpl; discriminate|]). simpl. discriminate.
  - vm_compute. reflexivity.
Defined.

(** ** C8: cancelAll while a scene is active *)

Section CancelAll.
Variable env : Env.






End CancelAll.

Arguments add : simpl never.
Arguments drain : simpl never.
Arguments step : simpl never.

(** Reduce the field updates of a [World] written out as a record. *)
Ltac wsimpl :=
  unfold with_ctx, with_metadata, with_controllers, with_queue, with_tasks,
    with_timers, w_ctx; simpl.

Section ScenarioD.
Variable env : Env.

(** [add] on an idle queue starts the worker at once. *)
Lemma add_idle cm chat n cs bt bd sid :
add env (mkWorld cm chat n cs (mkQueue [] None None false bt bd) [] 0) sid
= let r := worker env (updateScene cm sid (set_status st_queued), chat, n) sid false in
  mkWorld r.1.1.1 r.1.1.2 r.1.2 (cs ++ [false])
    (mkQueue [] (Some sid) (Some (length cs)) true (S bt) bd)
    [mkTask sid (length cs) (pointOf r.2)] 0.
Proof.
unfold add. simpl.
unfold _processNext, w_ctx. simpl.
by destruct (worker env (updateScene cm sid (set_status st_queued), chat, n) sid false)
  as [[[cm' chat'] n'] o].
Qed.

(** [add] on a busy queue only appends. *)
Lemma add_busy cm chat n cs pending active ab bt bd ts k sid :
sid ∉ pending → active ≠ Some sid →
add env (mkWorld cm chat n cs (mkQueue pending active ab true bt bd) ts k) sid
= mkWorld (updateScene cm sid (set_status st_queued)) chat n cs
    (mkQueue (pending ++ [sid]) active ab true (S bt) bd) ts k.
Proof.
intros Hp Ha. unfold add. simpl.
by rewrite (bool_decide_eq_false_2 _ Hp), (bool_decide_eq_false_2 _ Ha).
Qed.








End ScenarioD.


Section CancelWindow.
Variable env : Env.







End CancelWindow.




(** The same with a single scene enqueued by [add]: [cancelAll] arrives
    when the summary has been inserted and the worker awaits [saveChat],
    and the scene stays [completed]. *)
Example cancelAll_after_summary :
  ∃ w, run queueEnv (initialWorld queueStore queueChat 0)
         [EvAdd "s1"; EvSettle 0 (inl (Some "A summary.")); EvCancelAll;
          EvSettle 0 (inl None); EvTimer] = Some w
  ∧ statusOf (w_chatMetadata w) "s1" = Some st_completed
  ∧ progress (w_queue w) = mkProgress 1 0 None 0.
Proof. eexists. split; [vm_compute; reflexivity|]. split; vm_compute; reflexivity. Qed.

(** ** C2: duplication reconciliation *)

(** The positions, from array index [i] on, of the messages holding [u]. *)
Fixpoint positionsFrom (i : nat) (chat : Chat) (u : string) : list nat :=
  match chat with
  | [] => []
  | m :: rest =>
      if decide (msg_uuid m = Some u) then i :: positionsFrom (S i) rest u
      else positionsFrom (S i) rest u
  end.

(** The pairs the two nested loops visit: for each entry of the map, its
    identifier with every position but the first. *)
Fixpoint duplicatesOf (occ : list (string * list nat)) : list (string * nat) :=
  match occ with
  | [] => []
  | (u, l) :: rest => ((λ i, (u, i)) <$> drop 1 l) ++ duplicatesOf rest
  end.

(** [chat[i]] is a later holder of an identifier. *)
Definition isCopy (chat : Chat) (i : nat) : bool :=
  match uuid_at chat i with
  | Some u => truthy u && bool_decide (Exists (λ j, uuid_at chat j = Some u) (seq 0 i))
  | None => false
  end.

Definition copies (chat : Chat) : list nat :=
  filter (λ i, isCopy chat i = true) (seq 0 (length chat)).

(** What the loop over [sceneIds] does to the source list of scene [sid]. *)
Definition applyTags (originalUUID newUUID : string) (sceneIds : list string)
    (sid : string) (l : list string) : list string :=
  fold_left (λ l t, if decide (t = sid) then insertAfterOriginal originalUUID newUUID l else l)
            sceneIds l.

(** Every message holding an identifier that a stored scene lists as a
    source is tagged with that scene (tags and source lists are written
    together, and a clone carries the tags of its original). *)
Definition TagsCover (o : Obj Scene) (chat : Chat) : Prop :=
  ∀ i u sid sc,
    uuid_at chat i = Some u → obj_get sid o = Some sc →
    u ∈ sourceMessageUUIDs sc → sid ∈ getMessageScenes chat (Z.of_nat i).

Section Occurrences.
Implicit Types (occ : list (string * list nat)) (chat : Chat) (u v : string).

Lemma positionsFrom_elem chat i u j :
j ∈ positionsFrom i chat u ↔ (i ≤ j)%nat ∧ uuid_at chat (j - i) = Some u.
Proof.
revert i. induction chat as [|m chat IH]; intros i; simpl.
- rewrite elem_of_nil. unfold uuid_at. rewrite lookup_nil. simpl.
  split; [done|by intros [_ ?]].
- assert (Hrest : j ∈ positionsFrom (S i) chat u ↔ (S i ≤ j)%nat ∧ uuid_at (m :: chat) (j - i) = Some u).
  { rewrite IH. split; intros [Hle Hu]; split; try done.
    - replace (j - i) with (S (j - S i)) by lia. done.
    - replace (j - i) with (S (j - S i)) in Hu by lia. done. }
  case_decide as Hm.
  + rewrite elem_of_cons, Hrest. split.
    * intros [->|[Hle Hu]]; [|split; [lia|done]].
      split; [lia|]. by rewrite Nat.sub_diag.
    * intros [Hle Hu]. destruct (decide (j = i)) as [->|Hne]; [by left|].
      right. split; [lia|done].
  + rewrite Hrest. split.
    * intros [Hle Hu]. split; [lia|done].
    * intros [Hle Hu]. split; [|done].
      destruct (decide (j = i)) as [->|Hne]; [|lia].
      rewrite Nat.sub_diag in Hu. done.
Qed.

Lemma positionsFrom_sorted chat i u : StronglySorted lt (positionsFrom i chat u).
Proof.
revert i. induction chat as [|m chat IH]; intros i; simpl; [constructor|].
case_decide; [|apply IH].
apply StronglySorted_cons. split; [|apply IH].
apply Forall_forall. intros j Hj. apply positionsFrom_elem in Hj. lia.
Qed.

Lemma occ_push_get_eq u i occ :
obj_get u (occ_push u i occ) = Some (default [] (obj_get u occ) ++ [i]).
Proof.
induction occ as [|[v l] occ IH]; simpl.
- by rewrite decide_True.
- case_decide as Hv; simpl.
  + by rewrite decide_True.
  + by rewrite decide_False.
Qed.

Lemma occ_push_get_ne u v i occ :
u ≠ v → obj_get v (occ_push u i occ) = obj_get v occ.
Proof.
intros Hne. induction occ as [|[w l] occ IH]; simpl.
- by rewrite decide_False.
- destruct (decide (w = u)) as [->|Hw]; simpl.
  + by rewrite !decide_False.
  + case_decide; [done|apply IH].
Qed.

Lemma occ_push_keys u i occ :
keys (occ_push u i occ) = if decide (u ∈ keys occ) then keys occ else keys occ ++ [u].
Proof.
unfold keys. induction occ as [|[w l] occ IH]; csimpl.
- done.
- destruct (decide (w = u)) as [->|Hw]; csimpl.
  + rewrite decide_True; [done|apply list_elem_of_here].
  + rewrite IH. case_decide as Hin.
    * rewrite decide_True; [done|by apply list_elem_of_further].
    * rewrite decide_False; [done|].
      intros [?|?]%elem_of_cons; by subst.
Qed.

Lemma occ_push_NoDup u i occ : NoDup (keys occ) → NoDup (keys (occ_push u i occ)).
Proof.
intros Hnd. rewrite occ_push_keys. case_decide as Hin; [done|].
apply NoDup_app. split_and!; [done| |apply NoDup_singleton].
intros x Hx Hx'. apply list_elem_of_singleton in Hx'. by subst.
Qed.

Lemma collectOccurrences_NoDup chat i occ :
NoDup (keys occ) → NoDup (keys (collectOccurrences i chat occ)).
Proof.
revert i occ. induction chat as [|m chat IH]; intros i occ Hnd; simpl; [done|].
apply IH. destruct (msg_uuid m) as [u|]; [|done].
destruct (truthy u); [by apply occ_push_NoDup|done].
Qed.

Lemma collectOccurrences_get chat i occ u :
truthy u = true →
obj_get u (collectOccurrences i chat occ)
= match positionsFrom i chat u with
  | [] => obj_get u occ
  | ps => Some (default [] (obj_get u occ) ++ ps)
  end.
Proof.
intros Hu. revert i occ. induction chat as [|m chat IH]; intros i occ; simpl; [done|].
rewrite IH. case_decide as Hm.
- rewrite Hm, Hu, occ_push_get_eq. simpl.
  destruct (positionsFrom (S i) chat u); [done|].
  by rewrite <- app_assoc.
- assert (Hsame : obj_get u (match msg_uuid m with
                             | Some uuid => if truthy uuid then occ_push uuid i occ else occ
                             | None => occ
                             end) = obj_get u occ).
  { destruct (msg_uuid m) as [v|]; [|done].
    destruct (truthy v); [|done].
    apply occ_push_get_ne. congruence. }
  by rewrite Hsame.
Qed.

Lemma collectOccurrences_falsy chat i occ u :
truthy u = false → obj_get u (collectOccurrences i chat occ) = obj_get u occ.
Proof.
intros Hu. revert i occ. induction chat as [|m chat IH]; intros i occ; simpl; [done|].
rewrite IH. destruct (msg_uuid m) as [v|]; [|done].
destruct (truthy v) eqn:Hv; [|done].
apply occ_push_get_ne. congruence.
Qed.

(** The entries of the map built from the whole chat. *)
Lemma collectOccurrences_entry chat u l :
(u, l) ∈ collectOccurrences 0 chat [] →
truthy u = true ∧ l = positionsFrom 0 chat u ∧ l ≠ [].
Proof.
intros Hin.
assert (Hget : obj_get u (collectOccurrences 0 chat []) = Some l).
{ apply obj_get_elem; [|done]. apply collectOccurrences_NoDup. constructor. }
destruct (truthy u) eqn:Hu.
- rewrite collectOccurrences_get in Hget by done.
  destruct (positionsFrom 0 chat u) eqn:Hps; simpl in Hget; [done|].
  by simplify_eq.
- by rewrite collectOccurrences_falsy in Hget.
Qed.

Lemma collectOccurrences_has chat u i :
truthy u = true → uuid_at chat i = Some u →
(u, positionsFrom 0 chat u) ∈ collectOccurrences 0 chat [].
Proof.
intros Hu Hi. apply obj_get_Some_elem.
rewrite collectOccurrences_get by done.
destruct (positionsFrom 0 chat u) eqn:Hps; [|done].
assert (Hin : i ∈ positionsFrom 0 chat u).
{ apply positionsFrom_elem. split; [lia|]. by rewrite Nat.sub_0_r. }
rewrite Hps in Hin. by apply elem_of_nil in Hin.
Qed.

End Occurrences.

Section Duplicates.
Implicit Types (occ : list (string * list nat)) (chat : Chat) (u v : string).

(** The two nested loops are one loop over [duplicatesOf]. *)
Lemma fold_fixOccurrences uuidv4Fn occ st :
fold_left (fixOccurrences uuidv4Fn) occ st
= fold_left (λ st p, fixDuplicate p.1 uuidv4Fn st p.2) (duplicatesOf occ) st.
Proof.
revert st. induction occ as [|[u l] occ IH]; intros st; simpl; [done|].
rewrite fold_left_app, IH. f_equal.
unfold fixOccurrences.
assert (Hmap : ∀ l' st', fold_left (fixDuplicate u uuidv4Fn) l' st'
  = fold_left (λ st p, fixDuplicate p.1 uuidv4Fn st p.2) ((λ i, (u, i)) <$> l') st').
{ induction l' as [|i l' IHl]; intros st'; simpl; [done|apply IHl]. }
destruct (length l <=? 1)%nat eqn:Hlen.
- apply Nat.leb_le in Hlen. destruct l as [|i [|i' l]]; simpl in *; [done|done|lia].
- apply Hmap.
Qed.

Lemma duplicatesOf_elem occ u i :
(u, i) ∈ duplicatesOf occ ↔ ∃ l, (u, l) ∈ occ ∧ i ∈ drop 1 l.
Proof.
induction occ as [|[v l] occ IH]; simpl.
- split; [by intros ?%elem_of_nil|]. by intros (l & ?%elem_of_nil & _).
- rewrite elem_of_app, IH, list_elem_of_fmap. split.
  + intros [(j & Heq & Hj)|(l' & Hl' & Hi)].
    * simplify_eq. exists l. split; [apply list_elem_of_here|done].
    * exists l'. split; [by apply list_elem_of_further|done].
  + intros (l' & [Heq|Hl']%elem_of_cons & Hi).
    * simplify_eq. left. by exists i.
    * right. by exists l'.
Qed.

Lemma drop1_sorted (l : list nat) i :
StronglySorted lt l →
i ∈ drop 1 l ↔ i ∈ l ∧ ∃ j, j ∈ l ∧ (j < i)%nat.
Proof.
intros Hs. destruct l as [|h t]; simpl.
- split; [by intros ?%elem_of_nil|by intros [?%elem_of_nil _]].
- rewrite drop_0. apply StronglySorted_cons in Hs as [Hh Hs].
  rewrite Forall_forall in Hh. split.
  + intros Hi. split; [by apply list_elem_of_further|].
    exists h. split; [apply list_elem_of_here|by apply Hh].
  + intros [[->|Hi]%elem_of_cons (j & [->|Hj]%elem_of_cons & Hlt)]; try done; try lia.
    apply Hh in Hj. lia.
Qed.

(** The pairs visited are the later holders of each identifier. *)
Lemma duplicatesOf_spec chat u i :
(u, i) ∈ duplicatesOf (collectOccurrences 0 chat [])
↔ truthy u = true ∧ uuid_at chat i = Some u
  ∧ ∃ j, (j < i)%nat ∧ uuid_at chat j = Some u.
Proof.
rewrite duplicatesOf_elem. split.
- intros (l & Hl & Hi). apply collectOccurrences_entry in Hl as (Hu & -> & _).
  apply drop1_sorted in Hi as [Hi (j & Hj & Hlt)]; [|apply positionsFrom_sorted].
  apply positionsFrom_elem in Hi as [_ Hi], Hj as [_ Hj].
  rewrite Nat.sub_0_r in Hi, Hj. split_and!; [done|done|by exists j].
- intros (Hu & Hi & j & Hlt & Hj).
  exists (positionsFrom 0 chat u). split; [by eapply collectOccurrences_has|].
  apply drop1_sorted; [apply positionsFrom_sorted|].
  split; [|exists j; split; [|done]]; apply positionsFrom_elem;
    (split; [lia|by rewrite Nat.sub_0_r]).
Qed.

(** Within one identifier, positions are visited in increasing order. *)
Definition visitedBefore (p q : string * nat) : Prop := p.1 = q.1 → (p.2 < q.2)%nat.

Lemma duplicatesOf_sorted occ :
NoDup (keys occ) → (∀ u l, (u, l) ∈ occ → StronglySorted lt l) →
StronglySorted visitedBefore (duplicatesOf occ).
Proof.
induction occ as [|[u l] occ IH]; intros Hnd Hs; simpl; [constructor|].
unfold keys in Hnd. rewrite fmap_cons in Hnd. apply NoDup_cons in Hnd as [Hu Hnd].
apply StronglySorted_app. split_and!.
- intros [v i] [w j] (i' & Heq & Hi)%list_elem_of_fmap Hj Hvw. simplify_eq. simpl in *.
  apply duplicatesOf_elem in Hj as (l' & Hl' & _).
  exfalso. apply Hu. apply list_elem_of_fmap. exists (w, l'). by subst.
- assert (Hl : StronglySorted lt (drop 1 l)).
  { specialize (Hs u l (list_elem_of_here _ _)).
    destruct l as [|h t]; [by rewrite drop_nil|]. simpl. rewrite drop_0.
    by apply StronglySorted_cons in Hs as [_ Hs]. }
  induction Hl as [|i t Ht IHt Hi]; simpl; [constructor|].
  constructor; [done|].
  apply Forall_fmap. eapply Forall_impl; [exact Hi|].
  intros j Hj _. done.
- apply IH; [done|]. intros v l' Hl'. eapply Hs. by apply list_elem_of_further.
Qed.

Lemma duplicates_sorted chat :
StronglySorted visitedBefore (duplicatesOf (collectOccurrences 0 chat [])).
Proof.
apply duplicatesOf_sorted.
- apply collectOccurrences_NoDup. constructor.
- intros u l Hl. apply collectOccurrences_entry in Hl as (_ & -> & _).
  apply positionsFrom_sorted.
Qed.

Lemma duplicates_NoDup chat :
NoDup (duplicatesOf (collectOccurrences 0 chat [])).*2.
Proof.
pose proof (duplicates_sorted chat) as Hs.
assert (Hel : ∀ p, p ∈ duplicatesOf (collectOccurrences 0 chat []) → uuid_at chat p.2 = Some p.1).
{ intros [u i] Hp. by apply duplicatesOf_spec in Hp as (_ & ? & _). }
induction Hs as [|p ds Hs IH Hp]; csimpl; [constructor|].
apply NoDup_cons. split.
- intros (q & Heq & Hq)%list_elem_of_fmap.
  rewrite Forall_forall in Hp. specialize (Hp q Hq).
  assert (p.1 = q.1) as H1.
  { pose proof (Hel p (list_elem_of_here _ _)) as H1.
    pose proof (Hel q (list_elem_of_further _ _ _ Hq)) as H2.
    rewrite Heq in H1. congruence. }
  specialize (Hp H1). lia.
- apply IH. intros q Hq. apply Hel. by apply list_elem_of_further.
Qed.

Lemma isCopy_spec chat i :
isCopy chat i = true
↔ ∃ u, truthy u = true ∧ uuid_at chat i = Some u
       ∧ ∃ j, (j < i)%nat ∧ uuid_at chat j = Some u.
Proof.
unfold isCopy. destruct (uuid_at chat i) as [u|] eqn:Hi.
- rewrite andb_true_iff, bool_decide_eq_true, Exists_exists. split.
  + intros [Hu (j & Hj & Huj)]. exists u. split_and!; [done|done|].
    exists j. split; [|done]. apply elem_of_seq in Hj. lia.
  + intros (u' & Hu & Heq & j & Hlt & Hj). simplify_eq. split; [done|].
    exists j. split; [|done]. apply elem_of_seq. lia.
- split; [done|]. by intros (u & _ & ? & _).
Qed.

Lemma copies_elem chat i : i ∈ copies chat ↔ isCopy chat i = true.
Proof.
unfold copies. rewrite list_elem_of_filter, elem_of_seq. split; [by intros [? _]|].
intros Hi. split; [done|]. apply isCopy_spec in Hi as (u & _ & Hi & _).
unfold uuid_at in Hi. destruct (chat !! i) eqn:Hl; [|done].
apply lookup_lt_Some in Hl. lia.
Qed.

Lemma duplicates_copies chat :
(duplicatesOf (collectOccurrences 0 chat [])).*2 ≡ₚ copies chat.
Proof.
apply NoDup_Permutation.
- apply duplicates_NoDup.
- apply NoDup_filter, NoDup_seq.
- intros i. rewrite copies_elem, isCopy_spec, list_elem_of_fmap. split.
  + intros ([u j] & -> & Hp). apply duplicatesOf_spec in Hp. by exists u.
  + intros (u & Hu). exists (u, i). split; [done|]. by apply duplicatesOf_spec.
Qed.

End Duplicates.

Ltac notin :=
  repeat (progress (rewrite ?not_elem_of_app, ?not_elem_of_cons in * ));
  intuition (try congruence).

Section Insertion.
Implicit Types (l a b : list string) (u x y : string).

Lemma indexOf_found u a b : u ∉ a → indexOf u (a ++ u :: b) = Some (length a).
Proof.
induction a as [|y a IH]; intros Hu; simpl.
- by rewrite decide_True.
- apply not_elem_of_cons in Hu as [Hne Hu].
  rewrite decide_False by done. by rewrite IH.
Qed.

Lemma indexOf_missing u l : u ∉ l → indexOf u l = None.
Proof.
induction l as [|y l IH]; intros Hu; simpl; [done|].
apply not_elem_of_cons in Hu as [Hne Hu].
rewrite decide_False by done. by rewrite IH.
Qed.

Lemma insertAfterOriginal_found u x a b :
u ∉ a → insertAfterOriginal u x (a ++ u :: b) = a ++ u :: x :: b.
Proof.
intros Hu. unfold insertAfterOriginal. rewrite indexOf_found by done.
replace (S (length a)) with (length (a ++ [u])) by (rewrite length_app; simpl; lia).
replace (a ++ u :: b) with ((a ++ [u]) ++ b) by (by rewrite <- app_assoc).
rewrite take_app_length, drop_app_length. by rewrite <- app_assoc.
Qed.

Lemma insertAfterOriginal_missing u x l : u ∉ l → insertAfterOriginal u x l = l ++ [x].
Proof. intros Hu. unfold insertAfterOriginal. by rewrite indexOf_missing. Qed.

Lemma insertAfterOriginal_elem u x l y :
y ∈ insertAfterOriginal u x l ↔ y ∈ l ∨ y = x.
Proof.
destruct (decide (u ∈ l)) as [Hin|Hnot].
- apply list_elem_of_split_l in Hin as (a & b & -> & Ha).
  rewrite insertAfterOriginal_found by done.
  rewrite !elem_of_app, !elem_of_cons. tauto.
- rewrite insertAfterOriginal_missing by done.
  rewrite elem_of_app, list_elem_of_singleton. tauto.
Qed.

(** Inserting after an original that is present puts the new identifier
    right behind its first occurrence. *)
Lemma inserted_first u x l :
u ∈ l → ∃ l1 l2, insertAfterOriginal u x l = l1 ++ u :: [] ++ x :: l2 ∧ u ∉ l1.
Proof.
intros (a & b & -> & Ha)%list_elem_of_split_l.
exists a, b. by rewrite insertAfterOriginal_found.
Qed.

(** A later insertion for the same original lands between the original
    and the identifiers inserted before. *)
Lemma inserted_same u new x mid l1 l2 :
u ∉ l1 →
insertAfterOriginal u x (l1 ++ u :: mid ++ new :: l2) = l1 ++ u :: (x :: mid) ++ new :: l2.
Proof. intros Hu. by rewrite insertAfterOriginal_found. Qed.

(** An insertion for another original leaves the stretch from the
    original to the new identifier as it is. *)
Lemma inserted_other u new u' x mid l1 l2 :
u ∉ l1 → u' ≠ u → x ≠ u → u' ∉ mid → u' ≠ new →
∃ l1' l2', insertAfterOriginal u' x (l1 ++ u :: mid ++ new :: l2)
           = l1' ++ u :: mid ++ new :: l2' ∧ u ∉ l1'.
Proof.
intros Hu Hne Hx Hmid Hnew.
destruct (decide (u' ∈ l1)) as [Hin1|Hnot1].
- apply list_elem_of_split_l in Hin1 as (a & b & -> & Ha).
  exists (a ++ u' :: x :: b), l2. split.
  + rewrite <- ?app_assoc. simpl. rewrite insertAfterOriginal_found by done.
    by rewrite <- ?app_assoc.
  + notin.
- destruct (decide (u' ∈ l2)) as [Hin2|Hnot2].
  + apply list_elem_of_split_l in Hin2 as (a & b & -> & Ha).
    exists l1, (a ++ u' :: x :: b). split; [|done].
    replace (l1 ++ u :: mid ++ new :: a ++ u' :: b)
      with ((l1 ++ u :: mid ++ new :: a) ++ u' :: b)
      by (rewrite <- ?app_assoc; simpl; by rewrite <- ?app_assoc).
    rewrite insertAfterOriginal_found.
    * rewrite <- ?app_assoc. simpl. by rewrite <- ?app_assoc.
    * notin.
  + exists l1, (l2 ++ [x]). split; [|done].
    rewrite insertAfterOriginal_missing.
    * rewrite <- ?app_assoc. simpl. by rewrite <- ?app_assoc.
    * notin.
Qed.

(** After an append, later insertions go in front of the new identifier
    or behind everything. *)
Lemma appended_step new u' x l1 l2 :
u' ≠ new → u' ∉ l2 →
∃ l1' l2', insertAfterOriginal u' x (l1 ++ new :: l2) = l1' ++ new :: l2'
           ∧ (∀ y, y ∈ l1 → y ∈ l1') ∧ (l2' = l2 ∨ l2' = l2 ++ [x]).
Proof.
intros Hnew H2.
destruct (decide (u' ∈ l1)) as [Hin1|Hnot1].
- apply list_elem_of_split_l in Hin1 as (a & b & -> & Ha).
  exists (a ++ u' :: x :: b), l2. split_and!.
  + rewrite <- ?app_assoc. simpl. rewrite insertAfterOriginal_found by done.
    by rewrite <- ?app_assoc.
  + intros y. rewrite !elem_of_app, !elem_of_cons. tauto.
  + by left.
- exists l1, (l2 ++ [x]). split_and!; [|done|by right].
  rewrite insertAfterOriginal_missing.
  + by rewrite <- ?app_assoc.
  + notin.
Qed.

Lemma applyTags_ind (P : list string → Prop) u x tags sid l :
P l → (∀ l', P l' → P (insertAfterOriginal u x l')) → P (applyTags u x tags sid l).
Proof.
intros Hl Hstep. unfold applyTags. revert l Hl.
induction tags as [|t tags IH]; intros l Hl; simpl; [done|].
apply IH. case_decide; [by apply Hstep|done].
Qed.

Lemma applyTags_notin u x tags sid l : sid ∉ tags → applyTags u x tags sid l = l.
Proof.
unfold applyTags. revert l. induction tags as [|t tags IH]; intros l Hs; simpl; [done|].
apply not_elem_of_cons in Hs as [Hne Hs].
rewrite decide_False by done. by apply IH.
Qed.

(** With the scene among the tags, the last thing that happens to its
    list is an insertion. *)
Lemma applyTags_in u x tags sid l :
sid ∈ tags →
∃ l', applyTags u x tags sid l = insertAfterOriginal u x l'
      ∧ ∀ P : list string → Prop,
          P l → (∀ l', P l' → P (insertAfterOriginal u x l')) → P l'.
Proof.
intros (t1 & t2 & -> & H2)%list_elem_of_split_r.
exists (applyTags u x t1 sid l). split.
- unfold applyTags. rewrite fold_left_app. simpl. rewrite decide_True by done.
  by apply applyTags_notin.
- intros P Hl Hstep. by apply applyTags_ind.
Qed.

End Insertion.

Section StoreUpdate.

Lemma obj_get_update {A} k k' (f : A → A) (o : Obj A) :
obj_get k' (obj_update k f o)
= if decide (k = k') then f <$> obj_get k' o else obj_get k' o.
Proof.
unfold obj_update. case_decide as Hk.
- subst. destruct (obj_get k' o) as [v|] eqn:Hget; simpl; [apply obj_get_set_eq|done].
- destruct (obj_get k o); [by apply obj_get_set_ne|done].
Qed.

Lemma addDuplicateToScenes_get u x tags o sid :
obj_get sid (addDuplicateToScenes u x tags o)
= (λ sc, set_sources (applyTags u x tags sid (sourceMessageUUIDs sc)) sc) <$> obj_get sid o.
Proof.
unfold addDuplicateToScenes, applyTags. revert o.
induction tags as [|t tags IH]; intros o; simpl.
- destruct (obj_get sid o) as [[]|]; done.
- rewrite IH, obj_get_update. case_decide as Ht; [|done].
  destruct (obj_get sid o) as [sc|]; [|done]. done.
Qed.

End StoreUpdate.

Section Repair.
Variable uuidv4Fn : nat → string.
Variable n : nat.
Variable chat0 : Chat.
Variable o0 : Obj Scene.
Hypothesis Hfresh : ∀ k i, (n ≤ k)%nat → uuid_at chat0 i ≠ Some (uuidv4Fn k).

(** The flattened loop. *)
Definition repairs (ds : list (string * nat)) (st : Obj Scene * Chat * nat * nat)
  : Obj Scene * Chat * nat * nat :=
  fold_left (λ st p, fixDuplicate p.1 uuidv4Fn st p.2) ds st.

(** The identifier minted at step [k] sits behind the first [u], with
    only identifiers minted at later steps for [u] in between. *)
Definition InsertedAfter (ds : list (string * nat)) (k : nat) (u : string)
    (l : list string) : Prop :=
  ∃ l1 mid l2, l = l1 ++ u :: mid ++ uuidv4Fn (n + k) :: l2 ∧ (u ∉ l1)
    ∧ (∀ x, x ∈ mid → ∃ k' j, (k < k')%nat ∧ ds !! k' = Some (u, j) ∧ x = uuidv4Fn (n + k')).

(** The identifier minted at step [k] sits behind all of [base], with
    only minted identifiers behind it. *)
Definition AppendedTo (ds : list (string * nat)) (k : nat) (base l : list string) : Prop :=
  ∃ l1 l2, l = l1 ++ uuidv4Fn (n + k) :: l2 ∧ (∀ y, y ∈ base → y ∈ l1)
    ∧ ∀ x, x ∈ l2 → ∃ k', (k ≤ k' < length ds)%nat ∧ x = uuidv4Fn (n + k').

Definition SourcesRepaired (ds : list (string * nat)) (sid : string)
    (src0 src : list string) : Prop :=
  (∀ y, y ∈ src0 → y ∈ src)
  ∧ (∀ x, x ∈ src → x ∈ src0 ∨ ∃ k, (k < length ds)%nat ∧ x = uuidv4Fn (n + k))
  ∧ ∀ k u i, ds !! k = Some (u, i) → sid ∈ getMessageScenes chat0 (Z.of_nat i) →
      (u ∈ src0 → InsertedAfter ds k u src) ∧ (u ∉ src0 → AppendedTo ds k src0 src).

Definition SceneRepaired (ds : list (string * nat)) (sid : string)
    (s0 s : option Scene) : Prop :=
  match s0, s with
  | None, None => True
  | Some sc0, Some sc =>
      sc = set_sources (sourceMessageUUIDs sc) sc0
      ∧ SourcesRepaired ds sid (sourceMessageUUIDs sc0) (sourceMessageUUIDs sc)
  | _, _ => False
  end.

(** The state after the steps [ds]. *)
Definition RepairInv (ds : list (string * nat)) (st : Obj Scene * Chat * nat * nat)
  : Prop :=
  let '(o, ch, n', c) := st in
  n' = (n + length ds)%nat ∧ c = length ds ∧ length ch = length chat0
  ∧ (∀ i, i ∉ ds.*2 → ch !! i = chat0 !! i)
  ∧ (∀ i : nat, getMessageScenes ch (Z.of_nat i) = getMessageScenes chat0 (Z.of_nat i))
  ∧ (∀ k u i, ds !! k = Some (u, i) → uuid_at ch i = Some (uuidv4Fn (n + k)))
  ∧ ∀ sid, SceneRepaired ds sid (obj_get sid o0) (obj_get sid o).

Lemma insertedAfter_mono ds d k u l :
InsertedAfter ds k u l → InsertedAfter (ds ++ [d]) k u l.
Proof.
intros (l1 & mid & l2 & Hl & Hl1 & Hmid). exists l1, mid, l2. split_and!; [done|done|].
intros x Hx. destruct (Hmid x Hx) as (k' & j & Hk & Hlook & ->).
exists k', j. split_and!; [done| |done]. by apply lookup_app_l_Some.
Qed.

Lemma appendedTo_mono ds d k base l :
AppendedTo ds k base l → AppendedTo (ds ++ [d]) k base l.
Proof.
intros (l1 & l2 & Hl & Hbase & Hl2). exists l1, l2. split_and!; [done|done|].
intros x Hx. destruct (Hl2 x Hx) as (k' & Hk & ->).
exists k'. split; [|done]. rewrite length_app. simpl. lia.
Qed.

Lemma repairInv_init : RepairInv [] (o0, chat0, n, 0%nat).
Proof.
simpl. split_and!; try done; try lia.
intros sid. unfold SceneRepaired. destruct (obj_get sid o0) as [sc|]; [|done].
split; [by destruct sc|].
split_and!; [done|by left|]. intros k u i Hk. by rewrite lookup_nil in Hk.
Qed.

Lemma sourcesRepaired_step ds u i sid src0 src tags :
(∀ v j, (v, j) ∈ ds ++ [(u, i)] → uuid_at chat0 j = Some v) →
getMessageScenes chat0 (Z.of_nat i) = tags →
SourcesRepaired ds sid src0 src →
SourcesRepaired (ds ++ [(u, i)]) sid src0
  (applyTags u (uuidv4Fn (n + length ds)) tags sid src).
Proof.
intros Hds Htags (Hsub & Hel & Hshape).
set (new := uuidv4Fn (n + length ds)).
assert (Horig : ∀ v j k, (v, j) ∈ ds ++ [(u, i)] → v ≠ uuidv4Fn (n + k)).
{ intros v j k Hv Heq. apply Hds in Hv. subst v. eapply Hfresh; [|exact Hv]. lia. }
assert (Hu : ∀ k, u ≠ uuidv4Fn (n + k)).
{ intros k. eapply (Horig u i). apply elem_of_app. right. apply list_elem_of_here. }
assert (Hlen : length (ds ++ [(u, i)]) = S (length ds)).
{ rewrite length_app. simpl. lia. }
split_and!.
- apply applyTags_ind; [done|].
  intros l' Hl' y Hy. apply insertAfterOriginal_elem. left. by apply Hl'.
- apply applyTags_ind.
  + intros x Hx. destruct (Hel x Hx) as [?|(k & Hk & ->)]; [by left|].
    right. exists k. split; [lia|done].
  + intros l' Hl' x [Hx| ->]%insertAfterOriginal_elem; [by apply Hl'|].
    right. exists (length ds). split; [lia|done].
- intros k v j Hk Hsid.
  apply lookup_app_Some in Hk as [Hk|[Hge Hk]].
  + (* an earlier step *)
    destruct (Hshape k v j Hk Hsid) as [Hins Happ].
    assert (Hv : ∀ k', v ≠ uuidv4Fn (n + k')).
    { intros k'. apply (Horig v j). apply elem_of_app. left.
      by eapply list_elem_of_lookup_2. }
    assert (Hklt : (k < length ds)%nat) by (by eapply lookup_lt_Some).
    split.
    * intros Hin. apply applyTags_ind; [by apply insertedAfter_mono, Hins|].
      intros l' (l1 & mid & l2 & -> & Hl1 & Hmid).
      destruct (decide (u = v)) as [->|Hne].
      -- rewrite inserted_same by done.
         exists l1, (new :: mid), l2. split_and!; [done|done|].
         intros x [->|Hx]%elem_of_cons; [|by apply Hmid].
         exists (length ds), i. split_and!; [done| |done].
         rewrite lookup_app_r by lia. by rewrite Nat.sub_diag.
      -- destruct (inserted_other v (uuidv4Fn (n + k)) u new mid l1 l2)
           as (l1' & l2' & -> & Hl1'); try done.
         ++ intros Heq. by apply (Hv (length ds)).
         ++ intros Hum. destruct (Hmid u Hum) as (k' & _ & _ & _ & Heq).
            by apply (Hu k').
         ++ by exists l1', mid, l2'.
    * intros Hnin. apply applyTags_ind; [by apply appendedTo_mono, Happ|].
      intros l' (l1 & l2 & -> & Hbase & Hl2).
      destruct (appended_step (uuidv4Fn (n + k)) u new l1 l2)
        as (l1' & l2' & -> & Hl1' & Hl2'); [done| |].
      { intros Hin. destruct (Hl2 u Hin) as (k' & _ & Heq). by apply (Hu k'). }
      exists l1', l2'. split_and!; [done|by intros y Hy; apply Hl1', Hbase|].
      intros x Hx. destruct Hl2' as [->| ->].
      -- by apply Hl2.
      -- apply elem_of_app in Hx as [Hx| ->%list_elem_of_singleton]; [by apply Hl2|].
         exists (length ds). split; [lia|done].
  + (* the step just made *)
    destruct (k - length ds)%nat as [|k'] eqn:Hkk; simpl in Hk; [|done].
    injection Hk as <- <-. assert (k = length ds) as -> by lia.
    rewrite Htags in Hsid.
    destruct (applyTags_in u new _ sid src Hsid) as (l' & -> & Hl').
    split.
    * intros Hin.
      assert (Hul : u ∈ l').
      { apply (Hl' (λ l, u ∈ l)); [by apply Hsub|].
        intros l'' Hl''. apply insertAfterOriginal_elem. by left. }
      destruct (inserted_first u new l' Hul) as (l1 & l2 & -> & Hl1).
      exists l1, [], l2. split_and!; [done|done|].
      intros x Hx. by apply elem_of_nil in Hx.
    * intros Hnin.
      assert (Hul : u ∉ l').
      { apply (Hl' (λ l, u ∉ l)).
        - intros Hus. destruct (Hel u Hus) as [?|(k' & _ & Heq)]; [done|].
          by apply (Hu k').
        - intros l'' Hl'' [?| Heq]%insertAfterOriginal_elem; [done|].
          by apply (Hu (length ds)). }
      rewrite insertAfterOriginal_missing by done.
      exists l', []. split_and!; [done| |].
      -- apply (Hl' (λ l, ∀ y, y ∈ src0 → y ∈ l)); [done|].
         intros l'' Hl'' y Hy. apply insertAfterOriginal_elem. left. by apply Hl''.
      -- intros x Hx. by apply elem_of_nil in Hx.
Qed.

Lemma repairInv_step ds u i st :
(∀ v j, (v, j) ∈ ds ++ [(u, i)] → uuid_at chat0 j = Some v) →
i ∉ ds.*2 →
RepairInv ds st →
RepairInv (ds ++ [(u, i)]) (fixDuplicate u uuidv4Fn st i).
Proof.
intros Hds Hi. destruct st as [[[o ch] n'] c].
intros (-> & -> & Hlen & Hsame & Htags & Hminted & Hscenes).
assert (Hui : uuid_at chat0 i = Some u).
{ apply Hds. apply elem_of_app. right. apply list_elem_of_here. }
unfold uuid_at in Hui. destruct (chat0 !! i) as [m|] eqn:Hm; [|done].
simpl in Hui. unfold msg_uuid in Hui.
destruct (extra m) as [e|] eqn:He; [|done]. simpl in Hui.
assert (Hilt : (i < length ch)%nat).
{ rewrite Hlen. by eapply lookup_lt_Some. }
unfold fixDuplicate. rewrite (Hsame i Hi), Hm, He.
assert (Hmt : getMessageScenes chat0 (Z.of_nat i) = default [] (scene_fold_scenes e)).
{ rewrite getMessageScenes_nat, Hm. simpl. unfold msg_scenes. by rewrite He. }
unfold RepairInv.
split_and!.
- rewrite length_app. simpl. lia.
- rewrite length_app. simpl. lia.
- by rewrite length_insert.
- intros j Hj. rewrite fmap_app in Hj. apply not_elem_of_app in Hj as [Hj Hji].
  rewrite list_lookup_insert_ne; [by apply Hsame|].
  intros ->. apply Hji. apply list_elem_of_here.
- intros j. rewrite getMessageScenes_insert by done. case_decide as Hj; [|apply Htags].
  subst j. rewrite Hmt. unfold msg_scenes. done.
- intros k v j Hk. rewrite uuid_at_insert by done.
  apply lookup_app_Some in Hk as [Hk|[Hge Hk]].
  + rewrite decide_False; [by eapply Hminted|].
    intros ->. apply Hi. apply list_elem_of_fmap. exists (v, i). split; [done|].
    by eapply list_elem_of_lookup_2.
  + destruct (k - length ds)%nat as [|k'] eqn:Hkk; simpl in Hk; [|done].
    injection Hk as <- <-. rewrite decide_True by done.
    assert (k = length ds) as -> by lia. done.
- intros sid. rewrite addDuplicateToScenes_get.
  specialize (Hscenes sid). unfold SceneRepaired in *.
  destruct (obj_get sid o0) as [sc0|], (obj_get sid o) as [sc|]; simpl; try done.
  destruct Hscenes as [Hsc Hsrc]. split.
  + rewrite Hsc. by destruct sc0.
  + simpl. by apply sourcesRepaired_step.
Qed.

Lemma repairs_inv ds :
(∀ v j, (v, j) ∈ ds → uuid_at chat0 j = Some v) →
NoDup ds.*2 →
RepairInv ds (repairs ds (o0, chat0, n, 0%nat)).
Proof.
induction ds as [|[u i] ds IH] using rev_ind; intros Hds Hnd.
- apply repairInv_init.
- unfold repairs. rewrite fold_left_app. simpl.
  rewrite fmap_app in Hnd. apply NoDup_app in Hnd as (Hnd & Hdisj & _).
  apply repairInv_step; [done| |].
  + intros Hi. apply (Hdisj i Hi). apply list_elem_of_here.
  + apply IH; [|done]. intros v j Hv. apply Hds. apply elem_of_app. by left.
Qed.

End Repair.

Lemma sorted_lookup {A} (R : A → A → Prop) (l : list A) k k' a b :
  StronglySorted R l → l !! k = Some a → l !! k' = Some b → (k < k')%nat → R a b.
Proof.
  intros Hs Ha Hb Hlt. rewrite <- (take_drop k' l) in Hs.
  eapply StronglySorted_app_1_elem_of; [exact Hs| |].
  - apply list_elem_of_lookup. exists k. by rewrite lookup_take_lt.
  - apply list_elem_of_lookup. exists 0%nat. by rewrite lookup_drop, Nat.add_0_r.
Qed.

(** A chat in which the host has cloned the message holding [a], a
    source of scene [s1]. *)
Definition clonedMessage : Message :=
  mkMessage (Some "Ann") false false "Hello"
    (Some (mkExtra (Some "a") (Some ["s1"]) (Some "source") None None)).

Definition chatCloned : Chat :=
  [clonedMessage; clonedMessage;
   mkMessage (Some "Bob") true false "Hi"
     (Some (mkExtra (Some "b") (Some ["s1"]) (Some "source") None None))].

Definition storeCloned : ChatMetadata :=
  mkChatMetadata (Some (mkData
    [("s1", mkScene "s1" None ["a"; "b"] None st_defined None false None 0 false false)]
    (mkSettings getDefaultSummarizationPrompt))).

(** C2. After [reconcileDuplicatedMessages], on a chat that the minted
    identifiers are new to and whose messages carry the tag of every
    scene listing their identifier: no two messages hold the same
    (non-empty) identifier; every message that is not a later holder of
    an identifier, in particular the earliest holder, is untouched; the
    returned count is the number of later holders, each of which has
    received one minted identifier; and in every scene that listed the
    shared identifier [u], the identifier minted for the copy at [i]
    follows the first [u], separated from it only by the identifiers
    minted for copies of [u] further down the chat (each insertion is made
    right behind [u]). In a scene the copy is tagged with that does not
    list [u], it stands behind all the former sources, followed by minted
    identifiers only. *)
Theorem C2_duplication_reconciled cm chat uuidv4Fn n fixedCount cm' chat' n' :
  (∀ j k, (n ≤ j)%nat → (n ≤ k)%nat → uuidv4Fn j = uuidv4Fn k → j = k) →
  (∀ k i, (n ≤ k)%nat → uuid_at chat i ≠ Some (uuidv4Fn k)) →
  TagsCover (scenes (getSceneFoldData cm)) chat →
  reconcileDuplicatedMessages cm chat uuidv4Fn n = (fixedCount, cm', chat', n') →
  (∀ i j u, truthy u = true →
     uuid_at chat' i = Some u → uuid_at chat' j = Some u → i = j)
  ∧ length chat' = length chat
  ∧ (∀ i, i ∉ copies chat → chat' !! i = chat !! i)
  ∧ (∀ i u, uuid_at chat i = Some u →
       (∀ j, (j < i)%nat → uuid_at chat j ≠ Some u) → uuid_at chat' i = Some u)
  ∧ fixedCount = length (copies chat)
  ∧ n' = (n + fixedCount)%nat
  ∧ ∀ i u, i ∈ copies chat → uuid_at chat i = Some u →
      ∃ k, (n ≤ k < n')%nat ∧ uuid_at chat' i = Some (uuidv4Fn k)
        ∧ ∀ sid sc, getScene cm sid = Some sc →
            (u ∈ sourceMessageUUIDs sc →
               ∃ sc' l1 mid l2,
                 getScene cm' sid = Some sc'
                 ∧ sourceMessageUUIDs sc' = l1 ++ u :: mid ++ uuidv4Fn k :: l2
                 ∧ (u ∉ l1)
                 ∧ (∀ x, x ∈ mid →
                      ∃ j, (i < j)%nat ∧ uuid_at chat j = Some u
                           ∧ uuid_at chat' j = Some x))
            ∧ (sid ∈ getMessageScenes chat (Z.of_nat i) → u ∉ sourceMessageUUIDs sc →
               ∃ sc' l1 l2,
                 getScene cm' sid = Some sc'
                 ∧ sourceMessageUUIDs sc' = l1 ++ uuidv4Fn k :: l2
                 ∧ (∀ y, y ∈ sourceMessageUUIDs sc → y ∈ l1)
                 ∧ (∀ x, x ∈ l2 → ∃ k', (n ≤ k' < n')%nat ∧ x = uuidv4Fn k')).
Proof.
  intros Hinj Hfresh Hcover Hrun.
  unfold reconcileDuplicatedMessages in Hrun.
  rewrite fold_fixOccurrences in Hrun.
  set (ds := duplicatesOf (collectOccurrences 0 chat [])) in *.
  assert (Hspec : ∀ u i, (u, i) ∈ ds ↔ truthy u = true ∧ uuid_at chat i = Some u
                                        ∧ ∃ j, (j < i)%nat ∧ uuid_at chat j = Some u).
  { intros u i. apply duplicatesOf_spec. }
  assert (Hperm : ds.*2 ≡ₚ copies chat) by apply duplicates_copies.
  assert (Hsorted : StronglySorted visitedBefore ds) by apply duplicates_sorted.
  pose proof (repairs_inv uuidv4Fn n chat (scenes (getSceneFoldData cm)) Hfresh ds) as Hinv.
  unfold repairs in Hinv.
  destruct (fold_left _ ds _) as [[[o ch] n''] c] eqn:Hfold.
  injection Hrun as <- <- <- <-.
  destruct Hinv as (-> & -> & Hlen & Hsame & Htags & Hminted & Hscenes).
  { intros v j Hv. by apply Hspec in Hv as (_ & ? & _). }
  { apply duplicates_NoDup. }
  assert (Hcase : ∀ i,
    (∃ k u, ds !! k = Some (u, i) ∧ uuid_at ch i = Some (uuidv4Fn (n + k)))
    ∨ ((i ∉ ds.*2) ∧ uuid_at ch i = uuid_at chat i)).
  { intros i. destruct (decide (i ∈ ds.*2)) as [Hin|Hnot].
    - left. apply list_elem_of_fmap in Hin as ([u i'] & -> & Hin).
      apply list_elem_of_lookup_1 in Hin as [k Hk].
      exists k, u. split; [done|by eapply Hminted].
    - right. split; [done|]. unfold uuid_at. by rewrite Hsame. }
  assert (Hin2 : ∀ u i, (u, i) ∈ ds → i ∈ ds.*2).
  { intros u i Hui. apply list_elem_of_fmap. by exists (u, i). }
  split_and!.
  - intros i j u Hu Hi Hj.
    destruct (Hcase i) as [(k & ui & Hk & Hik)|[Hni Hie]],
             (Hcase j) as [(k' & uj & Hk' & Hjk)|[Hnj Hje]].
    + rewrite Hi in Hik. rewrite Hj in Hjk.
      assert (n + k = n + k')%nat as Heq by (apply Hinj; [lia|lia|congruence]).
      assert (k = k') as -> by lia. congruence.
    + exfalso. rewrite Hje in Hj. rewrite Hi in Hik.
      apply (Hfresh (n + k)%nat j); [lia|congruence].
    + exfalso. rewrite Hie in Hi. rewrite Hj in Hjk.
      apply (Hfresh (n + k')%nat i); [lia|congruence].
    + rewrite Hie in Hi. rewrite Hje in Hj.
      destruct (lt_eq_lt_dec i j) as [[Hlt|Heq]|Hgt]; [|done|].
      * exfalso. apply Hnj. apply (Hin2 u). apply Hspec. split_and!; [done|done|by exists i].
      * exfalso. apply Hni. apply (Hin2 u). apply Hspec. split_and!; [done|done|by exists j].
  - done.
  - intros i Hi. apply Hsame. by rewrite Hperm.
  - intros i u Hi Hfirst.
    destruct (Hcase i) as [(k & ui & Hk & _)|[_ Hie]]; [|by rewrite Hie].
    apply list_elem_of_lookup_2, Hspec in Hk as (_ & Hui & j & Hlt & Hj).
    rewrite Hi in Hui. injection Hui as <-. by destruct (Hfirst j Hlt).
  - by rewrite <- Hperm, length_fmap.
  - done.
  - intros i u Hi Hui. rewrite <- Hperm in Hi.
    apply list_elem_of_fmap in Hi as ([v i'] & -> & Hin).
    pose proof Hin as Hv. apply Hspec in Hv as (_ & Hv & _).
    simpl in Hv, Hui. rewrite Hui in Hv. injection Hv as <-.
    apply list_elem_of_lookup_1 in Hin as [k Hk]. simpl.
    assert (Hklt : (k < length ds)%nat) by (by eapply lookup_lt_Some).
    exists (n + k)%nat. split_and!; [lia|lia|by eapply Hminted|].
    intros sid sc Hsc. unfold getScene in Hsc.
    specialize (Hscenes sid). unfold SceneRepaired in Hscenes. rewrite Hsc in Hscenes.
    destruct (obj_get sid o) as [sc'|] eqn:Hsc'; [|done].
    destruct Hscenes as (_ & _ & _ & Hshape).
    assert (Hget : getScene (with_scenes (getSceneFoldData cm) o) sid = Some sc') by done.
    split.
    + intros Hsrc.
      destruct (Hshape k u i' Hk) as [Hins _]; [by eapply Hcover|].
      destruct (Hins Hsrc) as (l1 & mid & l2 & Hl & Hl1 & Hmid).
      exists sc', l1, mid, l2. split_and!; [done|done|done|].
      intros x Hx. destruct (Hmid x Hx) as (k' & j & Hkk' & Hk' & ->).
      exists j. split_and!.
      * by apply (sorted_lookup _ _ _ _ _ _ Hsorted Hk Hk').
      * by apply list_elem_of_lookup_2, Hspec in Hk' as (_ & ? & _).
      * by eapply Hminted.
    + intros Hsid Hsrc.
      destruct (Hshape k u i' Hk Hsid) as [_ Happ].
      destruct (Happ Hsrc) as (l1 & l2 & Hl & Hbase & Hl2).
      exists sc', l1, l2. split_and!; [done|done|done|].
      intros x Hx. destruct (Hl2 x Hx) as (k' & Hk' & ->).
      exists (n + k')%nat. split; [lia|done].
Qed.

(** One clone of a message of scene [s1]: its new identifier goes right
    behind [a] in the sources of [s1]. *)
Lemma C2_duplication_reconciled_witness :
  let r := reconcileDuplicatedMessages storeCloned chatCloned testUuidv4 0 in
  r.1.1.1 = 1%nat
  ∧ uuid_at r.1.2 0 = Some "a" ∧ uuid_at r.1.2 1 = Some "u" ∧ uuid_at r.1.2 2 = Some "b"
  ∧ (sourceMessageUUIDs <$> getScene r.1.1.2 "s1") = Some ["a"; "u"; "b"]
  ∧ ∀ i j u, truthy u = true →
      uuid_at r.1.2 i = Some u → uuid_at r.1.2 j = Some u → i = j.
Proof.
  intros r. split_and!; try (vm_compute; reflexivity).
  refine (proj1 (C2_duplication_reconciled storeCloned chatCloned testUuidv4 0
                   r.1.1.1 r.1.1.2 r.1.2 r.2 _ _ _ _)).
  - intros j k _ _. apply testUuidv4_inj.
  - intros k [|[|[|i]]] _; vm_compute; discriminate.
  - intros [|[|[|i]]] u sid sc Hu Hsc Hin; simpl in Hsc;
      (case_decide as Hsid; [|done]); subst sid; vm_compute;
      try apply list_elem_of_here.
    by vm_compute in Hu.
  - vm_compute. reflexivity.
Defined.

(** Without the tag, the copy's new identifier reaches no scene: the
    scenes to update are read off the copy's own tags. *)
Example untagged_copy_not_added :
  let chat := [clonedMessage;
               mkMessage (Some "Ann") false false "Hello"
                 (Some (mkExtra (Some "a") None None None None))] in
  let r := reconcileDuplicatedMessages storeCloned chat testUuidv4 0 in
  r.1.1.1 = 1%nat ∧ uuid_at r.1.2 1 = Some "u"
  ∧ (sourceMessageUUIDs <$> getScene r.1.1.2 "s1") = Some ["a"; "b"].
Proof. split_and!; vm_compute; reflexivity. Qed.

(** Three holders of one identifier: the copies are repaired from the
    top of the chat down, each insertion right behind the original. *)
Example two_copies_order :
  let chat := [clonedMessage; clonedMessage; clonedMessage] in
  let r := reconcileDuplicatedMessages storeCloned chat testUuidv4 0 in
  r.1.1.1 = 2%nat
  ∧ uuid_at r.1.2 1 = Some "u" ∧ uuid_at r.1.2 2 = Some "ui"
  ∧ (sourceMessageUUIDs <$> getScene r.1.1.2 "s1") = Some ["a"; "ui"; "u"; "b"].
Proof. split_and!; vm_compute; reflexivity. Qed.

(* ===================================================================== *)
(** * Part III. Further properties of the code                            *)
(* ===================================================================== *)

(** ** Resolution with an arbitrary cache *)

(** X1. Whatever map is passed as the cache (stale, foreign or none),
    [findMessageIndexByUUID] answers [-1] exactly when no message holds
    the identifier, and any other answer is the position of a message of
    the chat that holds it; without a cache it is the first such
    position. *)
Theorem X1_resolution_validates_cache (chat : Chat) (uuid : string)
    (uuidIndex : option (gmap string nat)) :
  (findMessageIndexByUUID chat uuid uuidIndex = (-1)%Z
   ↔ ∀ k, uuid_at chat k ≠ Some uuid)
  ∧ (findMessageIndexByUUID chat uuid uuidIndex ≠ (-1)%Z →
     ∃ k, findMessageIndexByUUID chat uuid uuidIndex = Z.of_nat k
          ∧ (k < length chat)%nat ∧ uuid_at chat k = Some uuid)
  ∧ (∀ k, findMessageIndexByUUID chat uuid None = Z.of_nat k →
       ∀ j, (j < k)%nat → uuid_at chat j ≠ Some uuid).
Proof.
  split_and!.
  - apply findMessageIndexByUUID_none.
  - intros H. apply findMessageIndexByUUID_found in H as (k & Hk & Hu).
    exists k. split_and!; [done| |done].
    unfold uuid_at in Hu. destruct (chat !! k) eqn:Hl; [|done].
    by apply lookup_lt_Some in Hl.
  - intros k Hk j Hj. unfold findMessageIndexByUUID in Hk. simpl in Hk.
    assert (Hne : linearScan 0 chat uuid ≠ (-1)%Z) by lia.
    apply linearScan_found in Hne as (k' & Hk' & _ & Hfirst).
    apply Hfirst. lia.
Qed.

(** ** The index of identifiers *)

Lemma buildUUIDIndex_loop_app (l1 l2 : Chat) i (index : gmap string nat) :
  buildUUIDIndex_loop i (l1 ++ l2) index
  = buildUUIDIndex_loop (i + length l1) l2 (buildUUIDIndex_loop i l1 index).
Proof.
  revert i index. induction l1 as [|m l1 IH]; intros i index; simpl.
  - by rewrite Nat.add_0_r.
  - rewrite IH. f_equal. lia.
Qed.

Lemma uuid_at_app_l (l1 l2 : Chat) k :
  (k < length l1)%nat → uuid_at (l1 ++ l2) k = uuid_at l1 k.
Proof. intros Hk. unfold uuid_at. by rewrite lookup_app_l. Qed.

Lemma uuid_at_snoc (l : Chat) m : uuid_at (l ++ [m]) (length l) = msg_uuid m.
Proof. unfold uuid_at. by rewrite list_lookup_middle. Qed.

Lemma uuid_at_ge (l : Chat) k : (length l ≤ k)%nat → uuid_at l k = None.
Proof. intros Hk. unfold uuid_at. by rewrite lookup_ge_None_2. Qed.

Lemma uuid_at_lt (l : Chat) k u : uuid_at l k = Some u → (k < length l)%nat.
Proof.
  unfold uuid_at. destruct (l !! k) eqn:Hl; [|done]. intros _.
  by apply lookup_lt_Some in Hl.
Qed.

(** X2. The index built by [buildUUIDIndex] maps an identifier to a
    position exactly when the identifier is a non-empty string and that
    position is the last message of the chat holding it. *)
Theorem X2_index_holds_last_position (chat : Chat) (uuid : string) (idx : nat) :
  buildUUIDIndex chat !! uuid = Some idx
  ↔ truthy uuid = true ∧ uuid_at chat idx = Some uuid
    ∧ ∀ j, (idx < j)%nat → uuid_at chat j ≠ Some uuid.
Proof.
  unfold buildUUIDIndex. revert idx.
  induction chat as [|m chat IH] using rev_ind; intros idx.
  - simpl. rewrite lookup_empty. split; [done|].
    intros (_ & H & _). unfold uuid_at in H. by rewrite lookup_nil in H.
  - rewrite buildUUIDIndex_loop_app. simpl.
    assert (Hold : ∀ k, uuid_at (chat ++ [m]) k = Some uuid →
              k = length chat ∨ ((k < length chat)%nat ∧ uuid_at chat k = Some uuid)).
    { intros k Hk. pose proof (uuid_at_lt _ _ _ Hk) as Hlt.
      rewrite length_app in Hlt. simpl in Hlt.
      destruct (decide (k = length chat)) as [->|Hne]; [by left|].
      right. split; [lia|]. rewrite uuid_at_app_l in Hk by lia. done. }
    assert (Hkeep : msg_uuid m ≠ Some uuid →
      (truthy uuid = true ∧ uuid_at (chat ++ [m]) idx = Some uuid
         ∧ (∀ j, (idx < j)%nat → uuid_at (chat ++ [m]) j ≠ Some uuid))
      ↔ (truthy uuid = true ∧ uuid_at chat idx = Some uuid
         ∧ (∀ j, (idx < j)%nat → uuid_at chat j ≠ Some uuid))).
    { intros Hm. split.
      - intros (Hu & Hi & Hlast). destruct (Hold idx Hi) as [->|[Hlt Hi']].
        + by rewrite uuid_at_snoc in Hi.
        + split_and!; [done|done|]. intros j Hj Huj.
          apply (Hlast j Hj). pose proof (uuid_at_lt _ _ _ Huj).
          by rewrite uuid_at_app_l.
      - intros (Hu & Hi & Hlast). pose proof (uuid_at_lt _ _ _ Hi) as Hlt.
        split_and!; [done|by rewrite uuid_at_app_l|].
        intros j Hj Huj. destruct (Hold j Huj) as [->|[Hjl Huj']].
        + by rewrite uuid_at_snoc in Huj.
        + by apply (Hlast j Hj). }
    destruct (msg_uuid m) as [v|] eqn:Hv; [|rewrite IH; symmetry; by apply Hkeep].
    destruct (truthy v) eqn:Htv.
    + destruct (decide (v = uuid)) as [->|Hne].
      * rewrite ?Nat.add_0_l, lookup_insert_eq. split.
        -- intros [= <-]. split_and!; [done|by rewrite uuid_at_snoc|].
           intros j Hj. rewrite uuid_at_ge; [done|]. rewrite length_app. simpl. lia.
        -- intros (_ & Hi & Hlast). f_equal.
           destruct (Hold idx Hi) as [->|[Hlt _]]; [done|].
           exfalso. apply (Hlast (length chat) Hlt). by rewrite uuid_at_snoc.
      * rewrite lookup_insert_ne by done. rewrite IH. symmetry. apply Hkeep. congruence.
    + destruct (decide (v = uuid)) as [->|Hne].
      * split.
        -- intros H. apply IH in H as (Ht & _). congruence.
        -- intros (Ht & _). congruence.
      * rewrite IH. symmetry. apply Hkeep. congruence.
Qed.

(** ** Minting identifiers *)

(** X3. After [ensureMessageUUID] the message holds the identifier
    returned. A message that already has a non-empty identifier is
    returned as it is, with its identifier, and the generator is not
    called. Calling the function again on its result changes nothing, as
    long as the identifier is a non-empty string. *)
Theorem X3_ensureMessageUUID_stable (m : Message) (uuidv4Fn : nat → string) (n : nat) :
  let r := ensureMessageUUID m uuidv4Fn n in
  msg_uuid r.1.1 = Some r.1.2
  ∧ (truthy_opt (msg_uuid m) = true → r.1.1 = m ∧ msg_uuid m = Some r.1.2 ∧ r.2 = n)
  ∧ (truthy_opt (msg_uuid m) = false → r.1.2 = uuidv4Fn n ∧ r.2 = S n)
  ∧ (truthy r.1.2 = true → ensureMessageUUID r.1.1 uuidv4Fn r.2 = r).
Proof.
  unfold ensureMessageUUID, msg_uuid. destruct m as [nm iu isys ms [e|]]; simpl.
  - destruct e as [[u|] tags role sid ty]; simpl.
    + destruct (truthy u) eqn:Hu; simpl.
      * split_and!; [done|done|done|]. intros _. by rewrite Hu.
      * split_and!; [done|done|done|]. intros Hf. by rewrite Hf.
    + split_and!; [done|done|done|]. intros Hf. by rewrite Hf.
  - split_and!; [done|done|done|]. intros Hf. by rewrite Hf.
Qed.

(** ** The overlap check *)

Lemma fold_set_add_spec (l acc : list string) :
  NoDup acc →
  NoDup (fold_left (λ acc sceneId, set_add sceneId acc) l acc)
  ∧ ∀ x, x ∈ fold_left (λ acc sceneId, set_add sceneId acc) l acc ↔ x ∈ acc ∨ x ∈ l.
Proof.
  revert acc. induction l as [|y l IH]; intros acc Hnd; simpl.
  - split; [done|]. intros x. rewrite elem_of_nil. tauto.
  - assert (Hnd' : NoDup (set_add y acc)).
    { unfold set_add. case_decide as Hy; [done|].
      apply NoDup_app. split_and!; [done| |apply NoDup_singleton].
      intros x Hx ->%list_elem_of_singleton. done. }
    destruct (IH _ Hnd') as [H1 H2]. split; [done|].
    intros x. rewrite H2, elem_of_cons. unfold set_add. case_decide as Hy.
    + split; [tauto|]. intros [?|[->|?]]; tauto.
    + rewrite elem_of_app, list_elem_of_singleton. tauto.
Qed.

Lemma findOverlappingScenes_loop_spec fuel : ∀ i chat acc,
  NoDup acc →
  NoDup (findOverlappingScenes_loop fuel i chat acc)
  ∧ ∀ x, x ∈ findOverlappingScenes_loop fuel i chat acc
         ↔ x ∈ acc ∨ ∃ j, (i ≤ j < i + Z.of_nat fuel)%Z ∧ x ∈ getMessageScenes chat j.
Proof.
  induction fuel as [|fuel IH]; intros i chat acc Hnd; simpl.
  - split; [done|]. intros x. split; [by left|]. intros [?|(j & ? & _)]; [done|lia].
  - destruct (fold_set_add_spec (getMessageScenes chat i) acc Hnd) as [Hnd' Hel].
    destruct (IH (i + 1)%Z chat _ Hnd') as [H1 H2]. split; [done|].
    intros x. rewrite H2, Hel. split.
    + intros [[?|Hx]|(j & Hj & Hx)].
      * by left.
      * right. exists i. split; [lia|done].
      * right. exists j. split; [lia|done].
    + intros [?|(j & Hj & Hx)]; [by left; left|].
      destruct (decide (j = i)) as [->|Hne]; [by left; right|].
      right. exists j. split; [lia|done].
Qed.

(** X4. [findOverlappingScenes] returns, each once, exactly the scene
    ids carried as a tag by some message at a position of the range; it
    reads the tags only, not the scene store, and finds nothing on an
    empty range. *)
Theorem X4_findOverlappingScenes_exact (cm : ChatMetadata) (chat : Chat)
    (startIndex endIndex : Z) :
  NoDup (findOverlappingScenes cm chat startIndex endIndex)
  ∧ (∀ sid, sid ∈ findOverlappingScenes cm chat startIndex endIndex
            ↔ ∃ i, (startIndex ≤ i ≤ endIndex)%Z ∧ sid ∈ getMessageScenes chat i)
  ∧ ((endIndex < startIndex)%Z → findOverlappingScenes cm chat startIndex endIndex = []).
Proof.
  unfold findOverlappingScenes.
  destruct (findOverlappingScenes_loop_spec (Z.to_nat (endIndex - startIndex + 1))
              startIndex chat [] (NoDup_nil_2)) as [Hnd Hel].
  split_and!; [done| |].
  - intros sid. rewrite Hel, elem_of_nil. split.
    + intros [[]|(j & Hj & Hx)]. exists j. split; [lia|done].
    + intros (j & Hj & Hx). right. exists j. split; [lia|done].
  - intros Hlt. replace (Z.to_nat (endIndex - startIndex + 1)) with 0%nat by lia. done.
Qed.

(** ** Writes to the messages a list of identifiers resolves to *)

(** The loops of [deleteScene], [summarizeScene] and [prepareForRetry]
    over the sources of a scene have one shape: resolve the identifier by
    a scan, skip it when it is not found, write to the message found. *)
Definition modifyResolved (f : Message → Message) (uuids : list string) (chat : Chat)
  : Chat :=
  fold_left
    (λ chat uuid,
       let idx := findMessageIndexByUUID chat uuid None in
       if decide (idx = (-1)%Z) then chat else chat_modify idx f chat)
    uuids chat.

(** Some identifier of the list resolves to position [i]. *)
Definition resolvesTo (chat : Chat) (uuids : list string) (i : nat) : Prop :=
  Exists (λ uuid, findMessageIndexByUUID chat uuid None = Z.of_nat i) uuids.

Section ModifyResolved.
Implicit Types (chat : Chat) (f : Message → Message).

Lemma linearScan_ext chat1 chat2 uuid i :
uuids chat1 = uuids chat2 → linearScan i chat1 uuid = linearScan i chat2 uuid.
Proof.
revert chat2 i. induction chat1 as [|m1 chat1 IH]; intros [|m2 chat2] i H; try done.
simpl in *. injection H as Hm H. rewrite Hm.
case_decide; [done|]. by apply IH.
Qed.

Lemma scan_ext chat1 chat2 uuid :
uuids chat1 = uuids chat2 →
findMessageIndexByUUID chat1 uuid None = findMessageIndexByUUID chat2 uuid None.
Proof. intros H. unfold findMessageIndexByUUID. simpl. by apply linearScan_ext. Qed.

Lemma resolvesTo_ext chat1 chat2 l i :
uuids chat1 = uuids chat2 → resolvesTo chat1 l i ↔ resolvesTo chat2 l i.
Proof.
intros H. unfold resolvesTo. rewrite !Exists_exists.
split; intros (u & Hu & Hi); exists u; (split; [done|]);
  [rewrite <- (scan_ext _ _ u H)|rewrite (scan_ext _ _ u H)]; done.
Qed.

Lemma chat_modify_lookup idx f chat (i : nat) :
chat_modify idx f chat !! i
= if decide (idx = Z.of_nat i) then f <$> chat !! i else chat !! i.
Proof.
unfold chat_modify. destruct (idx <? 0)%Z eqn:Hneg.
- apply Z.ltb_lt in Hneg. rewrite decide_False by lia. done.
- apply Z.ltb_ge in Hneg. case_decide as Hi.
  + subst. rewrite Nat2Z.id. apply list_lookup_alter_eq.
  + apply list_lookup_alter_ne. lia.
Qed.

Lemma chat_modify_length idx f chat : length (chat_modify idx f chat) = length chat.
Proof. unfold chat_modify. destruct (idx <? 0)%Z; [done|]. apply length_alter. Qed.

Lemma modifyResolved_uuids f l chat :
(∀ m, msg_uuid (f m) = msg_uuid m) → uuids (modifyResolved f l chat) = uuids chat.
Proof.
intros Hf. unfold modifyResolved. revert chat.
induction l as [|u l IH]; intros chat; simpl; [done|].
rewrite IH. case_decide; [done|]. by apply uuids_chat_modify.
Qed.

Lemma modifyResolved_length f l chat : length (modifyResolved f l chat) = length chat.
Proof.
unfold modifyResolved. revert chat.
induction l as [|u l IH]; intros chat; simpl; [done|].
rewrite IH. case_decide; [done|]. apply chat_modify_length.
Qed.

(** When the write keeps the identifier and doing it twice is doing it
  once, the loop writes once to every position resolved to. *)
Lemma modifyResolved_lookup f l chat (i : nat) :
(∀ m, msg_uuid (f m) = msg_uuid m) → (∀ m, f (f m) = f m) →
modifyResolved f l chat !! i
= if decide (resolvesTo chat l i) then f <$> chat !! i else chat !! i.
Proof.
intros Hf Hff. revert chat.
induction l as [|u l IH]; intros chat.
- destruct (decide (resolvesTo chat [] i)) as [H|H]; [|done].
  unfold resolvesTo in H. by apply Exists_nil in H.
- change (modifyResolved f (u :: l) chat)
    with (modifyResolved f l
            (if decide (findMessageIndexByUUID chat u None = (-1)%Z) then chat
             else chat_modify (findMessageIndexByUUID chat u None) f chat)).
  rewrite IH.
  set (chat1 := if decide (findMessageIndexByUUID chat u None = (-1)%Z) then chat
                else chat_modify (findMessageIndexByUUID chat u None) f chat).
  assert (Hu1 : uuids chat1 = uuids chat).
  { unfold chat1. case_decide; [done|]. by apply uuids_chat_modify. }
  assert (H1 : chat1 !! i
               = if decide (findMessageIndexByUUID chat u None = Z.of_nat i)
                 then f <$> chat !! i else chat !! i).
  { unfold chat1. case_decide as Hm.
    - rewrite decide_False by lia. done.
    - apply chat_modify_lookup. }
  assert (Hiff : resolvesTo chat (u :: l) i
                 ↔ findMessageIndexByUUID chat u None = Z.of_nat i ∨ resolvesTo chat1 l i).
  { unfold resolvesTo at 1. rewrite Exists_cons.
    by rewrite (resolvesTo_ext chat1 chat l i Hu1). }
  rewrite H1.
  destruct (decide (resolvesTo chat1 l i)) as [Hr|Hr];
    destruct (decide (findMessageIndexByUUID chat u None = Z.of_nat i)) as [Hh|Hh].
  + rewrite decide_True by (apply Hiff; by left).
    destruct (chat !! i) as [m|]; simpl; [by rewrite Hff|done].
  + rewrite decide_True by (apply Hiff; by right). done.
  + rewrite decide_True by (apply Hiff; by left). done.
  + rewrite decide_False; [done|]. rewrite Hiff. tauto.
Qed.

End ModifyResolved.

(** ** Deleting a scene *)

Section ObjDelete.
Context {A : Type}.
Implicit Types (o : Obj A) (k : string).

Lemma obj_get_delete_eq k o : obj_get k (obj_delete k o) = None.
Proof.
unfold obj_delete. induction o as [|[k' v] o IH]; simpl; [done|].
destruct (decide (k' = k)) as [->|Hne].
- by rewrite filter_cons_False by (simpl; tauto).
- rewrite filter_cons_True by done. simpl. by rewrite decide_False.
Qed.

Lemma obj_get_delete_ne k k' o : k ≠ k' → obj_get k' (obj_delete k o) = obj_get k' o.
Proof.
intros Hne. unfold obj_delete. induction o as [|[k0 v] o IH]; simpl; [done|].
destruct (decide (k0 = k)) as [->|Hk].
- rewrite filter_cons_False by (simpl; tauto). by rewrite decide_False.
- rewrite filter_cons_True by done. simpl. by rewrite IH.
Qed.

End ObjDelete.

Section Untag.
Implicit Types (m : Message) (sid : string).

Lemma untagMessage_fields sid m :
name (untagMessage sid m) = name m ∧ is_user (untagMessage sid m) = is_user m
∧ is_system (untagMessage sid m) = is_system m ∧ mes (untagMessage sid m) = mes m
∧ msg_uuid (untagMessage sid m) = msg_uuid m.
Proof.
unfold untagMessage, msg_uuid. destruct (extra m) as [e|] eqn:He; [|by rewrite He].
destruct (scene_fold_scenes e) as [tags|]; [|by rewrite He].
by destruct (length _ =? 0)%nat.
Qed.

Lemma untagMessage_scenes sid m :
msg_scenes (untagMessage sid m) = filter (λ id, id ≠ sid) (msg_scenes m).
Proof.
unfold untagMessage, msg_scenes. destruct (extra m) as [e|] eqn:He; [|by rewrite He].
destruct (scene_fold_scenes e) as [tags|] eqn:Ht; simpl; [|by rewrite He, Ht].
destruct (length (filter _ tags) =? 0)%nat eqn:Hlen; simpl; [|done].
apply Nat.eqb_eq in Hlen. by destruct (filter _ tags).
Qed.

Lemma filter_idemp {B} (P : B → Prop) `{∀ x, Decision (P x)} (l : list B) :
filter P (filter P l) = filter P l.
Proof.
induction l as [|x l IH]; [done|].
destruct (decide (P x)) as [Hx|Hx].
- rewrite !filter_cons_True by done. by rewrite IH.
- by rewrite !filter_cons_False by done.
Qed.

Lemma untagMessage_idemp sid m : untagMessage sid (untagMessage sid m) = untagMessage sid m.
Proof.
unfold untagMessage. destruct m as [nm iu isys ms [e|]]; simpl; [|done].
destruct e as [u [tags|] role sc ty]; simpl; [|done].
destruct (length (filter _ tags) =? 0)%nat eqn:Hlen; simpl; [done|].
by rewrite filter_idemp, Hlen.
Qed.

End Untag.

(** X6. [deleteScene] removes the scene from the store and nothing else:
    every other scene and the settings are as before. For an id that is
    not in the store the store and the chat are left as they are. *)
Theorem X6_deleteScene_store (cm : ChatMetadata) (chat : Chat) (sid : string) :
  let r := deleteScene cm chat sid in
  getScene r.1 sid = None
  ∧ (∀ sid', sid' ≠ sid → getScene r.1 sid' = getScene cm sid')
  ∧ settings (getSceneFoldData r.1) = settings (getSceneFoldData cm)
  ∧ (getScene cm sid = None → getSceneFoldData r.1 = getSceneFoldData cm ∧ r.2 = chat).
Proof.
  unfold deleteScene, getScene.
  destruct (obj_get sid (scenes (getSceneFoldData cm))) as [scene|] eqn:Hget; simpl.
  - split_and!; [apply obj_get_delete_eq| |done|done].
    intros sid' Hne. by apply obj_get_delete_ne.
  - split_and!; [done|done|done|]. intros _. split; [|done].
    by destruct (getSceneFoldData cm).
Qed.

(** X7. What [deleteScene] does to the chat: each message keeps its
    author, text, hidden flag and identifier, and its tags of other
    scenes in their order; a message that a source of the scene resolves
    to no longer carries the scene's tag; a message no source resolves to
    is untouched. *)
Theorem X7_deleteScene_messages (cm : ChatMetadata) (chat : Chat) (sid : string)
    (scene : Scene) :
  getScene cm sid = Some scene →
  let chat' := (deleteScene cm chat sid).2 in
  length chat' = length chat
  ∧ ∀ i m, chat !! i = Some m →
      ∃ m', chat' !! i = Some m'
        ∧ name m' = name m ∧ is_user m' = is_user m ∧ is_system m' = is_system m
        ∧ mes m' = mes m ∧ msg_uuid m' = msg_uuid m
        ∧ filter (λ id, id ≠ sid) (msg_scenes m') = filter (λ id, id ≠ sid) (msg_scenes m)
        ∧ (resolvesTo chat (sourceMessageUUIDs scene) i → sid ∉ msg_scenes m')
        ∧ (¬ resolvesTo chat (sourceMessageUUIDs scene) i → m' = m).
Proof.
  intros Hget. unfold getScene in Hget. unfold deleteScene. rewrite Hget. simpl.
  change (untagSources sid (sourceMessageUUIDs scene) chat)
    with (modifyResolved (untagMessage sid) (sourceMessageUUIDs scene) chat).
  split; [apply modifyResolved_length|].
  intros i m Hm.
  rewrite modifyResolved_lookup;
    [|intros m0; apply untagMessage_fields|apply untagMessage_idemp].
  rewrite Hm. case_decide as Hr; simpl.
  - exists (untagMessage sid m).
    destruct (untagMessage_fields sid m) as (? & ? & ? & ? & ?).
    split_and!; try done.
    + by rewrite untagMessage_scenes, filter_idemp.
    + intros _. rewrite untagMessage_scenes. intros [Hne _]%list_elem_of_filter. done.
  - exists m. split_and!; done.
Qed.

Definition chatTagged : Chat :=
  [taggedMessage "a" ["s1"]; taggedMessage "b" ["s1"; "s2"]; plainMessage "c"].

Definition storeTagged : ChatMetadata :=
  storeOf [("s1", sceneOf "s1" ["a"; "b"] None st_defined);
           ("s2", sceneOf "s2" ["b"] None st_defined)].

Lemma X7_deleteScene_messages_witness :
  let chat' := (deleteScene storeTagged chatTagged "s1").2 in
  (msg_scenes <$> chat') = [[]; ["s2"]; []]
  ∧ length chat' = length chatTagged
  ∧ ∀ i m, chatTagged !! i = Some m →
      ∃ m', chat' !! i = Some m'
        ∧ name m' = name m ∧ is_user m' = is_user m ∧ is_system m' = is_system m
        ∧ mes m' = mes m ∧ msg_uuid m' = msg_uuid m
        ∧ filter (λ id, id ≠ "s1") (msg_scenes m') = filter (λ id, id ≠ "s1") (msg_scenes m)
        ∧ (resolvesTo chatTagged ["a"; "b"] i → "s1" ∉ msg_scenes m')
        ∧ (¬ resolvesTo chatTagged ["a"; "b"] i → m' = m).
Proof.
  split; [vm_compute; reflexivity|].
  apply (X7_deleteScene_messages storeTagged chatTagged "s1"
           (sceneOf "s1" ["a"; "b"] None st_defined)).
  vm_compute. reflexivity.
Defined.

(** ** Updating a scene *)

Lemma keys_obj_set_in {A} k (v : A) (o : Obj A) :
  k ∈ keys o → keys (obj_set k v o) = keys o.
Proof.
  unfold keys. induction o as [|[k' v'] o IH]; csimpl; [by intros ?%elem_of_nil|].
  intros Hin. destruct (decide (k' = k)) as [->|Hne]; csimpl; [done|].
  f_equal. apply IH. apply elem_of_cons in Hin as [?|?]; [congruence|done].
Qed.

(** X5. [updateScene] neither adds nor removes a scene and changes no
    scene but the one named: the keys of the store keep their order, the
    named scene becomes the merged one, and an id that is not in the store
    is ignored. *)
Theorem X5_updateScene_frame (cm : ChatMetadata) (sid : string) (updates : Scene → Scene) :
  keys (scenes (getSceneFoldData (updateScene cm sid updates)))
  = keys (scenes (getSceneFoldData cm))
  ∧ getScene (updateScene cm sid updates) sid = updates <$> getScene cm sid
  ∧ (∀ sid', sid' ≠ sid → getScene (updateScene cm sid updates) sid' = getScene cm sid')
  ∧ (getScene cm sid = None →
     getSceneFoldData (updateScene cm sid updates) = getSceneFoldData cm).
Proof.
  split_and!.
  - unfold updateScene, obj_update. simpl.
    destruct (obj_get sid (scenes (getSceneFoldData cm))) as [sc|] eqn:Hget; [|done].
    apply keys_obj_set_in. apply obj_get_Some_elem in Hget.
    apply list_elem_of_fmap. by exists (sid, sc).
  - apply getScene_updateScene_eq.
  - intros sid' Hne. by apply getScene_updateScene_ne.
  - unfold getScene, updateScene, obj_update. intros ->. simpl.
    by destruct (getSceneFoldData cm).
Qed.

(** ** Creating a scene and deleting it again *)

Section CreateDelete.
Implicit Types (chat : Chat) (m : Message) (sid : string).

Lemma obj_delete_set {A} k (v : A) (o : Obj A) :
k ∉ keys o → obj_delete k (obj_set k v o) = o.
Proof.
unfold obj_delete, keys. induction o as [|[k' v'] o IH]; csimpl.
- intros _. by rewrite filter_cons_False by (simpl; tauto).
- intros [Hne Hnot]%not_elem_of_cons. rewrite decide_False by congruence.
  rewrite filter_cons_True by (simpl; congruence). f_equal. by apply IH.
Qed.

Lemma filter_ne_snoc sid (tags : list string) :
sid ∉ tags → filter (λ id, id ≠ sid) (tags ++ [sid]) = tags.
Proof.
intros Hnot. rewrite filter_app, filter_cons_False, filter_nil, app_nil_r by tauto.
induction tags as [|t tags IH]; [done|].
apply not_elem_of_cons in Hnot as [Hne Hnot].
rewrite filter_cons_True by congruence. f_equal. by apply IH.
Qed.

(** Tagging a message for a scene it is not tagged with, and removing the
  tag again. *)
Lemma untag_tagSource sid uuidv4Fn m n m2 uuid n1 :
tagSource sid uuidv4Fn m n = (m2, uuid, n1) →
sid ∉ msg_scenes m →
let m3 := untagMessage sid m2 in
name m3 = name m ∧ is_user m3 = is_user m ∧ is_system m3 = is_system m ∧ mes m3 = mes m
∧ msg_uuid m3 = Some uuid
∧ msg_scenes m3 = msg_scenes m
∧ (truthy_opt (msg_uuid m) = true → msg_uuid m = Some uuid)
∧ (∀ e, extra m = Some e → truthy_opt (scene_fold_uuid e) = true →
     scene_fold_scenes e = None → scene_fold_role e = None → m3 = m).
Proof.
intros Htag Hnot m3.
destruct (tagSource_spec sid uuidv4Fn m n) as (m2' & u' & n1' & Htag' & Hu2 & _ & _ & _).
rewrite Htag in Htag'. injection Htag' as <- <- <-.
destruct (untagMessage_fields sid m2) as (Hn & Hiu & His & Hmes & Hu).
assert (Hm2 : name m2 = name m ∧ is_user m2 = is_user m ∧ is_system m2 = is_system m
              ∧ mes m2 = mes m
              ∧ msg_scenes m2
                = (if decide (sid ∈ msg_scenes m) then msg_scenes m
                   else msg_scenes m ++ [sid])
              ∧ (truthy_opt (msg_uuid m) = true → msg_uuid m = Some uuid)).
{ revert Htag. unfold tagSource, ensureMessageUUID, msg_scenes, msg_uuid.
  destruct m as [nm iu isys ms [e|]]; simpl.
  - destruct (truthy_opt (scene_fold_uuid e)) eqn:Ht; intros [= <- <-]; simpl;
      (split_and!; try done); try (destruct (scene_fold_uuid e); done).
  - intros [= <- <-]. simpl. split_and!; done. }
destruct Hm2 as (Hn2 & Hiu2 & His2 & Hmes2 & Hsc2 & Hkeep).
unfold m3. split_and!; try congruence.
- rewrite untagMessage_scenes, Hsc2. rewrite decide_False by done.
  by apply filter_ne_snoc.
- exact Hkeep.
- intros e He Ht Hsc Hrole. revert Htag. unfold tagSource, ensureMessageUUID.
  destruct m as [nm iu isys ms ex]. simpl in He. subst ex.
  destruct e as [u sc role si ty]. simpl in *. subst sc role.
  rewrite Ht. intros [= <- <-]. unfold untagMessage. simpl.
  destruct (decide (sid ∈ [])) as [Hx|_]; [by apply elem_of_nil in Hx|].
  simpl. rewrite filter_cons_False by tauto. done.
Qed.

(** The writes of the loop of [createScene]: a message of the range is
  replaced by its tagged version and its identifier is collected;
  nothing else is written. *)
Lemma createScene_loop_writes sid uuidv4Fn fuel : ∀ i chat n acc chat' n' acc',
createScene_loop fuel i sid uuidv4Fn chat n acc = (chat', n', acc') →
(∀ j : nat, (Z.of_nat j < i ∨ i + Z.of_nat fuel ≤ Z.of_nat j)%Z → chat' !! j = chat !! j)
∧ (∀ (j : nat) m, (i ≤ Z.of_nat j < i + Z.of_nat fuel)%Z → chat !! j = Some m →
     ∃ nj m2 u n1, (n ≤ nj)%nat ∧ tagSource sid uuidv4Fn m nj = (m2, u, n1)
                   ∧ chat' !! j = Some m2 ∧ u ∈ acc')
∧ (∀ u, u ∈ acc → u ∈ acc').
Proof.
induction fuel as [|fuel IH]; intros i chat n acc chat' n' acc'; simpl.
- intros [= <- <- <-]. split_and!; [done|intros; lia|done].
- destruct (chat_at chat i) as [m|] eqn:Hm.
  + destruct (tagSource sid uuidv4Fn m n) as [[m2 uuid] n1] eqn:Htag.
    intros Hloop. apply IH in Hloop as (Ha & Hb & Hc).
    apply chat_at_Some in Hm as (Hi0 & Hm & Hlt).
    split_and!.
    * intros j Hj. rewrite Ha by lia. apply list_lookup_insert_ne. lia.
    * intros j m0 Hj Hm0. destruct (decide (j = Z.to_nat i)) as [->|Hne].
      -- rewrite Hm in Hm0. injection Hm0 as <-.
         exists n, m2, uuid, n1. split_and!; [done|done| |].
         ++ rewrite Ha by lia. by apply list_lookup_insert_eq.
         ++ apply Hc, elem_of_app. right. apply list_elem_of_here.
      -- destruct (Hb j m0) as (nj & m3 & u & n3 & Hnj & Hrest);
           [lia|by rewrite list_lookup_insert_ne by done|].
         exists nj, m3, u, n3. split; [|done].
         destruct (tagSource_spec sid uuidv4Fn m n)
           as (? & ? & ? & Htag' & _ & _ & _ & Hcase).
         rewrite Htag in Htag'. injection Htag' as <- <- <-.
         destruct Hcase as [(_ & _ & ->)|(_ & _ & ->)]; lia.
    * intros u Hu. apply Hc, elem_of_app. by left.
  + intros Hloop. apply IH in Hloop as (Ha & Hb & Hc).
    split_and!; [intros j Hj; apply Ha; lia| |done].
    intros j m0 Hj Hm0. apply (Hb j m0); [|done].
    assert (Z.of_nat j ≠ i); [|lia]. intros <-. unfold chat_at in Hm.
    rewrite (proj2 (Z.ltb_ge _ _)), Nat2Z.id in Hm by lia. congruence.
Qed.

End CreateDelete.

(** X8. Creating a scene and deleting it again. With a generator of
    distinct non-empty identifiers that the chat does not hold, distinct
    identifiers on the messages, and a scene id that is new to the store
    and to the tags of the range: the store is the one before; every
    message has its author, text, hidden flag and tags as before; a
    message outside the range is untouched; a message of the range that
    had an identifier, no tag list and no role is exactly as before, and
    one that had none keeps the identifier minted for it. *)
Theorem X8_create_then_delete (uuidv4Fn : nat → string) (n : nat)
    (cm : ChatMetadata) (chat : Chat) (start end_ : Z)
    (prompt : option string) (now : Z) :
  (∀ j k, uuidv4Fn j = uuidv4Fn k → j = k) →
  (∀ k, (S n ≤ k)%nat → uuidv4Fn k ≠ "") →
  (∀ k j, (S n ≤ k)%nat → uuid_at chat j ≠ Some (uuidv4Fn k)) →
  (∀ a b u, u ≠ "" → uuid_at chat a = Some u → uuid_at chat b = Some u → a = b) →
  uuidv4Fn n ∉ keys (scenes (getSceneFoldData cm)) →
  (∀ j, (start ≤ j ≤ end_)%Z → uuidv4Fn n ∉ getMessageScenes chat j) →
  let r1 := createScene cm chat start end_ uuidv4Fn n prompt now in
  let r2 := deleteScene r1.1.1.2 r1.1.2 (scene_id r1.1.1.1) in
  getSceneFoldData r2.1 = getSceneFoldData cm
  ∧ length r2.2 = length chat
  ∧ ∀ (j : nat) m, chat !! j = Some m →
      ∃ m', r2.2 !! j = Some m'
        ∧ name m' = name m ∧ is_user m' = is_user m ∧ is_system m' = is_system m
        ∧ mes m' = mes m ∧ msg_scenes m' = msg_scenes m
        ∧ (truthy_opt (msg_uuid m) = true → msg_uuid m' = msg_uuid m)
        ∧ (truthy_opt (msg_uuid m) = false →
           (start ≤ Z.of_nat j ≤ end_)%Z →
           ∃ k, (S n ≤ k)%nat ∧ msg_uuid m' = Some (uuidv4Fn k))
        ∧ (¬ (start ≤ Z.of_nat j ≤ end_)%Z → m' = m)
        ∧ (∀ e, extra m = Some e → truthy_opt (scene_fold_uuid e) = true →
             scene_fold_scenes e = None → scene_fold_role e = None → m' = m).
Proof.
  intros Hinj Htruthy Hfresh Huniq Hkey Htags r1 r2.
  unfold r2, r1, createScene.
  set (sid := uuidv4Fn n).
  set (fuel := Z.to_nat (end_ - start + 1)).
  assert (Hinit : LoopInv uuidv4Fn sid chat (S n) start start chat (S n) []).
  { split; try done. intros u Hu. by apply elem_of_nil in Hu. }
  destruct (createScene_loop_inv uuidv4Fn sid chat (S n) start Hinj Htruthy
              fuel start chat (S n) [] Hinit)
    as (chat1 & n1 & srcs & Hloop & [Hlen Hn Hfresh1 Huniq1 Hold _ Hacc] & Hle); [lia|].
  rewrite Hloop. simpl.
  destruct (createScene_loop_writes _ _ _ _ _ _ _ _ _ _ Hloop) as (Hout & Hin & _).
  unfold deleteScene. simpl. rewrite obj_get_set_eq. simpl.
  rewrite obj_delete_set by done.
  change (untagSources sid srcs chat1) with (modifyResolved (untagMessage sid) srcs chat1).
  split_and!.
  - by destruct (getSceneFoldData cm).
  - by rewrite modifyResolved_length.
  - intros j m Hm.
    rewrite modifyResolved_lookup;
      [|intros m0; apply untagMessage_fields|apply untagMessage_idemp].
    destruct (decide (start ≤ Z.of_nat j ≤ end_)%Z) as [Hr|Hr].
    + destruct (Hin j m) as (nj & m2 & u & n2 & Hnj & Htag & Hm2 & Hu);
        [unfold fuel; lia|done|].
      destruct (tagSource_spec sid uuidv4Fn m nj)
        as (m2' & u' & n2' & Htag' & Hu2 & _ & _ & Hcase).
      rewrite Htag in Htag'. injection Htag' as <- <- <-.
      destruct (Hacc u Hu) as (Hne & p & Hp & Hpu & _).
      assert (Hju : uuid_at chat1 j = Some u) by (unfold uuid_at; by rewrite Hm2).
      assert (Hres : resolvesTo chat1 srcs j).
      { unfold resolvesTo. apply Exists_exists. exists u. split; [done|].
        apply findMessageIndexByUUID_unique; [|done]. intros a b. by apply Huniq1. }
      rewrite decide_True by done. rewrite Hm2. simpl.
      assert (Hsid : sid ∉ msg_scenes m).
      { specialize (Htags (Z.of_nat j) Hr). by rewrite getMessageScenes_nat, Hm in Htags. }
      destruct (untag_tagSource sid uuidv4Fn m nj m2 u n2 Htag Hsid)
        as (? & ? & ? & ? & Hu3 & ? & Hkeep & Hexact).
      exists (untagMessage sid m2). split_and!; try done.
      * intros Ht. by rewrite Hu3, (Hkeep Ht).
      * intros Ht _. destruct Hcase as [(Hmu & _ & _)|(_ & -> & _)].
        -- rewrite Hmu in Ht. simpl in Ht. apply truthy_ne in Hne. congruence.
        -- exists nj. by rewrite Hu3.
    + rewrite Hout in * by (unfold fuel; lia).
      assert (Hres : ¬ resolvesTo chat1 srcs j).
      { unfold resolvesTo. rewrite Exists_exists. intros (u & Hu & Hfind).
        destruct (Hacc u Hu) as (Hne & p & Hp & Hpu & _).
        rewrite (findMessageIndexByUUID_unique chat1 u p) in Hfind;
          [|intros a b; by apply Huniq1|done].
        unfold fuel in Hp. lia. }
      rewrite decide_False by done.
      exists m. split_and!; done.
Qed.

Lemma X8_create_then_delete_witness :
  let r1 := createScene storeScenarioA chatScenarioA 2 2 testUuidv4 0 None 0 in
  let r2 := deleteScene r1.1.1.2 r1.1.2 (scene_id r1.1.1.1) in
  (getMessageScenes r1.1.2 2 = ["u"] ∧ r2.2 = chatScenarioA)
  ∧ (getSceneFoldData r2.1 = getSceneFoldData storeScenarioA
     ∧ length r2.2 = length chatScenarioA
     ∧ ∀ (j : nat) m, chatScenarioA !! j = Some m →
         ∃ m', r2.2 !! j = Some m'
           ∧ name m' = name m ∧ is_user m' = is_user m ∧ is_system m' = is_system m
           ∧ mes m' = mes m ∧ msg_scenes m' = msg_scenes m
           ∧ (truthy_opt (msg_uuid m) = true → msg_uuid m' = msg_uuid m)
           ∧ (truthy_opt (msg_uuid m) = false →
              (2 ≤ Z.of_nat j ≤ 2)%Z →
              ∃ k, (1 ≤ k)%nat ∧ msg_uuid m' = Some (testUuidv4 k))
           ∧ (¬ (2 ≤ Z.of_nat j ≤ 2)%Z → m' = m)
           ∧ (∀ e, extra m = Some e → truthy_opt (scene_fold_uuid e) = true →
                scene_fold_scenes e = None → scene_fold_role e = None → m' = m)).
Proof.
  split; [vm_compute; by split|].
  apply (X8_create_then_delete testUuidv4 0 storeScenarioA chatScenarioA 2 2 None 0).
  - apply testUuidv4_inj.
  - done.
  - intros k j _ H. apply uuid_at_chatScenarioA in H.
    destruct H as [[_ H]|[[_ H]|[_ H]]]; discriminate H.
  - intros a b u _ Ha Hb. apply uuid_at_chatScenarioA in Ha, Hb.
    destruct Ha as [[-> ->]|[[-> ->]|[-> ->]]];
      destruct Hb as [[-> Hu]|[[-> Hu]|[-> Hu]]]; (done || discriminate Hu).
  - apply (bool_decide_unpack _). vm_compute. exact I.
  - intros j Hj. replace j with 2%Z by lia. vm_compute. by intros ?%elem_of_nil.
Defined.

(** ** Scenes in chat order *)

Section SortByKey.
Context {A : Type} (key : A → Z).
Implicit Types (x : A) (l : list A).

Lemma insertByKey_perm x l : insertByKey key x l ≡ₚ x :: l.
Proof.
induction l as [|y l IH]; simpl; [done|].
destruct (key x <=? key y)%Z; [done|].
rewrite IH. apply Permutation_swap.
Qed.

Lemma sortByKey_perm l : sortByKey key l ≡ₚ l.
Proof.
unfold sortByKey. induction l as [|x l IH]; simpl; [done|].
rewrite insertByKey_perm. by rewrite IH.
Qed.

Lemma insertByKey_sorted x l :
StronglySorted (λ a b, (key a ≤ key b)%Z) l →
StronglySorted (λ a b, (key a ≤ key b)%Z) (insertByKey key x l).
Proof.
induction l as [|y l IH]; intros Hs; simpl.
- repeat constructor.
- apply StronglySorted_cons in Hs as [Hy Hs].
  destruct (key x <=? key y)%Z eqn:Hxy.
  + apply Z.leb_le in Hxy. constructor; [by constructor|].
    constructor; [done|]. eapply Forall_impl; [exact Hy|]. simpl. lia.
  + apply Z.leb_gt in Hxy. constructor; [by apply IH|].
    rewrite insertByKey_perm. constructor; [lia|done].
Qed.

Lemma sortByKey_sorted l : StronglySorted (λ a b, (key a ≤ key b)%Z) (sortByKey key l).
Proof.
unfold sortByKey. induction l as [|x l IH]; simpl; [constructor|].
by apply insertByKey_sorted.
Qed.

Lemma insertByKey_filter x l (k : Z) :
filter (λ a, key a = k) (insertByKey key x l)
= if decide (key x = k) then x :: filter (λ a, key a = k) l
  else filter (λ a, key a = k) l.
Proof.
induction l as [|y l IH]; simpl.
- case_decide; [by rewrite filter_cons_True|by rewrite filter_cons_False].
- destruct (key x <=? key y)%Z eqn:Hxy.
  + case_decide; [by rewrite filter_cons_True|by rewrite filter_cons_False].
  + apply Z.leb_gt in Hxy. destruct (decide (key y = k)) as [Hy|Hy].
    * rewrite !(filter_cons_True _ y) by done. rewrite IH.
      rewrite decide_False by lia. by rewrite decide_False by lia.
    * rewrite !(filter_cons_False _ y) by done. apply IH.
Qed.

Lemma sortByKey_stable l (k : Z) :
filter (λ a, key a = k) (sortByKey key l) = filter (λ a, key a = k) l.
Proof.
unfold sortByKey. induction l as [|x l IH]; simpl; [done|].
rewrite insertByKey_filter, IH.
case_decide; [by rewrite filter_cons_True|by rewrite filter_cons_False].
Qed.

End SortByKey.

(** X10. [getScenesInOrder] returns every scene of the store exactly
    once, in non-decreasing order of the position its first source
    resolves to; scenes whose first source resolves to the same position
    (for instance [-1], not found) keep the order they have in the
    store. *)
Theorem X10_getScenesInOrder_sorted (cm : ChatMetadata) (chat : Chat) :
  getScenesInOrder cm chat ≡ₚ values (scenes (getSceneFoldData cm))
  ∧ StronglySorted (λ a b, (firstSourcePosition chat a ≤ firstSourcePosition chat b)%Z)
      (getScenesInOrder cm chat)
  ∧ ∀ k, filter (λ a, firstSourcePosition chat a = k) (getScenesInOrder cm chat)
         = filter (λ a, firstSourcePosition chat a = k)
             (values (scenes (getSceneFoldData cm))).
Proof.
  unfold getScenesInOrder. split_and!.
  - apply sortByKey_perm.
  - apply sortByKey_sorted.
  - apply sortByKey_stable.
Qed.

(** ** The auto-start index *)

(** The identifiers [getAutoStartIndex] resolves for a scene: its
    sources, then its summary if it has one. *)
Definition sceneMessageIds (scene : Scene) : list string :=
  sourceMessageUUIDs scene
  ++ match summaryMessageUUID scene with
     | Some summaryUUID => if truthy summaryUUID then [summaryUUID] else []
     | None => []
     end.

Section AutoStart.
Variable chat : Chat.

Lemma raise_fold (l : list string) (mx : Z) :
let r := fold_left (λ mx uuid, raiseTo mx (findMessageIndexByUUID chat uuid None)) l mx in
(mx ≤ r)%Z
∧ (∀ u, u ∈ l → (findMessageIndexByUUID chat u None ≤ r)%Z)
∧ (r = mx ∨ ∃ u, u ∈ l ∧ r = findMessageIndexByUUID chat u None).
Proof.
revert mx. induction l as [|u l IH]; intros mx; simpl.
- split_and!; [lia|by intros u ?%elem_of_nil|by left].
- destruct (IH (raiseTo mx (findMessageIndexByUUID chat u None))) as (H1 & H2 & H3).
  assert (Hr : (mx ≤ raiseTo mx (findMessageIndexByUUID chat u None))%Z
               ∧ (findMessageIndexByUUID chat u None
                  ≤ raiseTo mx (findMessageIndexByUUID chat u None))%Z
               ∧ (raiseTo mx (findMessageIndexByUUID chat u None) = mx
                  ∨ raiseTo mx (findMessageIndexByUUID chat u None)
                    = findMessageIndexByUUID chat u None)).
  { unfold raiseTo. destruct (mx <? _)%Z eqn:Hlt;
      [apply Z.ltb_lt in Hlt|apply Z.ltb_ge in Hlt]; split_and!; try lia; auto. }
  destruct Hr as (Hr1 & Hr2 & Hr3).
  split_and!.
  + lia.
  + intros v [->|Hv]%elem_of_cons; [lia|by apply H2].
  + destruct H3 as [H3|(v & Hv & H3)].
    * destruct Hr3 as [Hr3|Hr3]; [left; congruence|].
      right. exists u. split; [apply list_elem_of_here|congruence].
    * right. exists v. split; [by apply list_elem_of_further|done].
Qed.

Lemma lastSceneMessage_fold (scene : Scene) (mx : Z) :
lastSceneMessage chat mx scene
= fold_left (λ mx uuid, raiseTo mx (findMessageIndexByUUID chat uuid None))
    (sceneMessageIds scene) mx.
Proof.
unfold lastSceneMessage, sceneMessageIds. rewrite fold_left_app.
destruct (summaryMessageUUID scene) as [u|]; [|done].
by destruct (truthy u).
Qed.

Lemma lastSceneMessage_all (l : list Scene) (mx : Z) :
fold_left (lastSceneMessage chat) l mx
= fold_left (λ mx uuid, raiseTo mx (findMessageIndexByUUID chat uuid None))
    (mjoin (sceneMessageIds <$> l)) mx.
Proof.
revert mx. induction l as [|s l IH]; intros mx; simpl; [done|].
by rewrite fold_left_app, IH, lastSceneMessage_fold.
Qed.

End AutoStart.

(** X9. [getAutoStartIndex] returns a position between [0] and the
    length of the chat that lies behind every message a source or a
    summary of a stored scene resolves to; it is the position right
    after the last such message, and [0] when there is none. *)
Theorem X9_getAutoStartIndex_after_scenes (cm : ChatMetadata) (chat : Chat) :
  let r := getAutoStartIndex cm chat in
  (0 ≤ r ≤ Z.of_nat (length chat))%Z
  ∧ (∀ scene u, scene ∈ values (scenes (getSceneFoldData cm)) →
       u ∈ sceneMessageIds scene → (findMessageIndexByUUID chat u None < r)%Z)
  ∧ (r = 0%Z
     ∨ ∃ scene u, scene ∈ values (scenes (getSceneFoldData cm))
                  ∧ u ∈ sceneMessageIds scene
                  ∧ findMessageIndexByUUID chat u None = (r - 1)%Z).
Proof.
  unfold getAutoStartIndex.
  set (l := values (scenes (getSceneFoldData cm))).
  assert (Hb : ∀ u, (-1 ≤ findMessageIndexByUUID chat u None < Z.of_nat (length chat))%Z).
  { intros u. unfold findMessageIndexByUUID. simpl.
    destruct (linearScan_bounds chat u 0) as [->|?]; lia. }
  destruct (length l =? 0)%nat eqn:Hlen.
  - apply Nat.eqb_eq in Hlen. destruct l; [|done].
    split; [lia|split; [|by left]]. intros scene u Hs. by apply elem_of_nil in Hs.
  - rewrite lastSceneMessage_all.
    destruct (raise_fold chat (mjoin (sceneMessageIds <$> l)) (-1)%Z) as (H1 & H2 & H3).
    set (mx := fold_left _ _ _) in *.
    assert (Hall : ∀ scene u, scene ∈ l → u ∈ sceneMessageIds scene →
                     u ∈ mjoin (sceneMessageIds <$> l)).
    { intros scene u Hs Hu. apply list_elem_of_join. exists (sceneMessageIds scene).
      split; [done|]. apply list_elem_of_fmap. by exists scene. }
    assert (Hmx : (mx < Z.of_nat (length chat))%Z).
    { destruct H3 as [->|(u & _ & ->)]; [lia|apply Hb]. }
    destruct (0 <=? mx)%Z eqn:Hpos; [apply Z.leb_le in Hpos|apply Z.leb_gt in Hpos].
    + split; [lia|split].
      * intros scene u Hs Hu. specialize (H2 u (Hall _ _ Hs Hu)). lia.
      * right. destruct H3 as [H3|(u & Hu & H3)]; [lia|].
        apply list_elem_of_join in Hu as (ids & Hu & Hids).
        apply list_elem_of_fmap in Hids as (scene & -> & Hs).
        exists scene, u. split_and!; [done|done|lia].
    + split; [lia|split; [|by left]].
      intros scene u Hs Hu. specialize (H2 u (Hall _ _ Hs Hu)).
      specialize (Hb u). lia.
Qed.

(** ** Deletion reconciliation: what is never touched *)


Section SameContent.
Implicit Types (chat : Chat) (m : Message).









End SameContent.


(** ** Deletion reconciliation: scene by scene *)

Lemma obj_get_reconciled chat (o : Obj Scene) k :
  NoDup (keys o) →
  obj_get k (omap (reconciledEntry chat) o) = obj_get k o ≫= sceneOutcome chat.
Proof.
  induction o as [|[k' scene] o IH]; simpl; [done|].
  intros [Hk Hnd]%NoDup_cons. unfold reconciledEntry at 1. simpl.
  destruct (decide (k' = k)) as [->|Hne]; simpl.
  - destruct (sceneOutcome chat scene) as [scene'|] eqn:Hout; simpl.
    + by rewrite decide_True.
    + apply (proj2 (obj_get_None _ _)). intros Hin. by apply keys_reconciled in Hin.
  - destruct (sceneOutcome chat scene) as [scene'|]; simpl.
    + rewrite decide_False by done. by apply IH.
    + by apply IH.
Qed.

(** X12. What a pass of deletion reconciliation leaves of a scene. With
    no source that resolves the scene is removed. Otherwise its sources
    become those that resolve, in their order; and if it has a summary
    identifier that no longer resolves, it is reset to [defined], unfolded
    and without summary, its other fields (prompt, last error, stale flag)
    kept. *)
Theorem X12_reconcile_scene_outcome (cm : ChatMetadata) (chat : Chat) (sid : string)
    (scene : Scene) :
  NoDup (keys (scenes (getSceneFoldData cm))) →
  getScene cm sid = Some scene →
  let cm' := (reconcileScenesAfterDeletion cm chat).1.2 in
  (validSourcesOf chat scene = [] → getScene cm' sid = None)
  ∧ (validSourcesOf chat scene ≠ [] →
     getScene cm' sid
     = Some (if summaryGone chat scene
             then set_folded false (set_status st_defined (set_summary None
                    (set_sources (validSourcesOf chat scene) scene)))
             else set_sources (validSourcesOf chat scene) scene)).
Proof.
  intros Hnd Hget.
  destruct (reconcileScenesAfterDeletion_spec cm chat Hnd) as (chat' & -> & _).
  simpl. unfold getScene in *. simpl.
  rewrite obj_get_reconciled, Hget by done. simpl.
  unfold sceneOutcome.
  assert (Htrim : (if sourcesTrimmed chat scene
                   then set_sources (validSourcesOf chat scene) scene else scene)
                  = set_sources (validSourcesOf chat scene) scene).
  { unfold sourcesTrimmed.
    destruct (length _ =? length _)%nat eqn:Hlen; simpl; [|done].
    apply Nat.eqb_eq in Hlen. unfold validSourcesOf in *.
    rewrite (filter_length_eq _ _ Hlen). by destruct scene. }
  rewrite Htrim. split.
  - intros ->. done.
  - intros Hne. destruct (validSourcesOf chat scene) eqn:Hv; [done|]. simpl.
    by destruct (summaryGone chat scene).
Qed.

Lemma X12_reconcile_scene_outcome_witness :
  let cm' := (reconcileScenesAfterDeletion storeSummaryRemoved chatSummaryRemoved).1.2 in
  getScene cm' "s1" = Some (sceneOf "s1" ["a"] None st_defined)
  ∧ (validSourcesOf chatSummaryRemoved (sceneOf "s1" ["a"] (Some "m") st_completed) = [] →
     getScene cm' "s1" = None)
  ∧ (validSourcesOf chatSummaryRemoved (sceneOf "s1" ["a"] (Some "m") st_completed) ≠ [] →
     getScene cm' "s1"
     = Some (if summaryGone chatSummaryRemoved (sceneOf "s1" ["a"] (Some "m") st_completed)
             then set_folded false (set_status st_defined (set_summary None
                    (set_sources
                       (validSourcesOf chatSummaryRemoved
                          (sceneOf "s1" ["a"] (Some "m") st_completed))
                       (sceneOf "s1" ["a"] (Some "m") st_completed))))
             else set_sources
                    (validSourcesOf chatSummaryRemoved
                       (sceneOf "s1" ["a"] (Some "m") st_completed))
                    (sceneOf "s1" ["a"] (Some "m") st_completed))).
Proof.
  split; [vm_compute; reflexivity|].
  apply (X12_reconcile_scene_outcome storeSummaryRemoved chatSummaryRemoved "s1"
           (sceneOf "s1" ["a"] (Some "m") st_completed)).
  - exact NoDup_keys_storeSummaryRemoved.
  - vm_compute. reflexivity.
Defined.

(** X13. On a store in which every scene has a source, all its sources
    resolve and its summary, if it has one, resolves, deletion
    reconciliation reports nothing and changes neither the store nor the
    chat. *)
Theorem X13_reconcile_consistent_noop (cm : ChatMetadata) (chat : Chat) :
  NoDup (keys (scenes (getSceneFoldData cm))) →
  (∀ sid scene, (sid, scene) ∈ scenes (getSceneFoldData cm) →
     sourceMessageUUIDs scene ≠ []
     ∧ (∀ u, u ∈ sourceMessageUUIDs scene → findMessageIndexByUUID chat u None ≠ (-1)%Z)
     ∧ (∀ u, summaryMessageUUID scene = Some u → u ≠ "" →
          findMessageIndexByUUID chat u None ≠ (-1)%Z)) →
  reconcileScenesAfterDeletion cm chat
  = (mkResult [] [] [], with_scenes (getSceneFoldData cm) (scenes (getSceneFoldData cm)),
     chat).
Proof.
  intros Hnd Hok.
  destruct (reconcileScenesAfterDeletion_spec cm chat Hnd) as (chat' & -> & _ & Hchat).
  assert (Hvalid : ∀ sid scene, (sid, scene) ∈ scenes (getSceneFoldData cm) →
            validSourcesOf chat scene = sourceMessageUUIDs scene
            ∧ summaryGone chat scene = false).
  { intros sid scene Hin. destruct (Hok sid scene Hin) as (Hne & Hsrc & Hsum). split.
    - unfold validSourcesOf.
      induction (sourceMessageUUIDs scene) as [|u l IH]; [done|].
      rewrite filter_cons_True by (apply Hsrc, list_elem_of_here).
      f_equal. destruct l as [|v l]; [done|].
      apply IH; [done|]. intros w Hw. apply Hsrc. by apply list_elem_of_further.
    - unfold summaryGone. destruct (summaryMessageUUID scene) as [u|]; [|done].
      destruct (truthy u) eqn:Hu; [|done]. simpl.
      apply bool_decide_eq_false_2. apply Hsum; [done|]. by apply truthy_ne. }
  assert (Hdel : ∀ e, e ∈ scenes (getSceneFoldData cm) →
            isDeleted chat e = false ∧ summaryGone chat e.2 = false).
  { intros [sid scene] Hin. destruct (Hvalid sid scene Hin) as [Hv Hg].
    split; [|done]. unfold isDeleted. simpl. rewrite Hv.
    destruct (Hok sid scene Hin) as (Hne & _). by destruct (sourceMessageUUIDs scene). }
  rewrite (Hchat Hdel). f_equal. f_equal.
  - f_equal; apply keysWhere_none; intros [sid scene] Hin;
      destruct (Hdel _ Hin) as [Hd Hg]; destruct (Hvalid sid scene Hin) as [Hv _];
      unfold isModified, isSummaryLost, sourcesTrimmed; simpl in *;
      rewrite ?Hd, ?Hg, ?Hv, ?Nat.eqb_refl; done.
  - f_equal. apply omap_fixed. intros [sid scene] Hin.
    destruct (Hdel _ Hin) as [Hd Hg]. destruct (Hvalid sid scene Hin) as [Hv _].
    unfold reconciledEntry, sceneOutcome, isDeleted, sourcesTrimmed in *. simpl in *.
    by rewrite Hd, Hg, Hv, Nat.eqb_refl.
Qed.

Lemma X13_reconcile_consistent_noop_witness :
  reconcileScenesAfterDeletion queueStore queueChat
  = (mkResult [] [] [],
     with_scenes (getSceneFoldData queueStore) (scenes (getSceneFoldData queueStore)),
     queueChat).
Proof.
  apply (X13_reconcile_consistent_noop queueStore queueChat).
  - apply (bool_decide_unpack _). vm_compute. exact I.
  - intros sid scene Hin. simpl in Hin.
    repeat (apply elem_of_cons in Hin as [Hin|Hin]; [injection Hin as -> ->|]);
      [| | |by apply elem_of_nil in Hin];
      (split_and!; [done| |done]);
      intros u Hu; apply list_elem_of_singleton in Hu as ->; vm_compute; discriminate.
Defined.

(** ** Writes to every scene of the store *)

Section ObjMap.
Context {A : Type}.
Implicit Types (o : Obj A) (k : string) (f g : A → A).

Lemma obj_get_map f o k : obj_get k (prod_map id f <$> o) = f <$> obj_get k o.
Proof.
induction o as [|[k' v] o IH]; csimpl; [done|].
case_decide; [done|apply IH].
Qed.

Lemma keys_map f o : keys (prod_map id f <$> o) = keys o.
Proof.
unfold keys. rewrite <- list_fmap_compose. apply list_fmap_ext. by intros _ [k v] _.
Qed.

Lemma obj_set_same k (v : A) o : obj_get k o = Some v → obj_set k v o = o.
Proof.
induction o as [|[k' v'] o IH]; simpl; [done|].
case_decide as Hk; [by intros [= ->]; subst|].
intros H. f_equal. by apply IH.
Qed.

Lemma obj_set_set k (v v' : A) o : obj_set k v (obj_set k v' o) = obj_set k v o.
Proof.
induction o as [|[k0 v0] o IH]; simpl.
- by rewrite decide_True.
- case_decide as Hk; simpl; [by rewrite decide_True|].
  rewrite decide_False by done. by rewrite IH.
Qed.

Lemma obj_update_update k f g o :
obj_update k g (obj_update k f o) = obj_update k (g ∘ f) o.
Proof.
unfold obj_update. destruct (obj_get k o) as [v|] eqn:Hget.
- rewrite obj_get_set_eq. apply obj_set_set.
- by rewrite Hget.
Qed.

Lemma obj_update_fixed k f o :
(∀ v, obj_get k o = Some v → f v = v) → obj_update k f o = o.
Proof.
intros Hf. unfold obj_update. destruct (obj_get k o) as [v|] eqn:Hget; [|done].
rewrite (Hf v eq_refl). by apply obj_set_same.
Qed.

End ObjMap.

Lemma filter_none {B} (P : B → Prop) `{∀ x, Decision (P x)} (l : list B) :
  (∀ x, x ∈ l → ¬ P x) → filter P l = [].
Proof.
  induction l as [|x l IH]; intros Hl; [done|].
  rewrite filter_cons_False by (apply Hl, list_elem_of_here).
  apply IH. intros y Hy. apply Hl. by apply list_elem_of_further.
Qed.

(** ** Scenes left in progress by a chat load *)

(** X14. The reset made by [onChatChanged] leaves no scene [queued] or
    [summarizing]: such a scene is put in [error], with the error text it
    had or, if it had none, the text that it was interrupted; every other
    scene is as before and no scene is added or removed. A second reset
    changes nothing. *)
Theorem X14_resetStuckScenes (cm : ChatMetadata) :
  let cm' := resetStuckScenes cm in
  (∀ sid, statusOf cm' sid ≠ Some st_summarizing ∧ statusOf cm' sid ≠ Some st_queued)
  ∧ keys (scenes (getSceneFoldData cm')) = keys (scenes (getSceneFoldData cm))
  ∧ (∀ sid scene, getScene cm sid = Some scene →
       status scene ≠ st_summarizing → status scene ≠ st_queued →
       getScene cm' sid = Some scene)
  ∧ (∀ sid scene, getScene cm sid = Some scene →
       status scene = st_summarizing ∨ status scene = st_queued →
       getScene cm' sid
       = Some (set_lastError
                 (if truthy_opt (lastError scene) then lastError scene
                  else Some "Interrupted — scene was still in progress when chat reloaded")
                 (set_status st_error scene)))
  ∧ resetStuckScenes cm' = cm'.
Proof.
  assert (Hget : ∀ sid, getScene (resetStuckScenes cm) sid = resetStuck <$> getScene cm sid).
  { intros sid. unfold resetStuckScenes, getScene, getSceneFoldData.
    destruct (scene_fold cm) as [data|] eqn:Hd; simpl; [|by rewrite Hd].
    apply obj_get_map. }
  assert (Hst : ∀ scene, status (resetStuck scene) ≠ st_summarizing
                         ∧ status (resetStuck scene) ≠ st_queued).
  { intros scene. unfold resetStuck.
    destruct (bool_decide (status scene = st_summarizing)) eqn:H1;
      destruct (bool_decide (status scene = st_queued)) eqn:H2; simpl; try done.
    apply bool_decide_eq_false in H1, H2. done. }
  simpl. split_and!.
  - intros sid. unfold statusOf. rewrite Hget.
    destruct (getScene cm sid) as [scene|]; simpl; [|done].
    destruct (Hst scene). split; congruence.
  - unfold resetStuckScenes, getSceneFoldData.
    destruct (scene_fold cm) as [data|] eqn:Hd; simpl; [|by rewrite Hd].
    apply keys_map.
  - intros sid scene Hs H1 H2. rewrite Hget, Hs. simpl. unfold resetStuck.
    by rewrite !bool_decide_eq_false_2.
  - intros sid scene Hs Hor. rewrite Hget, Hs. simpl. unfold resetStuck.
    destruct Hor as [-> | ->]; done.
  - unfold resetStuckScenes at 1. unfold resetStuckScenes.
    destruct (scene_fold cm) as [data|] eqn:Hd; simpl; [|by rewrite Hd].
    do 3 f_equal. rewrite <- list_fmap_compose. apply list_fmap_ext.
    intros _ [k scene] _. simpl. f_equal.
    unfold resetStuck at 1. destruct (Hst scene) as [H1 H2].
    by rewrite !bool_decide_eq_false_2.
Qed.

(** ** A swipe on a message *)

Lemma markStale_fold (tags : list string) (o : Obj Scene) (sid : string) :
  obj_get sid (fold_left (λ o sceneId, obj_update sceneId markStale o) tags o)
  = (if decide (sid ∈ tags) then markStale else id) <$> obj_get sid o.
Proof.
  revert o. induction tags as [|t tags IH]; intros o; simpl.
  - by destruct (obj_get sid o).
  - rewrite IH, obj_get_update.
    assert (Hmm : ∀ s, markStale (markStale s) = markStale s).
    { intros s. unfold markStale.
      destruct (bool_decide (status s = st_completed) && negb (stale s)) eqn:Hc; simpl;
        [|by rewrite Hc].
      by rewrite andb_false_r. }
    destruct (decide (t = sid)) as [->|Hne].
    + rewrite (decide_True (P := sid ∈ sid :: tags)) by apply list_elem_of_here.
      destruct (obj_get sid o) as [s|]; simpl; [|by case_decide].
      case_decide; simpl; [by rewrite Hmm|done].
    + destruct (decide (sid ∈ tags)) as [Hin|Hnot].
      * rewrite (decide_True (P := sid ∈ t :: tags)) by (by apply list_elem_of_further).
        done.
      * rewrite (decide_False (P := sid ∈ t :: tags)); [done|].
        intros [?|?]%elem_of_cons; [congruence|done].
Qed.

(** X15. [onMessageSwiped] marks stale the completed scenes the swiped
    message is tagged with, and does nothing else: no status changes, no
    scene is added or removed, scenes the message is not tagged with and
    scenes that are not completed are as before. With the extension
    disabled nothing is written. *)
Theorem X15_onMessageSwiped (enabled : bool) (cm : ChatMetadata) (chat : Chat)
    (mesId : Z) (sid : string) :
  getScene (onMessageSwiped enabled cm chat mesId) sid
  = (λ scene,
       if enabled && bool_decide (sid ∈ getMessageScenes chat mesId)
          && bool_decide (status scene = st_completed)
       then set_stale true scene else scene) <$> getScene cm sid.
Proof.
  unfold onMessageSwiped, getMessageScenes.
  destruct enabled; simpl; [|by destruct (getScene cm sid)].
  destruct (chat_at chat mesId) as [msg|];
    [|simpl; rewrite ?bool_decide_eq_false_2 by apply not_elem_of_nil;
      by destruct (getScene cm sid)].
  destruct (extra msg) as [e|];
    [|simpl; rewrite ?bool_decide_eq_false_2 by apply not_elem_of_nil;
      by destruct (getScene cm sid)].
  destruct (scene_fold_scenes e) as [tags|]; simpl;
    [|simpl; rewrite ?bool_decide_eq_false_2 by apply not_elem_of_nil;
      by destruct (getScene cm sid)].
  unfold getScene. simpl. rewrite markStale_fold.
  destruct (obj_get sid (scenes (getSceneFoldData cm))) as [scene|]; simpl; [|done].
  f_equal. case_decide as Hin.
  - rewrite bool_decide_eq_true_2 by done. unfold markStale. simpl.
    destruct (bool_decide (status scene = st_completed)); simpl; [|done].
    destruct scene as [? ? ? ? ? ? ? ? ? [] ?]; done.
  - by rewrite bool_decide_eq_false_2.
Qed.

(** ** Folding and unfolding *)

(** X16. [toggleFold] flips the [folded] flag of a completed scene and
    of no other scene: on a scene that is not completed, or not in the
    store, it writes nothing. Toggling twice restores the store. *)
Theorem X16_toggleFold (cm : ChatMetadata) (sid : string) :
  let cm' := toggleFold cm sid in
  getScene cm' sid
  = (λ scene, if bool_decide (status scene = st_completed)
              then set_folded (negb (folded scene)) scene else scene) <$> getScene cm sid
  ∧ (∀ sid', sid' ≠ sid → getScene cm' sid' = getScene cm sid')
  ∧ keys (scenes (getSceneFoldData cm')) = keys (scenes (getSceneFoldData cm))
  ∧ getSceneFoldData (toggleFold cm' sid) = getSceneFoldData cm.
Proof.
  assert (Heta : mkData (scenes (getSceneFoldData cm)) (settings (getSceneFoldData cm))
                 = getSceneFoldData cm) by (by destruct (getSceneFoldData cm)).
  cbv zeta. unfold toggleFold, getScene.
  destruct (obj_get sid (scenes (getSceneFoldData cm))) as [scene|] eqn:Hget; simpl.
  - destruct (bool_decide (status scene = st_completed)) eqn:Hc; simpl.
    + rewrite !obj_get_update, !decide_True, Hget by done. simpl. rewrite Hc. simpl.
      split_and!.
      * done.
      * intros sid' Hne. rewrite obj_get_update. by rewrite decide_False.
      * unfold obj_update. rewrite Hget. apply keys_obj_set_in.
        apply obj_get_Some_elem in Hget. apply list_elem_of_fmap. by exists (sid, scene).
      * simpl. rewrite obj_update_update.
        rewrite (obj_update_fixed sid
                   ((λ s, set_folded (negb (folded s)) s)
                    ∘ (λ s, set_folded (negb (folded s)) s))); [done|].
        intros v Hv. simpl. destruct v. simpl. by rewrite negb_involutive.
    + rewrite Hget, Hc. simpl. split_and!; done.
  - rewrite Hget. simpl. split_and!; done.
Qed.

(** X17. The loops of [slashSceneExpand] and [slashSceneCollapse] for
    all scenes put the [folded] flag of every completed scene at the
    target value and leave the scenes that are not completed alone; the
    count returned is the number of scenes whose flag was changed, and a
    second run changes nothing and returns [0]. *)
Theorem X17_setFoldAll (target : bool) (cm : ChatMetadata) :
  let r := setFoldAll target cm in
  (∀ sid, getScene r.2 sid
          = (λ scene, if bool_decide (status scene = st_completed)
                      then set_folded target scene else scene) <$> getScene cm sid)
  ∧ keys (scenes (getSceneFoldData r.2)) = keys (scenes (getSceneFoldData cm))
  ∧ r.1 = length (filter (λ p, status p.2 = st_completed ∧ folded p.2 ≠ target)
                    (scenes (getSceneFoldData cm)))
  ∧ setFoldAll target r.2 = (0%nat, r.2).
Proof.
  assert (Hhit : ∀ scene,
            (if bool_decide (status scene = st_completed) && negb (eqb (folded scene) target)
             then set_folded target scene else scene)
            = (if bool_decide (status scene = st_completed)
               then set_folded target scene else scene)).
  { intros scene. destruct (bool_decide (status scene = st_completed)); simpl; [|done].
    destruct (eqb (folded scene) target) eqn:He; simpl; [|done].
    apply eqb_prop in He. destruct scene. simpl in *. by subst. }
  unfold setFoldAll. simpl. split_and!.
  - intros sid. unfold getScene. simpl. rewrite obj_get_map.
    destruct (obj_get sid (scenes (getSceneFoldData cm))) as [scene|]; simpl; [|done].
    by rewrite Hhit.
  - apply keys_map.
  - f_equal. apply list_filter_iff. intros [k scene]. simpl.
    rewrite andb_true_iff, bool_decide_eq_true, negb_true_iff, eqb_false_iff. done.
  - f_equal.
    + rewrite filter_none; [done|].
      intros [k scene] (x & Hx & _)%list_elem_of_fmap. simpl.
      destruct x as [k' s]. simpl in Hx. injection Hx as -> ->. rewrite Hhit.
      destruct (bool_decide (status s = st_completed)) eqn:Hc; simpl.
      * rewrite Hc. simpl. rewrite eqb_reflx. done.
      * rewrite Hc. done.
    + unfold with_scenes. simpl. do 3 f_equal.
      rewrite <- list_fmap_compose. apply list_fmap_ext.
      intros _ [k s] _. simpl. f_equal. rewrite !Hhit.
      destruct (bool_decide (status s = st_completed)) eqn:Hc; simpl; rewrite Hc; [|done].
      by destruct s.
Qed.

(** ** The queue: membership *)

Lemma processNext_queue env (w : World) :
  w_queue (_processNext env w)
  = match _pending (w_queue w) with
    | [] => mkQueue [] None None false 0 0
    | sceneId :: rest =>
        mkQueue rest (Some sceneId) (Some (length (w_controllers w))) true
          (_batchTotal (w_queue w)) (_batchDone (w_queue w))
    end.
Proof.
  unfold _processNext. destruct (_pending (w_queue w)) as [|sid rest] eqn:Hp.
  - done.
  - by destruct (worker _ _ _ _) as [ctx o].
Qed.

(** X18. After [add(sceneId)] the queue holds the scene, pending or
    active, and adding it again changes nothing: a scene is never
    enqueued twice. *)
Theorem X18_add_once (env : Env) (w : World) (sid : string) :
  has (w_queue (add env w sid)) sid = true
  ∧ add env (add env w sid) sid = add env w sid.
Proof.
  assert (Hhas : has (w_queue (add env w sid)) sid = true).
  { unfold add, has.
    destruct (bool_decide (sid ∈ _pending (w_queue w))
              || bool_decide (_activeId (w_queue w) = Some sid)) eqn:Hdup; [done|].
    destruct (_processing (w_queue w)); simpl.
    - rewrite (bool_decide_eq_true_2 (sid ∈ _ ++ [sid])); [done|].
      apply elem_of_app. right. apply list_elem_of_here.
    - rewrite processNext_queue. simpl.
      destruct (_pending (w_queue w)) as [|x p]; simpl.
      + rewrite (bool_decide_eq_true_2 (Some sid = Some sid)) by done.
        by rewrite ?orb_true_r.
      + rewrite (bool_decide_eq_true_2 (sid ∈ p ++ [sid])); [done|].
        apply elem_of_app. right. apply list_elem_of_here. }
  split; [done|].
  unfold has in Hhas. unfold add at 1. by rewrite Hhas.
Qed.

(** ** The queue: cancelling *)

Lemma abortActive_idemp (w : World) : abortActive (abortActive w) = abortActive w.
Proof.
  unfold abortActive. destruct (_activeAbort (w_queue w)) as [c|] eqn:Hc; simpl.
  - rewrite Hc. unfold with_controllers. simpl. f_equal. apply list_insert_insert_eq.
  - by rewrite Hc.
Qed.

(** X19. Cancelling a scene that is neither pending nor active changes
    nothing, and in a queue whose pending list holds no scene twice and
    does not hold the active scene, cancelling a scene twice is the same
    as cancelling it once. *)
Theorem X19_cancel_idempotent (w : World) (sid : string) :
  NoDup (_pending (w_queue w)) →
  (∀ s, _activeId (w_queue w) = Some s → s ∉ _pending (w_queue w)) →
  (sid ∉ _pending (w_queue w) → _activeId (w_queue w) ≠ Some sid → cancel w sid = w)
  ∧ cancel (cancel w sid) sid = cancel w sid.
Proof.
  intros Hnd Hact. split.
  - intros Hp Ha. unfold cancel.
    by rewrite (bool_decide_eq_false_2 _ Hp), (bool_decide_eq_false_2 _ Ha).
  - destruct (decide (sid ∈ _pending (w_queue w))) as [Hp|Hp].
    + assert (E : cancel w sid
                  = with_metadata (revertQueued (w_chatMetadata w) sid)
                      (with_queue
                         (mkQueue (removeFirst sid (_pending (w_queue w)))
                            (_activeId (w_queue w)) (_activeAbort (w_queue w))
                            (_processing (w_queue w)) (_batchTotal (w_queue w))
                            (S (_batchDone (w_queue w)))) w)).
      { unfold cancel. by rewrite (bool_decide_eq_true_2 _ Hp). }
      rewrite E. unfold cancel at 1. simpl.
      rewrite bool_decide_eq_false_2.
      * rewrite bool_decide_eq_false_2; [done|]. intros Ha. by apply (Hact sid).
      * rewrite elem_of_removeFirst by done. by intros [_ ?].
    + destruct (decide (_activeId (w_queue w) = Some sid)) as [Ha|Ha].
      * assert (E : cancel w sid = abortActive w).
        { unfold cancel.
          by rewrite (bool_decide_eq_false_2 _ Hp), (bool_decide_eq_true_2 _ Ha). }
        rewrite E. unfold cancel.
        assert (Hq : w_queue (abortActive w) = w_queue w).
        { unfold abortActive. by destruct (_activeAbort (w_queue w)). }
        rewrite Hq, (bool_decide_eq_false_2 _ Hp), (bool_decide_eq_true_2 _ Ha).
        apply abortActive_idemp.
      * assert (E : cancel w sid = w).
        { unfold cancel.
          by rewrite (bool_decide_eq_false_2 _ Hp), (bool_decide_eq_false_2 _ Ha). }
        by rewrite !E.
Qed.

Lemma X19_cancel_idempotent_witness :
  let w := mkWorld queueStore queueChat 0 [false]
             (mkQueue ["s2"; "s3"] (Some "s1") (Some 0%nat) true 3 0) [] 0 in
  _pending (w_queue (cancel w "s2")) = ["s3"]
  ∧ (("s2" ∉ _pending (w_queue w) → _activeId (w_queue w) ≠ Some "s2" → cancel w "s2" = w)
     ∧ cancel (cancel w "s2") "s2" = cancel w "s2").
Proof.
  split; [vm_compute; reflexivity|].
  apply (X19_cancel_idempotent
           (mkWorld queueStore queueChat 0 [false]
              (mkQueue ["s2"; "s3"] (Some "s1") (Some 0%nat) true 3 0) [] 0) "s2").
  - apply (bool_decide_unpack _). vm_compute. exact I.
  - intros s [= <-]. apply (bool_decide_unpack _). vm_compute. exact I.
Defined.

(** ** The queue: order of a batch *)

Lemma fold_add_busy env (rest : list string) : ∀ cm chat n cs pending active ab bt bd ts k,
  NoDup (pending ++ rest) → (∀ x, x ∈ rest → active ≠ Some x) →
  fold_left (add env) rest
    (mkWorld cm chat n cs (mkQueue pending active ab true bt bd) ts k)
  = mkWorld (fold_left (λ cm sid, updateScene cm sid (set_status st_queued)) rest cm)
      chat n cs (mkQueue (pending ++ rest) active ab true (bt + length rest) bd) ts k.
Proof.
  induction rest as [|x rest IH]; intros cm chat n cs pending active ab bt bd ts k Hnd Hact.
  - simpl. by rewrite app_nil_r, Nat.add_0_r.
  - simpl. rewrite add_busy.
    + rewrite IH.
      * rewrite <- app_assoc. simpl. do 2 f_equal. f_equal. lia.
      * by rewrite <- app_assoc.
      * intros y Hy. apply Hact. by apply list_elem_of_further.
    + apply NoDup_app in Hnd as (_ & Hdisj & _). intros Hx. apply (Hdisj x Hx).
      apply list_elem_of_here.
    + apply Hact. apply list_elem_of_here.
Qed.

Lemma statusOf_fold_queued (rest : list string) (cm : ChatMetadata) (sid : string) :
  statusOf (fold_left (λ cm sid, updateScene cm sid (set_status st_queued)) rest cm) sid
  = if decide (sid ∈ rest) then (λ _, st_queued) <$> statusOf cm sid else statusOf cm sid.
Proof.
  revert cm. induction rest as [|x rest IH]; intros cm; simpl.
  - done.
  - rewrite IH, statusOf_queued.
    destruct (decide (x = sid)) as [->|Hne].
    + rewrite (decide_True (P := sid ∈ sid :: rest)) by apply list_elem_of_here.
      case_decide; [|done]. by destruct (statusOf cm sid).
    + destruct (decide (sid ∈ rest)) as [Hin|Hnot].
      * by rewrite (decide_True (P := sid ∈ x :: rest)) by (by apply list_elem_of_further).
      * rewrite (decide_False (P := sid ∈ x :: rest)); [done|].
        intros [?|?]%elem_of_cons; [congruence|done].
Qed.

(** X20. [addAll] on an idle queue, with ids that are pairwise
    distinct: the first id becomes the active scene at once, the others
    are pending in the order given and [queued] in the store, and the
    progress counts one batch of that size with nothing done. *)
Theorem X20_addAll_in_order (env : Env) (cm : ChatMetadata) (chat : list Message)
    (n : nat) (cs : list bool) (bt bd : nat) (s : string) (rest : list string) :
  NoDup (s :: rest) →
  let w := addAll env (mkWorld cm chat n cs (mkQueue [] None None false bt bd) [] 0)
             (s :: rest) in
  _activeId (w_queue w) = Some s
  ∧ _pending (w_queue w) = rest
  ∧ _processing (w_queue w) = true
  ∧ progress (w_queue w) = mkProgress 1 (S (length rest)) (Some s) (length rest)
  ∧ ∀ sid, sid ∈ rest →
      statusOf (w_chatMetadata w) sid = (λ _, st_queued) <$> statusOf cm sid.
Proof.
  intros [Hs Hnd]%NoDup_cons. unfold addAll. wsimpl.
  rewrite add_idle.
  pose proof (worker_sound env (updateScene cm s (set_status st_queued)) chat n s false)
    as (Hoth & _).
  destruct (worker env (updateScene cm s (set_status st_queued), chat, n) s false)
    as [[[cm' chat'] n'] o]. simpl in *.
  rewrite fold_add_busy; [|done|intros x Hx [= ->]; done].
  simpl. split_and!; try done.
  intros sid Hsid. rewrite statusOf_fold_queued, decide_True by done.
  rewrite Hoth by (intros ->; done).
  rewrite statusOf_queued, decide_False; [done|]. intros ->. done.
Qed.

Lemma X20_addAll_in_order_witness :
  let w := addAll queueEnv (mkWorld queueStore queueChat 0 [] (mkQueue [] None None false 0 0) [] 0)
             ["s1"; "s2"; "s3"] in
  _activeId (w_queue w) = Some "s1"
  ∧ _pending (w_queue w) = ["s2"; "s3"]
  ∧ _processing (w_queue w) = true
  ∧ progress (w_queue w) = mkProgress 1 3 (Some "s1") 2
  ∧ ∀ sid, sid ∈ ["s2"; "s3"] →
      statusOf (w_chatMetadata w) sid = (λ _, st_queued) <$> statusOf queueStore sid.
Proof.
  apply (X20_addAll_in_order queueEnv queueStore queueChat 0 [] 0 0 "s1" ["s2"; "s3"]).
  apply (bool_decide_unpack _). vm_compute. exact I.
Defined.

(** ** The queue: pending scenes are not stranded *)

(** Something will call [_processNext] again: a worker call is in
    flight, or a timer is set. *)
Definition willContinue (w : World) : Prop := w_tasks w ≠ [] ∨ w_timers w ≠ 0%nat.

(** A queue that is not processing has nothing pending, and a queue that
    is processing has something to wake it. *)
Definition Live (w : World) : Prop :=
  (_processing (w_queue w) = false → _pending (w_queue w) = [])
  ∧ (_processing (w_queue w) = true → willContinue w).

Section Liveness.
Variable env : Env.

Lemma processNext_live w : Live (_processNext env w).
Proof.
unfold Live, willContinue, _processNext.
destruct (_pending (w_queue w)) as [|sid rest] eqn:Hp; simpl.
- by split.
- destruct (worker _ _ _ _) as [ctx o]. simpl. split; [done|].
  intros _. left. by destruct (w_tasks w).
Qed.

Lemma add_live w sid : Live w → Live (add env w sid).
Proof.
intros [H1 H2]. unfold add.
destruct (_ || _); [by split|].
destruct (_processing (w_queue w)) eqn:Hproc; simpl; [|apply processNext_live].
split; simpl; [done|]. intros _. by apply H2.
Qed.

Lemma addAll_live w sids : Live w → Live (addAll env w sids).
Proof.
intros Hl. unfold addAll. set (w1 := with_queue _ w).
assert (Hl1 : Live w1) by (by destruct Hl).
clearbody w1. clear Hl. revert w1 Hl1.
induction sids as [|sid sids IH]; intros w1 Hl1; simpl; [done|].
apply IH. by apply add_live.
Qed.

Lemma abortActive_live w : Live w → Live (abortActive w).
Proof. intros Hl. unfold abortActive. by destruct (_activeAbort (w_queue w)). Qed.

Lemma cancel_live w sid : Live w → Live (cancel w sid).
Proof.
intros Hl. unfold cancel.
destruct (bool_decide (sid ∈ _pending (w_queue w))).
- destruct Hl as [H1 H2]. split; simpl; [|done].
  intros Hp. by rewrite (H1 Hp).
- destruct (bool_decide _); [by apply abortActive_live|done].
Qed.

Lemma cancelAll_live w : Live w → Live (cancelAll w).
Proof.
intros Hl%abortActive_live. unfold cancelAll.
destruct Hl as [H1 H2]. by split.
Qed.

Lemma settle_live w i answer w' : Live w → settle env w i answer = Some w' → Live w'.
Proof.
intros [H1 H2]. unfold settle.
destruct (w_tasks w !! i) as [task|] eqn:Ht; [|done].
destruct (resumeWorker _ _ _ _ _ _) as [[ctx o]|]; [|done].
intros [= <-]. split; simpl; [done|].
intros Hp. left. destruct (w_tasks w); [by rewrite lookup_nil in Ht|].
by destruct i.
Qed.

Lemma drainTask_fold (ts : list Task) : ∀ w kept,
let r := fold_left drainTask ts (w, kept) in
_processing (w_queue r.1) = _processing (w_queue w)
∧ _pending (w_queue r.1) = _pending (w_queue w)
∧ (w_timers w ≤ w_timers r.1)%nat
∧ (ts ≠ [] ∨ kept ≠ [] → r.2 ≠ [] ∨ w_timers r.1 ≠ 0%nat).
Proof.
induction ts as [|t ts IH]; intros w kept; simpl.
- split_and!; [done|done|lia|]. intros [?|?]; [done|by left].
- unfold drainTask at 2. destruct (task_point t) as [| | |err].
  1-3: destruct (IH w (kept ++ [t])) as (? & ? & ? & Hc);
       split_and!; [done|done|done|]; intros _; apply Hc; right; by destruct kept.
  destruct (IH (_processNext_resume w t err) kept) as (Hp & Hq & Ht & Hc).
  simpl in *. split_and!; [done|done|lia|]. intros _. right. lia.
Qed.

Lemma drain_live w : Live w → Live (drain w).
Proof.
intros [H1 H2]. unfold drain.
pose proof (drainTask_fold (w_tasks w) w []) as (Hp & Hq & Ht & Hc).
destruct (fold_left drainTask (w_tasks w) (w, [])) as [w' kept]. simpl in *.
split; simpl.
- rewrite Hp, Hq. apply H1.
- rewrite Hp. intros Hproc. destruct (H2 Hproc) as [Hts|Htm].
  + unfold willContinue. simpl. apply Hc. by left.
  + right. simpl. lia.
Qed.

Lemma step_live w ev w' : Live w → step env w ev = Some w' → Live w'.
Proof.
intros Hl. destruct ev as [sid|sids|sid| |i answer|]; unfold step.
- intros [= <-]. by apply drain_live, add_live.
- intros [= <-]. by apply drain_live, addAll_live.
- intros [= <-]. by apply drain_live, cancel_live.
- intros [= <-]. by apply drain_live, cancelAll_live.
- destruct (settle env w i answer) as [w1|] eqn:Hs; simpl; [|done].
  intros [= <-]. apply drain_live. by apply (settle_live w i answer).
- destruct (w_timers w) as [|k]; [done|].
  intros [= <-]. apply drain_live, processNext_live.
Qed.

Lemma run_live evs : ∀ w w', Live w → run env w evs = Some w' → Live w'.
Proof.
induction evs as [|ev evs IH]; intros w w' Hl; simpl.
- by intros [= <-].
- destruct (step env w ev) as [w1|] eqn:Hstep; [|done].
  apply IH. by apply (step_live w ev).
Qed.

End Liveness.

(** X21. After any run of queue calls, settled external calls and
    timers from a fresh queue, a pending scene is never stranded: while a
    scene is pending the queue is processing, and while the queue is
    processing a worker call is in flight or the timer that calls
    [_processNext] is set. *)
Theorem X21_pending_not_stranded (env : Env) (cm : ChatMetadata) (chat : list Message)
    (n : nat) (evs : list Event) (w : World) :
  run env (initialWorld cm chat n) evs = Some w →
  (_pending (w_queue w) ≠ [] → _processing (w_queue w) = true)
  ∧ (_processing (w_queue w) = true → w_tasks w ≠ [] ∨ w_timers w ≠ 0%nat).
Proof.
  intros Hrun.
  assert (Hl : Live (initialWorld cm chat n)) by (by split).
  destruct (run_live env evs _ _ Hl Hrun) as [H1 H2]. split; [|done].
  intros Hp. destruct (_processing (w_queue w)); [done|]. by destruct Hp; apply H1.
Qed.

Lemma X21_pending_not_stranded_witness :
  ∃ w, run queueEnv (initialWorld queueStore queueChat 0)
         [EvAddAll ["s1"; "s2"]; EvSettle 0 (inr (newError "network down"));
          EvSettle 0 (inr (newError "network down"));
          EvSettle 0 (inr (newError "network down"))] = Some w
  ∧ _pending (w_queue w) = ["s2"] ∧ w_tasks w = [] ∧ w_timers w = 1%nat
  ∧ ((_pending (w_queue w) ≠ [] → _processing (w_queue w) = true)
     ∧ (_processing (w_queue w) = true → w_tasks w ≠ [] ∨ w_timers w ≠ 0%nat)).
Proof.
  eexists. split; [vm_compute; reflexivity|].
  split; [vm_compute; reflexivity|]. split; [vm_compute; reflexivity|].
  split; [vm_compute; reflexivity|].
  eapply (X21_pending_not_stranded queueEnv queueStore queueChat 0
            [EvAddAll ["s1"; "s2"]; EvSettle 0 (inr (newError "network down"));
             EvSettle 0 (inr (newError "network down"));
             EvSettle 0 (inr (newError "network down"))]).
  vm_compute. reflexivity.
Defined.

(** ** Inserting the summary message *)

(** [chat.splice(k, 0, m)] *)
Definition insertAt (k : nat) (m : Message) (chat : Chat) : Chat :=
  take k chat ++ m :: drop k chat.

(** Where the message at [i] sits after an insertion at [k]. *)
Definition shifted (k i : nat) : nat := if (i <? k)%nat then i else S i.

Section InsertAt.
Implicit Types (chat : Chat) (m : Message) (k i j : nat).

Lemma insertAt_length k m chat : length (insertAt k m chat) = S (length chat).
Proof.
unfold insertAt. rewrite length_app. simpl. rewrite length_take, length_drop. lia.
Qed.

Lemma insertAt_lookup_new k m chat :
(k ≤ length chat)%nat → insertAt k m chat !! k = Some m.
Proof.
intros Hk. unfold insertAt.
rewrite lookup_app_r by (rewrite length_take; lia).
rewrite length_take. by replace (k - k `min` length chat)%nat with 0%nat by lia.
Qed.

Lemma insertAt_lookup_old k m chat i :
(k ≤ length chat)%nat → insertAt k m chat !! shifted k i = chat !! i.
Proof.
intros Hk. unfold insertAt, shifted.
destruct (i <? k)%nat eqn:Hi; [apply Nat.ltb_lt in Hi|apply Nat.ltb_ge in Hi].
- rewrite lookup_app_l by (rewrite length_take; lia). by apply lookup_take_lt.
- rewrite lookup_app_r by (rewrite length_take; lia).
  rewrite length_take. replace (S i - k `min` length chat)%nat with (S (i - k)) by lia.
  simpl. rewrite lookup_drop. f_equal. lia.
Qed.

(** Every position of the new chat is the new message's or a shifted
  old one. *)
Lemma insertAt_positions k j : j = k ∨ ∃ i, j = shifted k i.
Proof.
unfold shifted. destruct (decide (j = k)) as [->|Hne]; [by left|right].
destruct (decide (j < k)%nat).
- exists j. by rewrite (proj2 (Nat.ltb_lt _ _)).
- exists (j - 1)%nat. rewrite (proj2 (Nat.ltb_ge _ _)) by lia. lia.
Qed.

Lemma shifted_inj k i i' : shifted k i = shifted k i' → i = i'.
Proof.
unfold shifted.
destruct (i <? k)%nat eqn:H1, (i' <? k)%nat eqn:H2;
  rewrite ?Nat.ltb_lt, ?Nat.ltb_ge in *; lia.
Qed.

Lemma shifted_ne k i : shifted k i ≠ k.
Proof. unfold shifted. destruct (i <? k)%nat eqn:H1; rewrite ?Nat.ltb_lt, ?Nat.ltb_ge in *; lia. Qed.

Lemma shifted_mono k i i' : (i < i')%nat → (shifted k i < shifted k i')%nat.
Proof.
unfold shifted.
destruct (i <? k)%nat eqn:H1, (i' <? k)%nat eqn:H2;
  rewrite ?Nat.ltb_lt, ?Nat.ltb_ge in *; lia.
Qed.

Lemma insertAt_uuid_old k m chat i :
(k ≤ length chat)%nat → uuid_at (insertAt k m chat) (shifted k i) = uuid_at chat i.
Proof. intros Hk. unfold uuid_at. by rewrite insertAt_lookup_old. Qed.

Lemma insertAt_uuid_new k m chat :
(k ≤ length chat)%nat → uuid_at (insertAt k m chat) k = msg_uuid m.
Proof. intros Hk. unfold uuid_at. by rewrite insertAt_lookup_new. Qed.

(** The scan for an identifier the new message does not hold finds the
  same message, at its shifted position. *)
Lemma scan_insertAt k m chat u :
(k ≤ length chat)%nat → msg_uuid m ≠ Some u →
findMessageIndexByUUID (insertAt k m chat) u None
= if decide (findMessageIndexByUUID chat u None = (-1)%Z) then (-1)%Z
  else Z.of_nat (shifted k (Z.to_nat (findMessageIndexByUUID chat u None))).
Proof.
intros Hk Hm.
destruct (decide (findMessageIndexByUUID chat u None = (-1)%Z)) as [Hnone|Hsome].
- apply findMessageIndexByUUID_none. intros j Hj.
  pose proof (proj1 (findMessageIndexByUUID_none _ _ _) Hnone) as Hn.
  destruct (insertAt_positions k j) as [->|(i & ->)].
  + by rewrite insertAt_uuid_new in Hj.
  + rewrite insertAt_uuid_old in Hj by done. by apply (Hn i).
- unfold findMessageIndexByUUID in *. simpl in *.
  destruct (linearScan_found _ _ _ Hsome) as (q & Hq & Hu & Hfirst).
  rewrite Hq. simpl. rewrite Nat2Z.id.
  assert (Hres : linearScan 0 (insertAt k m chat) u = Z.of_nat (0 + shifted k q)).
  { apply linearScan_first.
    - by rewrite insertAt_uuid_old.
    - intros j Hj. destruct (insertAt_positions k j) as [->|(i & ->)].
      + by rewrite insertAt_uuid_new.
      + rewrite insertAt_uuid_old by done. apply Hfirst.
        destruct (decide (i < q)%nat); [done|].
        assert (q = i ∨ q < i)%nat as [->|Hlt] by lia; [lia|].
        apply (shifted_mono k) in Hlt. lia. }
  by rewrite Hres.
Qed.

End InsertAt.

Section HideAndInsert.
Implicit Types (chat : Chat) (m : Message) (f : Message → Message).

Lemma scan_ge chat u : (-1 ≤ findMessageIndexByUUID chat u None)%Z.
Proof.
unfold findMessageIndexByUUID. simpl.
destruct (linearScan_bounds chat u 0) as [->|?]; lia.
Qed.

Lemma resolvesTo_insertAt k m chat srcs i :
(k ≤ length chat)%nat → (∀ u, u ∈ srcs → msg_uuid m ≠ Some u) →
resolvesTo (insertAt k m chat) srcs (shifted k i) ↔ resolvesTo chat srcs i.
Proof.
intros Hk Hm. unfold resolvesTo. rewrite !Exists_exists.
split; intros (u & Hu & Hr); exists u; (split; [done|]).
- rewrite scan_insertAt in Hr by auto. case_decide as Hn; [lia|].
  apply Nat2Z.inj, shifted_inj in Hr. pose proof (scan_ge chat u). lia.
- rewrite scan_insertAt by auto. rewrite decide_False by lia.
  by rewrite Hr, Nat2Z.id.
Qed.

Lemma resolvesTo_insertAt_new k m chat srcs :
(k ≤ length chat)%nat → (∀ u, u ∈ srcs → msg_uuid m ≠ Some u) →
¬ resolvesTo (insertAt k m chat) srcs k.
Proof.
intros Hk Hm. unfold resolvesTo. rewrite Exists_exists. intros (u & Hu & Hr).
rewrite scan_insertAt in Hr by auto. case_decide as Hn; [lia|].
apply Nat2Z.inj in Hr. by apply shifted_ne in Hr.
Qed.

(** A loop of writes to the resolved sources does the same before and
  after the insertion of a message that is not a source. *)
Lemma modifyResolved_insertAt f srcs k m chat :
(∀ x, msg_uuid (f x) = msg_uuid x) → (∀ x, f (f x) = f x) →
(k ≤ length chat)%nat → (∀ u, u ∈ srcs → msg_uuid m ≠ Some u) →
modifyResolved f srcs (insertAt k m chat) = insertAt k m (modifyResolved f srcs chat).
Proof.
intros Hf Hff Hk Hm. apply list_eq. intros j.
rewrite modifyResolved_lookup by done.
assert (Hk' : (k ≤ length (modifyResolved f srcs chat))%nat)
  by (by rewrite modifyResolved_length).
destruct (insertAt_positions k j) as [->|(i & ->)].
- rewrite decide_False by (by apply resolvesTo_insertAt_new).
  by rewrite !insertAt_lookup_new.
- rewrite !insertAt_lookup_old by done. rewrite modifyResolved_lookup by done.
  destruct (decide (resolvesTo chat srcs i)) as [Hr|Hr].
  + by rewrite decide_True by (by apply resolvesTo_insertAt).
  + rewrite decide_False; [done|]. by rewrite resolvesTo_insertAt.
Qed.

Lemma insertAt_delete k m chat :
(k ≤ length chat)%nat → delete k (insertAt k m chat) = chat.
Proof.
intros Hk. unfold insertAt.
assert (Hl : length (take k chat) = k) by (rewrite length_take; lia).
rewrite <- Hl at 1. rewrite delete_middle. apply take_drop.
Qed.

Lemma fold_min (l : list Z) (x : Z) :
let r := fold_left Z.min l x in
(r = x ∨ r ∈ l) ∧ (r ≤ x)%Z ∧ ∀ y, y ∈ l → (r ≤ y)%Z.
Proof.
revert x. induction l as [|y l IH]; intros x; simpl.
- split_and!; [by left|lia|]. by intros y ?%elem_of_nil.
- destruct (IH (Z.min x y)) as (H1 & H2 & H3). split_and!.
  + destruct H1 as [H1|H1]; [|right; by apply list_elem_of_further].
    rewrite H1. destruct (Z.min_spec x y) as [[_ E]|[_ E]]; rewrite E; [by left|].
    right. apply list_elem_of_here.
  + lia.
  + intros z [->|Hz]%elem_of_cons; [lia|by apply H3].
Qed.

Lemma collectSourceIndices_elem chat srcs p :
p ∈ collectSourceIndices chat srcs →
∃ q, p = Z.of_nat q ∧ (q < length chat)%nat.
Proof.
unfold collectSourceIndices. intros [Hne Hin]%list_elem_of_filter.
apply list_elem_of_fmap in Hin as (u & -> & _).
apply findMessageIndexByUUID_found in Hne as (q & Hq & Hu).
exists q. split; [done|]. by eapply uuid_at_lt.
Qed.

(** The insertion point is the least of the positions collected. *)
Lemma firstSourceIdx_spec chat srcs :
collectSourceIndices chat srcs ≠ [] →
let k := firstSourceIdx chat (collectSourceIndices chat srcs) in
Z.of_nat k ∈ collectSourceIndices chat srcs
∧ (∀ p, p ∈ collectSourceIndices chat srcs → (Z.of_nat k ≤ p)%Z)
∧ (k < length chat)%nat.
Proof.
intros Hne. unfold firstSourceIdx.
destruct (collectSourceIndices chat srcs) as [|x l] eqn:Hidx; [done|]. simpl.
destruct (fold_min l x) as (H1 & H2 & H3).
set (r := fold_left Z.min l x) in *.
assert (Hin : r ∈ x :: l).
{ destruct H1 as [->|?]; [apply list_elem_of_here|by apply list_elem_of_further]. }
assert (Hr : ∃ q, r = Z.of_nat q ∧ (q < length chat)%nat).
{ apply (collectSourceIndices_elem chat srcs). by rewrite Hidx. }
destruct Hr as (q & Hq & Hlt). rewrite Hq, Nat2Z.id. split_and!.
- by rewrite <- Hq.
- intros p [->|Hp]%elem_of_cons; [lia|]. specialize (H3 p Hp). lia.
- done.
Qed.

End HideAndInsert.

(** The message [summarizeScene] inserts. *)
Definition summaryMessageOf (summaryUUID sceneId summary : string) : Message :=
  mkMessage (Some "Scene Summary") false false (trim summary)
    (Some (mkExtra (Some summaryUUID) None (Some "summary") (Some sceneId)
             (Some "narrator"))).

Lemma summarizeScene_complete_eq env cm chat n sid scene idx summary :
  getScene cm sid = Some scene →
  (firstSourceIdx chat idx ≤ length chat)%nat →
  (∀ j, uuid_at chat j ≠ Some (uuidv4 env n)) →
  uuidv4 env n ∉ sourceMessageUUIDs scene →
  summarizeScene_complete env (cm, chat, n) sid idx summary
  = (updateScene cm sid
       (λ s, set_summary (Some (uuidv4 env n)) (set_folded true (set_status st_completed s))),
     insertAt (firstSourceIdx chat idx) (summaryMessageOf (uuidv4 env n) sid summary)
       (modifyResolved (set_is_system true) (sourceMessageUUIDs scene) chat),
     S n, Suspended AwaitSaveChat).
Proof.
  intros Hget Hk Hfresh Hsrc. unfold summarizeScene_complete. rewrite Hget. simpl.
  do 3 f_equal.
  change (hideSources (sourceMessageUUIDs scene) ?c)
    with (modifyResolved (set_is_system true) (sourceMessageUUIDs scene) c).
  apply (modifyResolved_insertAt (set_is_system true) (sourceMessageUUIDs scene)
           (firstSourceIdx chat idx) (summaryMessageOf (uuidv4 env n) sid summary) chat);
    [done|done|done|].
  intros u Hu [= <-]. done.
Qed.

Lemma summary_resolves env chat n sid srcs k summary :
  (k ≤ length chat)%nat →
  (∀ j, uuid_at chat j ≠ Some (uuidv4 env n)) →
  findMessageIndexByUUID
    (insertAt k (summaryMessageOf (uuidv4 env n) sid summary)
       (modifyResolved (set_is_system true) srcs chat))
    (uuidv4 env n) None = Z.of_nat k.
Proof.
  intros Hk Hfresh.
  assert (Hlen : (k ≤ length (modifyResolved (set_is_system true) srcs chat))%nat)
    by (rewrite modifyResolved_length; lia).
  unfold findMessageIndexByUUID. simpl.
  rewrite (linearScan_first _ _ 0 k); [done| |].
  - by rewrite insertAt_uuid_new.
  - intros j Hj. replace j with (shifted k j)
      by (unfold shifted; by rewrite (proj2 (Nat.ltb_lt _ _))).
    rewrite insertAt_uuid_old by done.
    rewrite (uuid_at_ext _ chat) by (by apply modifyResolved_uuids). apply Hfresh.
Qed.

(** X23. A summary that is accepted: the summary message, with a fresh
    identifier, is inserted at the least position a source resolves to, so
    directly in front of the first source; every message of the chat is
    still there, shifted by one from that position on, hidden if a source
    resolves to it and otherwise as it was; the scene becomes [completed]
    and folded, and its summary identifier resolves to the inserted
    message. *)
Theorem X23_summary_inserted (env : Env) (cm : ChatMetadata) (chat : list Message)
    (n : nat) (sid : string) (scene : Scene) (summary : string) :
  getScene cm sid = Some scene →
  collectSourceIndices chat (sourceMessageUUIDs scene) ≠ [] →
  (∀ j, uuid_at chat j ≠ Some (uuidv4 env n)) →
  uuidv4 env n ∉ sourceMessageUUIDs scene →
  let idx := collectSourceIndices chat (sourceMessageUUIDs scene) in
  let r := summarizeScene_complete env (cm, chat, n) sid idx summary in
  let k := firstSourceIdx chat idx in
  r.2 = Suspended AwaitSaveChat
  ∧ Z.of_nat k ∈ idx ∧ (∀ p, p ∈ idx → (Z.of_nat k ≤ p)%Z)
  ∧ length r.1.1.2 = S (length chat)
  ∧ r.1.1.2 !! k = Some (summaryMessageOf (uuidv4 env n) sid summary)
  ∧ (∀ i m, chat !! i = Some m →
       r.1.1.2 !! shifted k i
       = Some (if decide (resolvesTo chat (sourceMessageUUIDs scene) i)
               then set_is_system true m else m))
  ∧ getScene r.1.1.1 sid
    = Some (set_summary (Some (uuidv4 env n)) (set_folded true (set_status st_completed scene)))
  ∧ findMessageIndexByUUID r.1.1.2 (uuidv4 env n) None = Z.of_nat k.
Proof.
  intros Hget Hne Hfresh Hsrc idx r k.
  destruct (firstSourceIdx_spec chat (sourceMessageUUIDs scene) Hne) as (Hk1 & Hk2 & Hk3).
  fold idx in Hk1, Hk2, Hk3. fold k in Hk1, Hk2, Hk3.
  assert (Hr : r = (updateScene cm sid
       (λ s, set_summary (Some (uuidv4 env n)) (set_folded true (set_status st_completed s))),
     insertAt k (summaryMessageOf (uuidv4 env n) sid summary)
       (modifyResolved (set_is_system true) (sourceMessageUUIDs scene) chat),
     S n, Suspended AwaitSaveChat)).
  { apply summarizeScene_complete_eq; try done. fold k. lia. }
  rewrite Hr. simpl.
  assert (Hlen : (k ≤ length (modifyResolved (set_is_system true)
                                 (sourceMessageUUIDs scene) chat))%nat).
  { rewrite modifyResolved_length. lia. }
  split_and!; try done.
  - by rewrite insertAt_length, modifyResolved_length.
  - by apply insertAt_lookup_new.
  - intros i m Hm. rewrite insertAt_lookup_old by done.
    rewrite modifyResolved_lookup by done. rewrite Hm. by case_decide.
  - by rewrite getScene_updateScene_eq, Hget.
  - apply summary_resolves; [lia|done].
Qed.

Definition chatTwoSources : list Message := [plainMessage "x"; plainMessage "a"; plainMessage "b"].
Definition storeTwoSources : ChatMetadata :=
  storeOf [("s1", sceneOf "s1" ["a"; "b"] None st_defined)].

Lemma X23_summary_inserted_witness :
  let scene := sceneOf "s1" ["a"; "b"] None st_defined in
  let idx := collectSourceIndices chatTwoSources (sourceMessageUUIDs scene) in
  let r := summarizeScene_complete queueEnv (storeTwoSources, chatTwoSources, 0%nat) "s1" idx
             "  They talk.  " in
  let k := firstSourceIdx chatTwoSources idx in
  (k = 1%nat ∧ (is_system <$> r.1.1.2) = [false; false; true; true]
   ∧ (mes <$> r.1.1.2 !! 1%nat) = Some "They talk.")
  ∧ (r.2 = Suspended AwaitSaveChat
     ∧ Z.of_nat k ∈ idx ∧ (∀ p, p ∈ idx → (Z.of_nat k ≤ p)%Z)
     ∧ length r.1.1.2 = S (length chatTwoSources)
     ∧ r.1.1.2 !! k = Some (summaryMessageOf (uuidv4 queueEnv 0) "s1" "  They talk.  ")
     ∧ (∀ i m, chatTwoSources !! i = Some m →
          r.1.1.2 !! shifted k i
          = Some (if decide (resolvesTo chatTwoSources (sourceMessageUUIDs scene) i)
                  then set_is_system true m else m))
     ∧ getScene r.1.1.1 "s1"
       = Some (set_summary (Some (uuidv4 queueEnv 0))
                 (set_folded true (set_status st_completed scene)))
     ∧ findMessageIndexByUUID r.1.1.2 (uuidv4 queueEnv 0) None = Z.of_nat k).
Proof.
  split; [vm_compute; by split_and!|].
  apply (X23_summary_inserted queueEnv storeTwoSources chatTwoSources 0 "s1"
           (sceneOf "s1" ["a"; "b"] None st_defined) "  They talk.  ").
  - vm_compute. reflexivity.
  - vm_compute. discriminate.
  - intros [|[|[|j]]]; vm_compute; discriminate.
  - apply (bool_decide_unpack _). vm_compute. exact I.
Defined.

(** ** Undoing a summary *)

Lemma show_after_hide (srcs : list string) (chat : list Message) :
  (∀ i m, chat !! i = Some m → resolvesTo chat srcs i → is_system m = false) →
  modifyResolved (set_is_system false) srcs (modifyResolved (set_is_system true) srcs chat)
  = chat.
Proof.
  intros Hvis. apply list_eq. intros i.
  rewrite !modifyResolved_lookup by done.
  assert (Hu : uuids (modifyResolved (set_is_system true) srcs chat) = uuids chat)
    by (by apply modifyResolved_uuids).
  destruct (decide (resolvesTo chat srcs i)) as [Hr|Hr].
  - rewrite decide_True by (by apply (resolvesTo_ext _ chat)).
    destruct (chat !! i) as [m|] eqn:Hm; simpl; [|done].
    f_equal. specialize (Hvis i m Hm Hr). destruct m. simpl in *. by subst.
  - rewrite decide_False; [done|]. by rewrite (resolvesTo_ext _ chat).
Qed.

(** X24. Undo after a summary: [prepareForRetry] run on the state
    [summarizeScene] leaves after an accepted summary removes the summary
    message and shows the sources again, so that the chat is the one
    before the summary when the sources were visible then; the scene is
    [defined] again, unfolded, with no summary identifier and its sources
    unchanged. *)
Theorem X24_undo_restores_chat (env : Env) (cm : ChatMetadata) (chat : list Message)
    (n : nat) (sid : string) (scene : Scene) (summary : string) :
  getScene cm sid = Some scene →
  collectSourceIndices chat (sourceMessageUUIDs scene) ≠ [] →
  uuidv4 env n ≠ "" →
  (∀ j, uuid_at chat j ≠ Some (uuidv4 env n)) →
  uuidv4 env n ∉ sourceMessageUUIDs scene →
  (∀ i m, chat !! i = Some m → resolvesTo chat (sourceMessageUUIDs scene) i →
     is_system m = false) →
  let idx := collectSourceIndices chat (sourceMessageUUIDs scene) in
  let r1 := summarizeScene_complete env (cm, chat, n) sid idx summary in
  let r2 := prepareForRetry r1.1 sid in
  r2.2 = Suspended AwaitRetrySave
  ∧ r2.1.1.2 = chat
  ∧ getScene r2.1.1.1 sid
    = Some (set_stale false (set_lastError None (set_summary None
              (set_folded false (set_status st_defined scene)))))
  ∧ (∀ sid', sid' ≠ sid → getScene r2.1.1.1 sid' = getScene cm sid').
Proof.
  intros Hget Hne Htruthy Hfresh Hsrc Hvis idx r1 r2.
  destruct (firstSourceIdx_spec chat (sourceMessageUUIDs scene) Hne) as (_ & _ & Hk).
  fold idx in Hk.
  pose proof (summary_resolves env chat n sid (sourceMessageUUIDs scene)
                (firstSourceIdx chat idx) summary ltac:(lia) Hfresh) as Hfind.
  assert (Hr1 : r1 = (updateScene cm sid
       (λ s, set_summary (Some (uuidv4 env n)) (set_folded true (set_status st_completed s))),
     insertAt (firstSourceIdx chat idx) (summaryMessageOf (uuidv4 env n) sid summary)
       (modifyResolved (set_is_system true) (sourceMessageUUIDs scene) chat),
     S n, Suspended AwaitSaveChat)).
  { apply summarizeScene_complete_eq; try done. lia. }
  unfold r2. rewrite Hr1. simpl.
  unfold prepareForRetry.
  rewrite getScene_updateScene_eq, Hget. simpl.
  rewrite (proj2 (truthy_ne _) Htruthy), Hfind.
  rewrite decide_False by lia. rewrite Nat2Z.id.
  rewrite insertAt_delete by (rewrite modifyResolved_length; lia).
  change (showSources (sourceMessageUUIDs scene) ?c)
    with (modifyResolved (set_is_system false) (sourceMessageUUIDs scene) c).
  rewrite show_after_hide by done.
  split_and!; [done|done| |].
  - simpl. by rewrite getScene_updateScene_eq, getScene_updateScene_eq, Hget.
  - intros sid' Hne'. simpl. by rewrite !getScene_updateScene_ne.
Qed.

Lemma X24_undo_restores_chat_witness :
  let scene := sceneOf "s1" ["a"; "b"] None st_defined in
  let idx := collectSourceIndices chatTwoSources (sourceMessageUUIDs scene) in
  let r1 := summarizeScene_complete queueEnv (storeTwoSources, chatTwoSources, 0%nat) "s1" idx
              "  They talk.  " in
  let r2 := prepareForRetry r1.1 "s1" in
  length r1.1.1.2 = 4%nat
  ∧ (r2.2 = Suspended AwaitRetrySave
     ∧ r2.1.1.2 = chatTwoSources
     ∧ getScene r2.1.1.1 "s1"
       = Some (set_stale false (set_lastError None (set_summary None
                 (set_folded false (set_status st_defined scene)))))
     ∧ (∀ sid', sid' ≠ "s1" → getScene r2.1.1.1 sid' = getScene storeTwoSources sid')).
Proof.
  split; [vm_compute; reflexivity|].
  apply (X24_undo_restores_chat queueEnv storeTwoSources chatTwoSources 0 "s1"
           (sceneOf "s1" ["a"; "b"] None st_defined) "  They talk.  ").
  - vm_compute. reflexivity.
  - vm_compute. discriminate.
  - vm_compute. discriminate.
  - intros [|[|[|j]]]; vm_compute; discriminate.
  - apply (bool_decide_unpack _). vm_compute. exact I.
  - intros [|[|[|i]]] m Hm _; vm_compute in Hm; [| | |discriminate];
      injection Hm as <-; reflexivity.
Defined.

(** ** The retry loop of [summarizeScene] *)

(** What [trim] strips. *)

Section Trim.
Implicit Types (s w : string).

Lemma trimStart_whiteSpace w s : w ∈ whiteSpace → trimStart (w ++ s) = trimStart s.
Proof.
unfold whiteSpace. intros Hw.
repeat (apply elem_of_cons in Hw as [->|Hw]; [vm_compute; reflexivity|]).
by apply elem_of_nil in Hw.
Qed.

Lemma trimEnd_whiteSpace s w : w ∈ whiteSpace → trimEnd (s ++ w) = trimEnd s.
Proof.
intros Hw. induction s as [|a s IH]; simpl.
- revert Hw. unfold whiteSpace. intros Hw.
  repeat (apply elem_of_cons in Hw as [->|Hw]; [vm_compute; reflexivity|]).
  by apply elem_of_nil in Hw.
- by rewrite IH.
Qed.

(** A text made of white space only is blank. *)
Lemma trim_whiteSpace (ws : list string) :
Forall (λ w, w ∈ whiteSpace) ws → trim (foldr String.append EmptyString ws) = EmptyString.
Proof.
unfold trim. induction 1 as [|w ws Hw _ IH]; simpl; [done|].
by rewrite trimStart_whiteSpace.
Qed.

End Trim.

(** X22. A blank answer of [generateRaw] (no answer, or one that trims
    to the empty string: a text of white space only, in the sense of
    [String.prototype.trim]) changes nothing and asks again while attempts
    are left; at the last attempt the scene is put in [error] with the
    blank-summary text, the chat is as it was and no identifier is
    minted. *)
Theorem X22_blank_answer (env : Env) (cm : ChatMetadata) (chat : list Message) (n : nat)
    (sid : string) (attempt maxAttempts : Z) (idx : list Z) (result : option string) :
  trim (default "" result) = "" →
  summarizeScene_resolved env (cm, chat, n) sid false attempt maxAttempts idx result
  = if (attempt <? maxAttempts)%Z
    then (cm, chat, n, Suspended (AwaitGenerate (attempt + 1) maxAttempts idx))
    else (updateScene cm sid
            (λ s, set_lastError (Some (blankSummaryMessage maxAttempts))
                    (set_status st_error s)),
          chat, n, Returned).
Proof.
  intros Hblank. unfold summarizeScene_resolved. rewrite Hblank. simpl.
  rewrite andb_false_r. unfold enterAttempt.
  destruct (attempt <? maxAttempts)%Z eqn:Hlt.
  - apply Z.ltb_lt in Hlt. by rewrite (proj2 (Z.leb_le _ _)) by lia.
  - apply Z.ltb_ge in Hlt. by rewrite (proj2 (Z.leb_gt _ _)) by lia.
Qed.

(** An answer of a no-break space, a space, an ideographic space and a
    line feed, at the last of three attempts. *)
Lemma X22_blank_answer_witness :
  summarizeScene_resolved queueEnv (queueStore, queueChat, 0%nat) "s1" false 3 3 [0%Z]
    (Some (utf8 [194; 160; 32; 227; 128; 128; 10]))
  = (updateScene queueStore "s1"
       (λ s, set_lastError (Some "LLM returned blank summary after 3 attempts")
               (set_status st_error s)),
     queueChat, 0%nat, Returned).
Proof.
  apply (X22_blank_answer queueEnv queueStore queueChat 0 "s1" 3 3 [0%Z]
           (Some (utf8 [194; 160; 32; 227; 128; 128; 10]))).
  vm_compute. reflexivity.
Defined.

(** X26. The number of calls of [generateRaw]: the first call of a
    summarization is attempt [1] of [1 + maxRetries] (2 retries when the
    setting is missing), and a call that is followed by another one is
    followed by the next attempt, still within the maximum, with the store,
    the chat and the collected positions unchanged. *)
Theorem X26_attempts_bounded (env : Env) (ctx : Ctx) (sid : string) (aborted : bool) :
  (∀ ctx' a m idx,
     summarizeScene_start env ctx sid aborted = (ctx', Suspended (AwaitGenerate a m idx)) →
     a = 1%Z ∧ m = (1 + default 2 (maxRetries env))%Z ∧ (1 ≤ m)%Z ∧ idx ≠ []
     ∧ ctx'.1.2 = ctx.1.2)
  ∧ (∀ a m idx answer ctx' a' m' idx',
       resumeWorker env ctx sid aborted (AwaitGenerate a m idx) answer
       = Some (ctx', Suspended (AwaitGenerate a' m' idx')) →
       a' = (a + 1)%Z ∧ (a' ≤ m)%Z ∧ m' = m ∧ idx' = idx ∧ ctx' = ctx).
Proof.
  split.
  - intros ctx' a m idx. destruct ctx as [[cm chat] n]. unfold summarizeScene_start.
    destruct (hasGenerateRaw env); simpl; [|done].
    destruct (getScene cm sid) as [scene|]; [|done].
    destruct (negb _); [done|].
    unfold summarizeScene_catch, afterAttempt, enterAttempt.
    destruct aborted; simpl; [done|].
    destruct (length _ =? 0)%nat eqn:Hlen; simpl; [done|].
    destruct (1 <=? _)%Z eqn:Hle; simpl; [|done].
    intros [= <- <- <- <-]. apply Z.leb_le in Hle. apply Nat.eqb_neq in Hlen.
    split_and!; try done. intros E. by rewrite E in Hlen.
  - intros a m idx answer ctx' a' m' idx'. destruct ctx as [[cm chat] n].
    unfold resumeWorker.
    assert (Hcatch : ∀ e, summarizeScene_catch (cm, chat, n) sid e
                          ≠ (ctx', Suspended (AwaitGenerate a' m' idx'))).
    { intros e. unfold summarizeScene_catch. by destruct (isAbortError e). }
    assert (Hnext : afterAttempt (cm, chat, n) sid (enterAttempt aborted (a + 1) m idx)
                    = (ctx', Suspended (AwaitGenerate a' m' idx')) →
                    a' = (a + 1)%Z ∧ (a' ≤ m)%Z ∧ m' = m ∧ idx' = idx ∧ ctx' = (cm, chat, n)).
    { unfold afterAttempt, enterAttempt.
      destruct (a + 1 <=? m)%Z eqn:Hle; [|intros H; by apply Hcatch in H].
      destruct aborted; [intros H; by apply Hcatch in H|].
      intros [= <- <- <- <-]. apply Z.leb_le in Hle. done. }
    destruct answer as [result|e]; intros [= H]; revert H.
    + unfold summarizeScene_resolved.
      destruct aborted eqn:Hab; [intros H; by apply Hcatch in H|].
      destruct (truthy_opt result && _); [|done].
      destruct (_ && _); [intros H; by apply Hcatch in H|].
      unfold summarizeScene_complete. done.
    + unfold summarizeScene_rejected.
      destruct aborted eqn:Hab; [intros H; by apply Hcatch in H|].
      destruct (_ || _); [intros H; by apply Hcatch in H|]. done.
Qed.

(** ** Selection mode *)

(** X25. A click in selection mode leaves a range with both ends set and
    in order that has the clicked message as an end: the range from the
    old start to the click when a start was set (and, for a shift-click,
    an end as well), otherwise the clicked message alone. Outside
    selection mode a click changes nothing. *)
Theorem X25_handleMessageClick (s : Selection) (messageId : Z) (shiftKey : bool) :
  let s' := handleMessageClick s messageId shiftKey in
  (selectionModeActive s = false → s' = s)
  ∧ (selectionModeActive s = true →
       selectionModeActive s' = true
       ∧ autoStartIndex s' = autoStartIndex s
       ∧ (∃ a b, selectionStart s' = Some a ∧ selectionEnd s' = Some b ∧ (a ≤ b)%Z
                 ∧ (a = messageId ∨ b = messageId))
       ∧ (∀ a, selectionStart s = Some a →
            (shiftKey = false ∨ selectionEnd s ≠ None) →
            selectionStart s' = Some (Z.min a messageId)
            ∧ selectionEnd s' = Some (Z.max a messageId)
            ∧ autoStartOverridden s' = autoStartOverridden s)
       ∧ ((selectionStart s = None ∨ (shiftKey = true ∧ selectionEnd s = None)) →
            selectionStart s' = Some messageId ∧ selectionEnd s' = Some messageId
            ∧ autoStartOverridden s' = true)).
Proof.
  destruct s as [active st en au ov]. cbv zeta. unfold handleMessageClick. simpl.
  destruct active; simpl; [|by split].
  split; [done|intros _].
  destruct st as [a|], en as [b|], shiftKey; simpl; unfold normalizeSelection; simpl;
    rewrite ?Z.ltb_irrefl; try destruct (messageId <? a)%Z eqn:Hlt; simpl;
    try (apply Z.ltb_lt in Hlt); try (apply Z.ltb_ge in Hlt);
    (split_and!;
     [done|done|eexists _, _; split_and!; [done|done|lia|lia]
     |intros a0 [= <-] Hc; try (destruct Hc; done);
      split_and!; try done; f_equal; lia
     |intros Hc; try (destruct Hc as [|[? ?]]; done); done]).
Qed.

Lemma getAutoStartIndex_bounds (cm : ChatMetadata) (chat : Chat) :
  (0 ≤ getAutoStartIndex cm chat ≤ Z.of_nat (length chat))%Z.
Proof.
  unfold getAutoStartIndex.
  destruct (length _ =? 0)%nat; [lia|].
  rewrite lastSceneMessage_all.
  destruct (raise_fold chat (mjoin (sceneMessageIds <$> values (scenes (getSceneFoldData cm))))
              (-1)%Z) as (_ & _ & H3).
  set (mx := fold_left _ _ _) in *.
  assert (Hmx : (mx < Z.of_nat (length chat))%Z).
  { destruct H3 as [->|(u & _ & ->)]; [lia|].
    unfold findMessageIndexByUUID. simpl.
    destruct (linearScan_bounds chat u 0) as [->|?]; lia. }
  destruct (0 <=? mx)%Z eqn:Hpos; [apply Z.leb_le in Hpos|]; lia.
Qed.

(** X27. [toggleSelectionMode] flips the mode. Leaving it clears the
    selection. Entering it with smart auto-start proposes the range from
    [getAutoStartIndex] to the last message, whose start lies between [0]
    and one past its end; without smart auto-start nothing is selected. *)
Theorem X27_toggleSelectionMode (s : Selection) (smartAutoStart : bool)
    (cm : ChatMetadata) (chat : Chat) :
  let s' := toggleSelectionMode s smartAutoStart cm chat in
  selectionModeActive s' = negb (selectionModeActive s)
  ∧ autoStartOverridden s' = false
  ∧ (selectionModeActive s = true ∨ smartAutoStart = false →
     selectionStart s' = None ∧ selectionEnd s' = None ∧ autoStartIndex s' = None)
  ∧ (selectionModeActive s = false ∧ smartAutoStart = true →
     ∃ a e, selectionStart s' = Some a ∧ autoStartIndex s' = Some a
            ∧ selectionEnd s' = Some e
            ∧ a = getAutoStartIndex cm chat ∧ e = (Z.of_nat (length chat) - 1)%Z
            ∧ (0 ≤ a ≤ e + 1)%Z).
Proof.
  pose proof (getAutoStartIndex_bounds cm chat) as Hb.
  destruct s as [active st en au ov]. cbv zeta.
  unfold toggleSelectionMode, enterSelectionMode, exitSelectionMode. simpl.
  destruct active, smartAutoStart; simpl; split_and!; try done;
    try (intros [?|?]; done); try (intros [? ?]; done).
  intros _. eexists _, _. split_and!; try done; lia.
Qed.
